(** * Wildlife corridor network design: the maximum-flow engine and the
      reduction that feeds it (problem1_network_flow.cpp)

    A shallow embedding of the two classes of the program, [MaxFlow]
    (Edmonds-Karp on a dense residual matrix) and
    [WildlifeCorridorNetwork] (habitat locations, the distance-based
    capacity rule, the corridor map and the reduction driver), followed by
    the properties proved about them.

    Conventions of the embedding.
    - A C++ [int] is a [Z].  In [MaxFlow], [+] and [-] are those of [Z]:
      signed overflow is undefined in C++, and these definitions stand for
      the program while every sum stays between [INT_MIN] and [INT_MAX].
      Every theorem about a value [MaxFlow] computes by addition therefore
      assumes that the capacities fit: [calls_fit_int] for the sums
      [addEdge] builds, and for [maxflow] that the two directions of a pair,
      and the arcs that leave the source, were given at most [INT_MAX] in
      all; [run_bounded] shows that under these bounds every matrix entry
      stays between 0 and the capacity of its pair and the flow never
      exceeds the capacity leaving the source.
    - [MaxFlowInt] is the same class with the additions of a 32-bit
      machine, which wrap around ([int_wrap]), as the usual compilation of
      the program does.  It says what the program does beyond the bounds:
      [maxflow] still returns, but the flow and the entries of the matrix
      can be negative.  Within the bounds the two coincide, as the last
      part of the file shows.
    - A node id is a [nat]; a [vector] is a [list], read with [!!!] and
      written with [<[i:=x]>].  Indexing out of range is undefined in C++;
      here such a read gives the default element and such a write changes
      nothing, and every theorem that depends on an index assumes it valid.
    - A C++ [double] is a primitive binary64 [float]; the operations are the
      correctly rounded IEEE-754 ones.
    - [std::map] is an association list kept strictly sorted by key, which is
      the order in which the program iterates over it.
    - A [while] loop whose termination is not structural takes a [fuel]
      argument and returns [None] when the fuel runs out; the termination
      theorems show how much fuel is enough.
    - The random generator of [generateRandom] is library code and is not
      modelled: the function takes the numbers drawn as an argument, and
      what is proved of it holds whatever they are. *)

From Stdlib Require Import ZArith List Lia Floats QArith Qround.
From stdpp Require Import base list sorting.

#[local] Open Scope Z_scope.

Definition INT_MAX : Z := 2147483647.
Definition INT_MIN : Z := -2147483648.

(** ** Dense matrices: [vector<vector<int>>] *)

(** [m[u][v]] *)
Definition cell (m : list (list Z)) (u v : nat) : Z := (m !!! u) !!! v.

(** [m[u][v] = x] *)
Definition set_cell (m : list (list Z)) (u v : nat) (x : Z) : list (list Z) :=
  <[u := <[v := x]> (m !!! u)]> m.

(** ** class MaxFlow *)

Module MaxFlow.

Record t : Type := mk {
  n : nat;
  capacity : list (list Z);
  adj : list (list nat)
}.

(** [MaxFlow(int n) : n(n), capacity(n, vector<int>(n, 0)), adj(n) {}] *)
Definition new (n : nat) : t :=
  mk n (replicate n (replicate n 0)) (replicate n []).

(** [adj[u].push_back(v)] *)
Definition push_adj (a : list (list nat)) (u v : nat) : list (list nat) :=
  <[u := (a !!! u) ++ [v]]> a.

Definition addEdge (u v : nat) (cap : Z) (mf : t) : t :=
  let adj' :=
    if (cell (capacity mf) u v =? 0) && (cell (capacity mf) v u =? 0)
    then push_adj (push_adj (adj mf) u v) v u
    else adj mf in
  mk (n mf)
     (set_cell (capacity mf) u v (cell (capacity mf) u v + cap))
     adj'.

(** The body of [for (int v : adj[u])] in [bfs]: [vs] is what is left of
    [adj[u]].  The result is [(true, parent, q)] when the loop left the
    function through [return true]. *)
Fixpoint bfs_for (mf : t) (sink u : nat) (flow : Z) (vs : list nat)
    (parent : list Z) (q : list (nat * Z)) : bool * list Z * list (nat * Z) :=
  match vs with
  | [] => (false, parent, q)
  | v :: vs' =>
      if (parent !!! v =? -1) && (0 <? cell (capacity mf) u v) then
        let parent' := <[v := Z.of_nat u]> parent in
        let new_flow := Z.min flow (cell (capacity mf) u v) in
        if Nat.eqb v sink then (true, parent', q)
        else bfs_for mf sink u flow vs' parent' (q ++ [(v, new_flow)])
      else bfs_for mf sink u flow vs' parent q
  end.

(** [while (!q.empty()) { ... }] in [bfs]. *)
Fixpoint bfs_while (fuel : nat) (mf : t) (sink : nat)
    (parent : list Z) (q : list (nat * Z)) : option (bool * list Z) :=
  match fuel with
  | O => None
  | S fuel' =>
      match q with
      | [] => Some (false, parent)
      | (u, flow) :: q' =>
          match bfs_for mf sink u flow (adj mf !!! u) parent q' with
          | (true, parent', _) => Some (true, parent')
          | (false, parent', q'') => bfs_while fuel' mf sink parent' q''
          end
      end
  end.

(** [bool bfs(int source, int sink, vector<int>& parent)]: the result carries
    the [parent] vector the caller gets back through the reference. *)
Definition bfs (fuel : nat) (mf : t) (source sink : nat) (parent : list Z)
    : option (bool * list Z) :=
  let parent := replicate (length parent) (-1) in
  let parent := <[source := Z.of_nat source]> parent in
  bfs_while fuel mf sink parent [(source, INT_MAX)].

(** First [for (int v = sink; v != source; v = parent[v])] of [maxflow]:
    the bottleneck of the path recorded in [parent]. *)
Fixpoint path_min (fuel : nat) (cap : list (list Z)) (parent : list Z)
    (source v : nat) (path_flow : Z) : option Z :=
  if Nat.eqb v source then Some path_flow
  else match fuel with
       | O => None
       | S fuel' =>
           let u := Z.to_nat (parent !!! v) in
           path_min fuel' cap parent source u (Z.min path_flow (cell cap u v))
       end.

(** Second [for] of [maxflow]: push [path_flow] along the path. *)
Fixpoint path_update (fuel : nat) (cap : list (list Z)) (parent : list Z)
    (source v : nat) (path_flow : Z) : option (list (list Z)) :=
  if Nat.eqb v source then Some cap
  else match fuel with
       | O => None
       | S fuel' =>
           let u := Z.to_nat (parent !!! v) in
           let cap := set_cell cap u v (cell cap u v - path_flow) in
           let cap := set_cell cap v u (cell cap v u + path_flow) in
           path_update fuel' cap parent source u path_flow
       end.

(** One turn of [while (bfs(source, sink, parent)) { ... }]: [None] when a
    loop ran out of fuel, [Some (inl parent)] when [bfs] returned false (the
    loop is left), [Some (inr (mf', path_flow, parent))] after one
    augmentation. *)
Definition augment (fuel : nat) (mf : t) (source sink : nat) (parent : list Z)
    : option (list Z + t * Z * list Z) :=
  match bfs fuel mf source sink parent with
  | None => None
  | Some (false, parent) => Some (inl parent)
  | Some (true, parent) =>
      match path_min fuel (capacity mf) parent source sink INT_MAX with
      | None => None
      | Some path_flow =>
          match path_update fuel (capacity mf) parent source sink path_flow with
          | None => None
          | Some cap' => Some (inr (mk (n mf) cap' (adj mf), path_flow, parent))
          end
      end
  end.

(** [while (bfs(source, sink, parent)) { ... }]: [fuel] bounds the turns of
    this loop, [steps] the turns of each loop inside one turn. *)
Fixpoint maxflow_while (fuel steps : nat) (mf : t) (source sink : nat)
    (parent : list Z) (flow : Z) : option (Z * t) :=
  match fuel with
  | O => None
  | S fuel' =>
      match augment steps mf source sink parent with
      | None => None
      | Some (inl _) => Some (flow, mf)
      | Some (inr (mf', path_flow, parent')) =>
          maxflow_while fuel' steps mf' source sink parent' (flow + path_flow)
      end
  end.

(** [int maxflow(int source, int sink)]: the returned flow and the engine
    as the call leaves it. *)
Definition maxflow (fuel : nat) (source sink : nat) (mf : t) : option (Z * t) :=
  maxflow_while fuel fuel mf source sink (replicate (n mf) 0) 0.

Definition getUsedCorridors (numHabitats : nat) (mf : t)
    : list ((nat * nat) * Z) :=
  flat_map (fun i =>
    flat_map (fun j =>
      if 0 <? cell (capacity mf) j i
      then [((i, j), cell (capacity mf) j i)]
      else [])
      (seq (S i) (numHabitats - S i)))
    (seq 0 numHabitats).

End MaxFlow.

(** ** The arithmetic of [int] *)

(** The [int] a 32-bit machine leaves where the sum or difference of two
    [int]s is [x].  Signed overflow is undefined in C++; this is the
    two's-complement result the usual compilation produces. *)
Definition int_wrap (x : Z) : Z := (x - INT_MIN) mod 4294967296 + INT_MIN.

(** [MaxFlow] with the additions and subtractions of [int] as the machine
    performs them: [addEdge], the second loop of [maxflow] and the
    accumulation of the flow.  [bfs] and the first loop of [maxflow] only
    compare and take minima, and are those of [MaxFlow]. *)
Module MaxFlowInt.

Definition addEdge (u v : nat) (cap : Z) (mf : MaxFlow.t) : MaxFlow.t :=
  let adj' :=
    if (cell (MaxFlow.capacity mf) u v =? 0) && (cell (MaxFlow.capacity mf) v u =? 0)
    then MaxFlow.push_adj (MaxFlow.push_adj (MaxFlow.adj mf) u v) v u
    else MaxFlow.adj mf in
  MaxFlow.mk (MaxFlow.n mf)
     (set_cell (MaxFlow.capacity mf) u v
        (int_wrap (cell (MaxFlow.capacity mf) u v + cap)))
     adj'.

Fixpoint path_update (fuel : nat) (cap : list (list Z)) (parent : list Z)
    (source v : nat) (path_flow : Z) : option (list (list Z)) :=
  if Nat.eqb v source then Some cap
  else match fuel with
       | O => None
       | S fuel' =>
           let u := Z.to_nat (parent !!! v) in
           let cap := set_cell cap u v (int_wrap (cell cap u v - path_flow)) in
           let cap := set_cell cap v u (int_wrap (cell cap v u + path_flow)) in
           path_update fuel' cap parent source u path_flow
       end.

Definition augment (fuel : nat) (mf : MaxFlow.t) (source sink : nat)
    (parent : list Z) : option (list Z + MaxFlow.t * Z * list Z) :=
  match MaxFlow.bfs fuel mf source sink parent with
  | None => None
  | Some (false, parent) => Some (inl parent)
  | Some (true, parent) =>
      match MaxFlow.path_min fuel (MaxFlow.capacity mf) parent source sink INT_MAX with
      | None => None
      | Some path_flow =>
          match path_update fuel (MaxFlow.capacity mf) parent source sink path_flow with
          | None => None
          | Some cap' =>
              Some (inr (MaxFlow.mk (MaxFlow.n mf) cap' (MaxFlow.adj mf),
                         path_flow, parent))
          end
      end
  end.

Fixpoint maxflow_while (fuel steps : nat) (mf : MaxFlow.t) (source sink : nat)
    (parent : list Z) (flow : Z) : option (Z * MaxFlow.t) :=
  match fuel with
  | O => None
  | S fuel' =>
      match augment steps mf source sink parent with
      | None => None
      | Some (inl _) => Some (flow, mf)
      | Some (inr (mf', path_flow, parent')) =>
          maxflow_while fuel' steps mf' source sink parent'
            (int_wrap (flow + path_flow))
      end
  end.

Definition maxflow (fuel : nat) (source sink : nat) (mf : MaxFlow.t)
    : option (Z * MaxFlow.t) :=
  maxflow_while fuel fuel mf source sink (replicate (MaxFlow.n mf) 0) 0.

End MaxFlowInt.

(** ** Doubles *)

#[global] Instance float_inhabited : Inhabited float := populate 0%float.

(** [(int)x] for a double [x]: truncation toward zero.  The conversion is
    undefined in C++ when [x] is a NaN, an infinity or out of the range of
    [int]; the value given here in those cases is the one the SSE2
    conversion instruction produces. *)
Definition double_to_int (x : float) : Z :=
  match Prim2SF x with
  | S754_zero _ => 0
  | S754_finite s m e =>
      let a := Z.shiftl (Z.pos m) e in
      let z := if s then - a else a in
      if (INT_MIN <=? z) && (z <=? INT_MAX) then z else INT_MIN
  | S754_infinity _ | S754_nan => INT_MIN
  end.

(** ** [std::map<pair<int,int>, int>] *)

Definition key_eqb (a b : nat * nat) : bool :=
  Nat.eqb (fst a) (fst b) && Nat.eqb (snd a) (snd b).

(** [operator<] of [pair<int,int>] *)
Definition key_ltb (a b : nat * nat) : bool :=
  Nat.ltb (fst a) (fst b) || (Nat.eqb (fst a) (fst b) && Nat.ltb (snd a) (snd b)).

(** [m[k] = x] *)
Fixpoint map_assign (k : nat * nat) (x : Z) (m : list ((nat * nat) * Z))
    : list ((nat * nat) * Z) :=
  match m with
  | [] => [(k, x)]
  | (k', x') :: m' =>
      if key_eqb k k' then (k, x) :: m'
      else if key_ltb k k' then (k, x) :: m
      else (k', x') :: map_assign k x m'
  end.

(** ** class WildlifeCorridorNetwork *)

Module WildlifeCorridorNetwork.

Record t : Type := mk {
  numHabitats : nat;
  habitatLocations : list (float * float);
  corridorCapacity : list ((nat * nat) * Z);
  sourceHabitat : nat;
  targetHabitat : nat
}.

(** The constructor: [habitatLocations.resize(habitats)] fills the vector
    with value-initialised pairs, the map starts empty. *)
Definition new (habitats source target : nat) : t :=
  mk habitats (replicate habitats (0%float, 0%float)) [] source target.

Definition setHabitatLocation (habitat : nat) (x y : float) (w : t) : t :=
  mk (numHabitats w) (<[habitat := (x, y)]> (habitatLocations w))
     (corridorCapacity w) (sourceHabitat w) (targetHabitat w).

Definition distance (w : t) (h1 h2 : nat) : float :=
  let p1 : float * float := habitatLocations w !!! h1 in
  let p2 : float * float := habitatLocations w !!! h2 in
  let dx := (fst p1 - fst p2)%float in
  let dy := (snd p1 - snd p2)%float in
  PrimFloat.sqrt (dx * dx + dy * dy)%float.

Definition calculateCorridorCapacity (w : t) (h1 h2 : nat) (maxDist : float) : Z :=
  let dist := distance w h1 h2 in
  if (maxDist <? dist)%float then 0
  else
    let normalized := (1 - dist / maxDist)%float in
    let capacity := double_to_int (100 * normalized * normalized)%float in
    Z.max 1 capacity.

(** [corridorCapacity[{i, j}] = capacity] *)
Definition set_corridor (k : nat * nat) (x : Z) (w : t) : t :=
  mk (numHabitats w) (habitatLocations w)
     (map_assign k x (corridorCapacity w)) (sourceHabitat w) (targetHabitat w).

Definition buildCorridorNetwork (maxCorridorDistance : float) (w : t) : t :=
  fold_left (fun w i =>
    fold_left (fun w j =>
      let capacity := calculateCorridorCapacity w i j maxCorridorDistance in
      if 0 <? capacity then set_corridor (i, j) capacity w else w)
      (seq (S i) (numHabitats w - S i)) w)
    (seq 0 (numHabitats w)) w.

(** The engine [solve] fills: [for (auto& corridor : corridorCapacity)]
    with the two [addEdge] calls of each corridor. *)
Definition add_corridors (m : list ((nat * nat) * Z)) (mf : MaxFlow.t) : MaxFlow.t :=
  fold_left (fun mf corridor =>
    let h1 := fst (fst corridor) in
    let h2 := snd (fst corridor) in
    let cap := snd corridor in
    MaxFlow.addEdge h2 h1 cap (MaxFlow.addEdge h1 h2 cap mf)) m mf.

Definition network (w : t) : MaxFlow.t :=
  add_corridors (corridorCapacity w) (MaxFlow.new (numHabitats w)).

(** [solve()]: the pair it returns and the object as the call leaves it
    ([solve] is not a [const] member; its engine [mf] is a local). *)
Definition solve (fuel : nat) (w : t)
    : option ((Z * list ((nat * nat) * Z)) * t) :=
  let mf := network w in
  match MaxFlow.maxflow fuel (sourceHabitat w) (targetHabitat w) mf with
  | None => None
  | Some (maxFlow, mf) =>
      let usedCorridors := MaxFlow.getUsedCorridors (numHabitats w) mf in
      Some ((maxFlow, usedCorridors), w)
  end.

(** [generateRandom(numHabitats, regionSize, seed)].  The generator and the
    distribution are library code: [draw i] stands for the two numbers
    [locDist(gen)] hands to [setHabitatLocation(i, _, _)], whichever of the
    two calls the compiler makes first.  With no habitat at all [target] is
    -1 and the last two assignments fall outside the vector. *)
Definition generateRandom (numHabitats : nat) (regionSize : float)
    (draw : nat -> float * float) : t :=
  let source := 0%nat in
  let target := (numHabitats - 1)%nat in
  let wcn := new numHabitats source target in
  let wcn :=
    fold_left (fun wcn i =>
      setHabitatLocation i (fst (draw i)) (snd (draw i)) wcn)
      (seq 0 numHabitats) wcn in
  let wcn := setHabitatLocation source 0 0 wcn in
  setHabitatLocation target regionSize regionSize wcn.

Definition getNumCorridors (w : t) : nat := length (corridorCapacity w).

End WildlifeCorridorNetwork.

(** * Specification vocabulary *)

(** ** Matrices and sums *)

(** An [n] by [n] matrix. *)
Definition square (n : nat) (m : list (list Z)) : Prop :=
  length m = n /\ forall u, (u < n)%nat -> length (m !!! u) = n.

(** [f 0 + ... + f (n - 1)] *)
Fixpoint sumZ (f : nat -> Z) (n : nat) : Z :=
  match n with
  | O => 0
  | S k => sumZ f k + f k
  end.

(** The sum of row [w] of an [n] by [n] matrix. *)
Definition rowsum (n : nat) (m : list (list Z)) (w : nat) : Z :=
  sumZ (cell m w) n.

(** One turn of the second loop of [maxflow]:
    [capacity[u][v] -= path_flow; capacity[v][u] += path_flow]. *)
Definition push_arc (cap : list (list Z)) (u v : nat) (path_flow : Z)
    : list (list Z) :=
  let cap := set_cell cap u v (cell cap u v - path_flow) in
  set_cell cap v u (cell cap v u + path_flow).

(** ** Engines and [addEdge] calls *)

(** The shape every engine keeps: an [n] by [n] matrix and [n] adjacency
    lists. *)
Definition shaped (mf : MaxFlow.t) : Prop :=
  square (MaxFlow.n mf) (MaxFlow.capacity mf) /\
  length (MaxFlow.adj mf) = MaxFlow.n mf.

(** What [addEdge] calls with non-negative capacities establish and every
    augmentation keeps: the shape, adjacency lists that hold valid nodes,
    non-negative entries, an adjacency entry for every arc with residual
    capacity, and adjacency in both directions. *)
Record wf_engine (mf : MaxFlow.t) : Prop := {
  wf_shaped : shaped mf;
  wf_adj : forall u v, In v (MaxFlow.adj mf !!! u) -> (v < MaxFlow.n mf)%nat;
  wf_nonneg : forall u v, (u < MaxFlow.n mf)%nat -> (v < MaxFlow.n mf)%nat ->
    0 <= cell (MaxFlow.capacity mf) u v;
  wf_covers : forall u v, (u < MaxFlow.n mf)%nat -> (v < MaxFlow.n mf)%nat ->
    0 < cell (MaxFlow.capacity mf) u v -> In v (MaxFlow.adj mf !!! u);
  wf_sym : forall u v, (u < MaxFlow.n mf)%nat -> (v < MaxFlow.n mf)%nat ->
    In v (MaxFlow.adj mf !!! u) -> In u (MaxFlow.adj mf !!! v)
}.

(** A sequence of [addEdge] calls, first call first. *)
Definition add_edges (calls : list (nat * nat * Z)) (mf : MaxFlow.t) : MaxFlow.t :=
  fold_left (fun mf call =>
    MaxFlow.addEdge (fst (fst call)) (snd (fst call)) (snd call) mf) calls mf.

(** A call of the input domain: a non-negative capacity between two
    valid nodes. *)
Definition valid_call (n : nat) (call : nat * nat * Z) : Prop :=
  0 <= snd call /\ (fst (fst call) < n)%nat /\ (snd (fst call) < n)%nat.

(** A call with a positive capacity between two distinct valid nodes. *)
Definition positive_call (n : nat) (call : nat * nat * Z) : Prop :=
  0 < snd call /\ (fst (fst call) < n)%nat /\ (snd (fst call) < n)%nat /\
  fst (fst call) <> snd (fst call).

(** Some call of the sequence was [addEdge(a, b, _)]. *)
Definition arc_added (a b : nat) (calls : list (nat * nat * Z)) : bool :=
  existsb (fun call => Nat.eqb (fst (fst call)) a && Nat.eqb (snd (fst call)) b) calls.

(** The call [call] connects the unordered pair [{u, v}]. *)
Definition connects (u v : nat) (call : nat * nat * Z) : bool :=
  (Nat.eqb (fst (fst call)) u && Nat.eqb (snd (fst call)) v)
  || (Nat.eqb (fst (fst call)) v && Nat.eqb (snd (fst call)) u).

(** [a'] is [a] after [adj[u].push_back(v); adj[v].push_back(u)]. *)
Definition appended (a a' : list (list nat)) (u v : nat) : Prop :=
  length a' = length a /\
  a' !!! u = a !!! u ++ [v] /\
  a' !!! v = a !!! v ++ [u] /\
  forall w, w <> u -> w <> v -> a' !!! w = a !!! w.

(** What the description of [addEdge] promises of the call
    [addEdge(u, v, cap)] made after the calls [calls] on a fresh engine of
    [n] nodes. *)
Definition addEdge_spec (n : nat) (calls : list (nat * nat * Z))
    (u v : nat) (cap : Z) : Prop :=
  let mf := add_edges calls (MaxFlow.new n) in
  let mf' := MaxFlow.addEdge u v cap mf in
  (existsb (connects u v) calls = false ->
     appended (MaxFlow.adj mf) (MaxFlow.adj mf') u v) /\
  (existsb (connects u v) calls = true -> MaxFlow.adj mf' = MaxFlow.adj mf) /\
  cell (MaxFlow.capacity mf') u v = cell (MaxFlow.capacity mf) u v + cap /\
  cell (MaxFlow.capacity mf') v u = cell (MaxFlow.capacity mf) v u.

(** ** The search tree of [bfs] *)

(** [chain parent source v l]: following [parent] from [v] reaches
    [source], and [l] lists the nodes met, [v] first and [source] last. *)
Inductive chain (parent : list Z) (source : nat) : nat -> list nat -> Prop :=
  | chain_source : chain parent source source [source]
  | chain_step v u l :
      v <> source -> parent !!! v = Z.of_nat u ->
      chain parent source u l -> chain parent source v (v :: l).

(** The arcs [(parent[v], v)] of a chain. *)
Fixpoint arcs (l : list nat) : list (nat * nat) :=
  match l with
  | v :: l' =>
      match l' with
      | u :: _ => (u, v) :: arcs l'
      | [] => []
      end
  | [] => []
  end.

(** The number of nodes [bfs] has not discovered yet. *)
Fixpoint pending (parent : list Z) : nat :=
  match parent with
  | [] => O
  | x :: parent' =>
      if x =? -1 then S (pending parent') else pending parent'
  end.

(** The search tree recorded in [parent]: every discovered node has a chain
    to the source that meets no node twice and runs over arcs with residual
    capacity. *)
Definition tree (n : nat) (cap : list (list Z)) (source : nat) (parent : list Z)
    : Prop :=
  length parent = n /\ (source < n)%nat /\
  parent !!! source = Z.of_nat source /\
  forall v, (v < n)%nat -> parent !!! v <> -1 ->
    exists l, chain parent source v l /\ NoDup l /\
      Forall (fun x => (x < n)%nat) l /\
      Forall (fun a => 0 < cell cap (fst a) (snd a)) (arcs l).

(** [parent'] keeps every entry [parent] had set. *)
Definition grows (parent parent' : list Z) : Prop :=
  length parent' = length parent /\
  forall x, parent !!! x <> -1 -> parent' !!! x = parent !!! x.

(** Every neighbour of [x] over an arc with residual capacity is
    discovered. *)
Definition closed (mf : MaxFlow.t) (parent : list Z) (x : nat) : Prop :=
  forall y, In y (MaxFlow.adj mf !!! x) ->
    0 < cell (MaxFlow.capacity mf) x y -> parent !!! y <> -1.

(** What the outer loop of [bfs] keeps between two turns. *)
Definition bfs_inv (mf : MaxFlow.t) (source sink : nat) (parent : list Z)
    (q : list (nat * Z)) : Prop :=
  tree (MaxFlow.n mf) (MaxFlow.capacity mf) source parent /\
  (sink <> source -> parent !!! sink = -1) /\
  (forall e, In e q -> (fst e < MaxFlow.n mf)%nat /\ parent !!! (fst e) <> -1) /\
  (forall x, parent !!! x <> -1 -> In x (map fst q) \/ closed mf parent x).

(** ** Runs of [maxflow], paths and cuts *)

(** The engine, the [parent] vector and the flow after [k] turns of the
    loop of [maxflow]; [None] when the loop took fewer turns. *)
Fixpoint after_turns (k steps : nat) (mf : MaxFlow.t) (source sink : nat)
    (parent : list Z) (flow : Z) : option (MaxFlow.t * list Z * Z) :=
  match k with
  | O => Some (mf, parent, flow)
  | S k' =>
      match MaxFlow.augment steps mf source sink parent with
      | Some (inr (mf', path_flow, parent')) =>
          after_turns k' steps mf' source sink parent' (flow + path_flow)
      | _ => None
      end
  end.

(** The engine, the [parent] vector and the flow after [k] turns of the
    loop of [maxflow(source, sink)] on the engine [mf]. *)
Definition maxflow_turns (k steps : nat) (source sink : nat) (mf : MaxFlow.t)
    : option (MaxFlow.t * list Z * Z) :=
  after_turns k steps mf source sink (replicate (MaxFlow.n mf) 0) 0.

(** What the loop keeps, for an engine that started as [mf0]: the engine
    is well formed, the two entries of a pair keep their sum, and the sum
    of a row has moved by the flow at the source and at the sink only. *)
Definition flow_inv (mf0 : MaxFlow.t) (source sink : nat) (mf : MaxFlow.t)
    (flow : Z) : Prop :=
  wf_engine mf /\
  MaxFlow.n mf = MaxFlow.n mf0 /\ MaxFlow.adj mf = MaxFlow.adj mf0 /\
  0 <= flow /\
  (forall a b,
     cell (MaxFlow.capacity mf) a b + cell (MaxFlow.capacity mf) b a =
     cell (MaxFlow.capacity mf0) a b + cell (MaxFlow.capacity mf0) b a) /\
  (forall w,
     rowsum (MaxFlow.n mf0) (MaxFlow.capacity mf) w =
     rowsum (MaxFlow.n mf0) (MaxFlow.capacity mf0) w
     + (if decide (w = sink) then flow else 0)
     - (if decide (w = source) then flow else 0)).

(** A path of arcs with residual capacity: an augmenting path when it leads
    from the source to the sink. *)
Inductive residual_path (n : nat) (cap : list (list Z)) : nat -> nat -> Prop :=
  | residual_path_here x : residual_path n cap x x
  | residual_path_arc x y z :
      (x < n)%nat -> (y < n)%nat -> 0 < cell cap x y ->
      residual_path n cap y z -> residual_path n cap x z.

(** The capacity [cap] sends from the nodes in [X] to the nodes outside. *)
Definition cut_capacity (n : nat) (cap : list (list Z)) (X : nat -> bool) : Z :=
  sumZ (fun u => sumZ (fun v =>
    if X u && negb (X v) then cell cap u v else 0) n) n.

(** The capacity [cap] holds between the nodes in [X]. *)
Definition inner_capacity (n : nat) (cap : list (list Z)) (X : nat -> bool) : Z :=
  sumZ (fun u => sumZ (fun v =>
    if X u && X v then cell cap u v else 0) n) n.

(** ** The corridor map and the driver *)

(** The pairs the two loops of [buildCorridorNetwork] and of
    [getUsedCorridors] visit, in the order they visit them. *)
Definition all_pairs (n : nat) : list (nat * nat) :=
  flat_map (fun i => map (pair i) (seq (S i) (n - S i))) (seq 0 n).

(** One turn of the inner loop of [buildCorridorNetwork]. *)
Definition visit (maxDist : float) (w : WildlifeCorridorNetwork.t) (k : nat * nat)
    : WildlifeCorridorNetwork.t :=
  let capacity :=
    WildlifeCorridorNetwork.calculateCorridorCapacity w (fst k) (snd k) maxDist in
  if 0 <? capacity then WildlifeCorridorNetwork.set_corridor k capacity w else w.

(** The corridors of the pairs [ks] that the capacity rule finds feasible. *)
Definition feasible (maxDist : float) (w : WildlifeCorridorNetwork.t)
    (ks : list (nat * nat)) : list ((nat * nat) * Z) :=
  flat_map (fun k =>
    let capacity :=
      WildlifeCorridorNetwork.calculateCorridorCapacity w (fst k) (snd k) maxDist in
    if 0 <? capacity then [(k, capacity)] else []) ks.

(** The order of the keys of the corridor map. *)
Definition key_lt (a b : nat * nat) : Prop := key_ltb a b = true.


(** The corridor map as [buildCorridorNetwork] leaves it: keys in
    increasing order, each a pair [i < j] of habitats. *)
Definition corridors_ok (w : WildlifeCorridorNetwork.t) : Prop :=
  StronglySorted key_lt (map fst (WildlifeCorridorNetwork.corridorCapacity w)) /\
  forall i j c, In ((i, j), c) (WildlifeCorridorNetwork.corridorCapacity w) ->
    (i < j < WildlifeCorridorNetwork.numHabitats w)%nat.

(** The [addEdge] calls [solve] makes for the corridor map [m]. *)
Definition corridor_calls (m : list ((nat * nat) * Z)) : list (nat * nat * Z) :=
  flat_map (fun corridor =>
    [(fst (fst corridor), snd (fst corridor), snd corridor);
     (snd (fst corridor), fst (fst corridor), snd corridor)]) m.

(** In every state of a run of [solve], the two entries of the pair
    [{i, j}] add up to [total]. *)
Definition pair_sum_is (w : WildlifeCorridorNetwork.t) (i j : nat) (total : Z)
    : Prop :=
  forall k steps mf parent flow,
    maxflow_turns k steps (WildlifeCorridorNetwork.sourceHabitat w)
      (WildlifeCorridorNetwork.targetHabitat w)
      (WildlifeCorridorNetwork.network w) = Some (mf, parent, flow) ->
    cell (MaxFlow.capacity mf) i j + cell (MaxFlow.capacity mf) j i = total.

(** What [solve] promises of a call that returned [r] and left the network
    as [w1]: the network is unchanged, and every further call returns [r]
    again. *)
Definition solve_repeats (fuel : nat) (w : WildlifeCorridorNetwork.t)
    (r : Z * list ((nat * nat) * Z)) (w1 : WildlifeCorridorNetwork.t) : Prop :=
  w1 = w /\
  WildlifeCorridorNetwork.solve fuel w1 = Some (r, w) /\
  forall fuel' r' w',
    WildlifeCorridorNetwork.solve fuel' w1 = Some (r', w') -> r' = r /\ w' = w.

(** ** The capacity rule in exact arithmetic *)

(** The rational number a finite double stands for, in lowest terms. *)
Definition double_exact (x : float) : option Q :=
  match Prim2SF x with
  | S754_zero _ => Some 0%Q
  | S754_finite s m e =>
      let a := Qred (inject_Z (Z.pos m) * Qpower 2 e) in
      Some (if s then (- a)%Q else a)
  | S754_infinity _ | S754_nan => None
  end.


(** The capacity rule as its description writes it, in exact arithmetic, for
    a distance [d] and a threshold [maxDist]. *)
Definition capacity_rule_exact (d maxDist : Q) : Z :=
  if Qlt_le_dec maxDist d then 0
  else Z.max 1 (Qfloor (100 * (1 - d / maxDist) ^ 2)%Q).

(** ** Accumulated capacities, flows, reversed networks and the levels of [bfs] *)

(** The capacity the calls give the arc from [a] to [b]: the sum of the
    capacities of the calls [addEdge(a, b, _)]. *)
Fixpoint arc_total (a b : nat) (calls : list (nat * nat * Z)) : Z :=
  match calls with
  | [] => 0
  | call :: calls' =>
      if Nat.eqb (fst (fst call)) a && Nat.eqb (snd (fst call)) b
      then snd call + arc_total a b calls'
      else arc_total a b calls'
  end.

(** Both nodes of a call are nodes of an engine of [n] nodes. *)
Definition call_in_range (n : nat) (call : nat * nat * Z) : Prop :=
  (fst (fst call) < n)%nat /\ (snd (fst call) < n)%nat.

(** The calls fit [int]: every capacity is an [int], and so is every value
    that [capacity[a][b] += cap] leaves in the matrix, the sum of the
    capacities the calls made so far gave to the arc.  Otherwise an addition
    of [addEdge] overflows. *)
Definition calls_fit_int (calls : list (nat * nat * Z)) : Prop :=
  Forall (fun call => INT_MIN <= snd call <= INT_MAX) calls /\
  forall k a b, INT_MIN <= arc_total a b (take k calls) <= INT_MAX.

(** The flow on the arc from [u] to [v]: what its residual capacity has
    lost since the engine was built. *)
Definition net_flow (cap0 cap : list (list Z)) (u v : nat) : Z :=
  cell cap0 u v - cell cap u v.

(** The network [w] with source and target exchanged. *)
Definition reversed (w : WildlifeCorridorNetwork.t) : WildlifeCorridorNetwork.t :=
  WildlifeCorridorNetwork.mk (WildlifeCorridorNetwork.numHabitats w)
    (WildlifeCorridorNetwork.habitatLocations w)
    (WildlifeCorridorNetwork.corridorCapacity w)
    (WildlifeCorridorNetwork.targetHabitat w)
    (WildlifeCorridorNetwork.sourceHabitat w).

(** A walk of [k] arcs with residual capacity from one node to another. *)
Inductive residual_walk (n : nat) (cap : list (list Z)) : nat -> nat -> nat -> Prop :=
  | residual_walk_here x : residual_walk n cap x x 0
  | residual_walk_arc x y z k :
      (x < n)%nat -> (y < n)%nat -> 0 < cell cap x y ->
      residual_walk n cap y z k -> residual_walk n cap x z (S k).

(** [depth] gives, for every discovered node, the number of arcs of its
    chain to the source. *)
Definition measured (n source : nat) (parent : list Z) (depth : nat -> nat) : Prop :=
  forall v, (v < n)%nat -> parent !!! v <> -1 ->
    exists l, chain parent source v l /\ length l = S (depth v).

(** The nodes in [seen] have left the queue of [bfs]: every arc with
    residual capacity out of them leads to a discovered node, at most one
    level further. *)
Definition expanded (n : nat) (cap : list (list Z)) (parent : list Z)
    (depth : nat -> nat) (seen : nat -> Prop) : Prop :=
  forall x, seen x ->
    (x < n)%nat /\ parent !!! x <> -1 /\
    forall y, (y < n)%nat -> 0 < cell cap x y ->
      parent !!! y <> -1 /\ (depth y <= depth x + 1)%nat.

(** What [bfs] keeps while the node [u] is out of the queue [q] and its
    neighbours are visited: the queue holds the discovered nodes still to
    expand, in the order of their depth, none nearer to the source than [u]
    and none more than one level further. *)
Definition level_inv (mf : MaxFlow.t) (source u : nat) (parent : list Z)
    (q : list (nat * Z)) : Prop :=
  exists (depth : nat -> nat) (seen : nat -> Prop),
    length parent = MaxFlow.n mf /\
    (source < MaxFlow.n mf)%nat /\ parent !!! source = Z.of_nat source /\
    (u < MaxFlow.n mf)%nat /\ parent !!! u <> -1 /\
    measured (MaxFlow.n mf) source parent depth /\
    expanded (MaxFlow.n mf) (MaxFlow.capacity mf) parent depth seen /\
    (forall x, (x < MaxFlow.n mf)%nat -> parent !!! x <> -1 ->
       seen x \/ x = u \/ In x (map fst q)) /\
    (forall e, In e q ->
       (fst e < MaxFlow.n mf)%nat /\ parent !!! (fst e) <> -1 /\
       (depth u <= depth (fst e))%nat) /\
    StronglySorted (fun e e' => (depth (fst e) <= depth (fst e'))%nat) q /\
    (forall x, (x < MaxFlow.n mf)%nat -> parent !!! x <> -1 ->
       (depth x <= depth u + 1)%nat).

(** The chain [parent] records from [sink] is a shortest path: no walk over
    arcs with residual capacity leads from the source to the sink in fewer
    arcs. *)
Definition shortest (n : nat) (cap : list (list Z)) (source sink : nat)
    (parent : list Z) : Prop :=
  exists l, chain parent source sink l /\
    forall k, residual_walk n cap source sink k -> (length l <= S k)%nat.

(** ** Runs on the machine's integers *)

(** A sequence of [addEdge] calls, first call first, on the machine. *)
Definition add_edges_int (calls : list (nat * nat * Z)) (mf : MaxFlow.t) : MaxFlow.t :=
  fold_left (fun mf call =>
    MaxFlowInt.addEdge (fst (fst call)) (snd (fst call)) (snd call) mf) calls mf.

(** The engine, the [parent] vector and the flow after [k] turns of the
    loop of [maxflow] on the machine; [None] when the loop took fewer
    turns. *)
Fixpoint after_turns_int (k steps : nat) (mf : MaxFlow.t) (source sink : nat)
    (parent : list Z) (flow : Z) : option (MaxFlow.t * list Z * Z) :=
  match k with
  | O => Some (mf, parent, flow)
  | S k' =>
      match MaxFlowInt.augment steps mf source sink parent with
      | Some (inr (mf', path_flow, parent')) =>
          after_turns_int k' steps mf' source sink parent' (int_wrap (flow + path_flow))
      | _ => None
      end
  end.

Definition maxflow_turns_int (k steps : nat) (source sink : nat) (mf : MaxFlow.t)
    : option (MaxFlow.t * list Z * Z) :=
  after_turns_int k steps mf source sink (replicate (MaxFlow.n mf) 0) 0.

(** What the calls establish and every augmentation keeps on the machine,
    whatever overflows: the shape, adjacency lists that hold valid nodes
    and are symmetric, an adjacency entry wherever the matrix is not zero,
    and entries that are [int]s. *)
Record wf_int (mf : MaxFlow.t) : Prop := {
  wi_shaped : shaped mf;
  wi_adj : forall u v, In v (MaxFlow.adj mf !!! u) -> (v < MaxFlow.n mf)%nat;
  wi_covers : forall u v, (u < MaxFlow.n mf)%nat -> (v < MaxFlow.n mf)%nat ->
    cell (MaxFlow.capacity mf) u v <> 0 -> In v (MaxFlow.adj mf !!! u);
  wi_sym : forall u v, (u < MaxFlow.n mf)%nat -> (v < MaxFlow.n mf)%nat ->
    In v (MaxFlow.adj mf !!! u) -> In u (MaxFlow.adj mf !!! v);
  wi_range : forall u v, (u < MaxFlow.n mf)%nat -> (v < MaxFlow.n mf)%nat ->
    INT_MIN <= cell (MaxFlow.capacity mf) u v <= INT_MAX
}.

(** The engine with every negative entry replaced by 0: [bfs], which only
    asks whether an entry is positive, does not tell it from the engine
    itself. *)
Definition clamp (mf : MaxFlow.t) : MaxFlow.t :=
  MaxFlow.mk (MaxFlow.n mf) (map (map (Z.max 0)) (MaxFlow.capacity mf))
    (MaxFlow.adj mf).

(** The residual capacity that leaves the source. *)
Definition slack (mf : MaxFlow.t) (source : nat) : Z :=
  sumZ (fun v => Z.max 0 (cell (MaxFlow.capacity mf) source v)) (MaxFlow.n mf).

(** ** Inputs the examples run on *)

(** The six habitat patches of the example in [main], before
    [buildCorridorNetwork(35.0)]. *)
Definition main_network : WildlifeCorridorNetwork.t :=
  WildlifeCorridorNetwork.setHabitatLocation 5 60 50
  (WildlifeCorridorNetwork.setHabitatLocation 4 35 35
  (WildlifeCorridorNetwork.setHabitatLocation 3 40 15
  (WildlifeCorridorNetwork.setHabitatLocation 2 15 25
  (WildlifeCorridorNetwork.setHabitatLocation 1 20 10
  (WildlifeCorridorNetwork.setHabitatLocation 0 0 0
  (WildlifeCorridorNetwork.new 6 0 5)))))).

(** Two habitats 77 km apart and corridors of up to 100 km: the network
    of one corridor of capacity 5 between nodes 0 and 1, source 0, sink 1. *)
Definition two_node_network : WildlifeCorridorNetwork.t :=
  WildlifeCorridorNetwork.buildCorridorNetwork 100
    (WildlifeCorridorNetwork.setHabitatLocation 1 77 0
      (WildlifeCorridorNetwork.new 2 0 1)).

(** The same corridor and a third habitat 1000 km away, which is the sink:
    no corridor reaches it. *)
Definition cut_off_network : WildlifeCorridorNetwork.t :=
  WildlifeCorridorNetwork.buildCorridorNetwork 100
    (WildlifeCorridorNetwork.setHabitatLocation 2 1000 0
      (WildlifeCorridorNetwork.setHabitatLocation 1 77 0
        (WildlifeCorridorNetwork.new 3 0 2))).


(** Two habitats 8 km apart. *)
Definition eight_km_network : WildlifeCorridorNetwork.t :=
  WildlifeCorridorNetwork.setHabitatLocation 1 8 0
    (WildlifeCorridorNetwork.new 2 0 1).

(** The second scenario of the description: four nodes in a diamond. *)
Definition diamond_calls : list (nat * nat * Z) :=
  [(0%nat, 1%nat, 3); (0%nat, 2%nat, 2); (1%nat, 3%nat, 2); (2%nat, 3%nat, 3)].

(** Four arcs of the largest capacity an [int] holds, two ways from node 0
    to node 3: the flow, twice [INT_MAX], is not an [int]. *)
Definition overflow_diamond_calls : list (nat * nat * Z) :=
  [(0%nat, 1%nat, INT_MAX); (0%nat, 2%nat, INT_MAX);
   (1%nat, 3%nat, INT_MAX); (2%nat, 3%nat, INT_MAX)].

(** Two ways from node 0 to node 3, the second through an arc of capacity
    [c]: with [c = 1] the flow is [INT_MAX], with [c = 2] it is not an
    [int]. *)
Definition overflow_calls (c : Z) : list (nat * nat * Z) :=
  [(0%nat, 1%nat, 2147483646); (1%nat, 3%nat, INT_MAX);
   (0%nat, 2%nat, c); (2%nat, 3%nat, INT_MAX)].

(** An arc of [INT_MAX] and an arc of 1 against it. *)
Definition back_arc_calls : list (nat * nat * Z) :=
  [(0%nat, 1%nat, INT_MAX); (1%nat, 0%nat, 1)].

(** * Properties *)

(** ** Matrices *)

Lemma cell_set_cell m u v x a b :
  (u < length m)%nat -> (v < length (m !!! u))%nat ->
  cell (set_cell m u v x) a b =
    if decide (a = u /\ b = v) then x else cell m a b.
Proof.
  intros Hu Hv. unfold cell, set_cell.
  destruct (decide (a = u)) as [->|Hne].
  - rewrite list_lookup_total_insert_eq by done.
    destruct (decide (b = v)) as [->|Hne'].
    + rewrite list_lookup_total_insert_eq by done.
      destruct (decide _) as [|H]; [done | destruct H; done].
    + rewrite list_lookup_total_insert_ne by done.
      destruct (decide _) as [[_ ?]|]; done.
  - rewrite list_lookup_total_insert_ne by done.
    destruct (decide _) as [[? _]|]; done.
Qed.

Lemma square_set_cell n m u v x : square n m -> square n (set_cell m u v x).
Proof.
  intros [Hl Hr]. unfold set_cell. split.
  - by rewrite length_insert.
  - intros w Hw. destruct (decide (u = w)) as [->|Hne].
    + rewrite list_lookup_total_insert_eq by lia.
      rewrite length_insert. by apply Hr.
    + rewrite list_lookup_total_insert_ne by done. by apply Hr.
Qed.

Lemma cell_set_cell_sq n m u v x a b :
  square n m -> (u < n)%nat -> (v < n)%nat ->
  cell (set_cell m u v x) a b =
    if decide (a = u /\ b = v) then x else cell m a b.
Proof.
  intros [Hl Hr] Hu Hv. apply cell_set_cell; [lia | rewrite Hr; lia].
Qed.

Lemma square_new n : square n (replicate n (replicate n 0)).
Proof.
  split; [apply length_replicate |].
  intros u Hu. rewrite lookup_total_replicate_2 by done.
  apply length_replicate.
Qed.

Lemma cell_new n u v : (u < n)%nat -> (v < n)%nat -> cell (replicate n (replicate n 0)) u v = 0.
Proof.
  intros Hu Hv. unfold cell. by rewrite !lookup_total_replicate_2.
Qed.

(** ** [addEdge] *)

Lemma shaped_new n : shaped (MaxFlow.new n).
Proof. split; [apply square_new | apply length_replicate]. Qed.

Lemma length_push_adj a u v : length (MaxFlow.push_adj a u v) = length a.
Proof. unfold MaxFlow.push_adj. apply length_insert. Qed.

Lemma n_addEdge u v cap mf : MaxFlow.n (MaxFlow.addEdge u v cap mf) = MaxFlow.n mf.
Proof. reflexivity. Qed.

Lemma shaped_addEdge u v cap mf : shaped mf -> shaped (MaxFlow.addEdge u v cap mf).
Proof.
  intros [Hsq Hadj]. split; simpl.
  - by apply square_set_cell.
  - destruct (_ && _); [| done]. by rewrite !length_push_adj.
Qed.

Lemma cell_addEdge u v cap mf a b :
  shaped mf -> (u < MaxFlow.n mf)%nat -> (v < MaxFlow.n mf)%nat ->
  cell (MaxFlow.capacity (MaxFlow.addEdge u v cap mf)) a b =
    if decide (a = u /\ b = v)
    then cell (MaxFlow.capacity mf) u v + cap
    else cell (MaxFlow.capacity mf) a b.
Proof.
  intros [Hsq _] Hu Hv. simpl. by apply (cell_set_cell_sq (MaxFlow.n mf)).
Qed.

Lemma add_edges_snoc calls call mf :
  add_edges (calls ++ [call]) mf =
    MaxFlow.addEdge (fst (fst call)) (snd (fst call)) (snd call) (add_edges calls mf).
Proof. unfold add_edges. by rewrite fold_left_app. Qed.

Lemma n_add_edges calls mf : MaxFlow.n (add_edges calls mf) = MaxFlow.n mf.
Proof.
  induction calls as [|call calls IH] using rev_ind; [done |].
  by rewrite add_edges_snoc, n_addEdge.
Qed.

Lemma shaped_add_edges calls mf : shaped mf -> shaped (add_edges calls mf).
Proof.
  intros H. induction calls as [|call calls IH] using rev_ind; [done |].
  rewrite add_edges_snoc. by apply shaped_addEdge.
Qed.

Lemma arc_added_snoc a b calls call :
  arc_added a b (calls ++ [call]) =
    arc_added a b calls || (Nat.eqb (fst (fst call)) a && Nat.eqb (snd (fst call)) b).
Proof. unfold arc_added. rewrite existsb_app. simpl. by rewrite orb_false_r. Qed.

(** After calls with positive capacities an entry is zero exactly when its
    arc was never added. *)
Lemma add_edges_positive n calls a b :
  Forall (fun call => 0 < snd call /\ (fst (fst call) < n)%nat /\ (snd (fst call) < n)%nat) calls ->
  (a < n)%nat -> (b < n)%nat ->
  0 <= cell (MaxFlow.capacity (add_edges calls (MaxFlow.new n))) a b /\
  (cell (MaxFlow.capacity (add_edges calls (MaxFlow.new n))) a b = 0 <->
   arc_added a b calls = false).
Proof.
  intros Hall Ha Hb.
  induction calls as [|[[u v] cap] calls IH] using rev_ind.
  - simpl. rewrite cell_new by done. done.
  - apply Forall_app in Hall as [Hall Hlast].
    apply Forall_cons in Hlast as [(Hcap & Hu & Hv) _]. simpl in *.
    destruct (IH Hall) as [IH0 IHz].
    rewrite add_edges_snoc, arc_added_snoc. cbn [fst snd].
    rewrite cell_addEdge;
      [| by apply shaped_add_edges, shaped_new
       | by rewrite n_add_edges | by rewrite n_add_edges].
    destruct (decide (a = u /\ b = v)) as [[-> ->]|Hne].
    + rewrite !Nat.eqb_refl, orb_true_r. simpl. split; [lia |].
      split; [lia | done].
    + assert ((u =? a)%nat && (v =? b)%nat = false) as ->.
      { apply andb_false_iff.
        destruct (Nat.eqb_spec u a), (Nat.eqb_spec v b); auto.
        destruct Hne; auto. }
      by rewrite orb_false_r.
Qed.

Lemma existsb_connects u v calls :
  existsb (connects u v) calls = arc_added u v calls || arc_added v u calls.
Proof.
  unfold arc_added, connects. induction calls as [|c calls IH]; [done |].
  simpl. rewrite IH.
  destruct (_ && _), (_ && _), (existsb _ _), (existsb _ _); done.
Qed.

Lemma appended_push_adj a u v :
  (u < length a)%nat -> (v < length a)%nat -> u <> v ->
  appended a (MaxFlow.push_adj (MaxFlow.push_adj a u v) v u) u v.
Proof.
  intros Hu Hv Hne. unfold appended, MaxFlow.push_adj.
  repeat split.
  - by rewrite !length_insert.
  - rewrite list_lookup_total_insert_ne by done.
    by rewrite list_lookup_total_insert_eq.
  - rewrite list_lookup_total_insert_eq by (by rewrite length_insert).
    by rewrite list_lookup_total_insert_ne.
  - intros w Hwu Hwv. by rewrite !list_lookup_total_insert_ne.
Qed.

(** C4, as amended: after calls that all carry a positive capacity between
    two distinct valid nodes, and whose capacities fit [int] with this call
    (no arc is given more than [INT_MAX] in all), [addEdge(u, v, cap)]
    appends [v] to [adj[u]] and [u] to [adj[v]] when no earlier call
    connected [{u, v}] and leaves the adjacency lists alone otherwise; it
    adds [cap] to [capacity[u][v]] and leaves [capacity[v][u]] as it
    was. *)
Theorem addEdge_first_connection n calls u v cap :
  Forall (positive_call n) (calls ++ [(u, v, cap)]) ->
  calls_fit_int (calls ++ [(u, v, cap)]) ->
  addEdge_spec n calls u v cap.
Proof.
  intros Hall _. apply Forall_app in Hall as [Hall Hlast].
  apply Forall_cons in Hlast as [(Hcap & Hu & Hv & Hne) _]. simpl in *.
  assert (Forall (fun call => 0 < snd call /\ (fst (fst call) < n)%nat
                              /\ (snd (fst call) < n)%nat) calls) as Hall'.
  { eapply Forall_impl; [exact Hall |]. intros c (? & ? & ? & _). auto. }
  pose proof (shaped_add_edges calls _ (shaped_new n)) as Hsh.
  pose proof (n_add_edges calls (MaxFlow.new n)) as Hn. simpl in Hn.
  destruct (add_edges_positive n calls u v Hall' Hu Hv) as [_ Huv].
  destruct (add_edges_positive n calls v u Hall' Hv Hu) as [_ Hvu].
  unfold addEdge_spec. cbv zeta. rewrite existsb_connects.
  set (mf := add_edges calls (MaxFlow.new n)) in *.
  split; [| split; [| split]].
  - intros Hfirst. apply orb_false_iff in Hfirst as [H1 H2].
    simpl. apply Huv in H1. apply Hvu in H2. rewrite H1, H2. simpl.
    destruct Hsh as [_ Hadj]. apply appended_push_adj; [lia | lia | done].
  - intros Hnot. simpl.
    destruct (Z.eqb_spec (cell (MaxFlow.capacity mf) u v) 0) as [E1|]; [| done].
    destruct (Z.eqb_spec (cell (MaxFlow.capacity mf) v u) 0) as [E2|]; [| done].
    apply Huv in E1. apply Hvu in E2. rewrite E1, E2 in Hnot. done.
  - rewrite cell_addEdge by (done || lia).
    destruct (decide _) as [|H]; [done | destruct H; done].
  - rewrite cell_addEdge by (done || lia).
    destruct (decide _) as [[? ?]|]; [done | done].
Qed.

(** An instance: [addEdge(1, 0, 5)] after [addEdge(0, 1, 5)] and
    [addEdge(1, 2, 7)] on an engine of three nodes. *)
Lemma addEdge_first_connection_witness :
  addEdge_spec 3 [(0%nat, 1%nat, 5); (1%nat, 2%nat, 7)] 1 0 5.
Proof.
  apply addEdge_first_connection.
  - repeat (apply Forall_cons; split;
            [unfold positive_call; simpl; repeat split; lia |]).
    apply Forall_nil. done.
  - unfold calls_fit_int, INT_MIN, INT_MAX.
    split; [repeat constructor; simpl; lia |].
    intros k a b.
    do 4 (destruct k as [|k]; [simpl; repeat destruct (_ && _); lia |]).
    simpl; repeat destruct (_ && _); lia.
Defined.

(** C4, as stated, fails twice: a first call of capacity zero leaves both
    entries zero, so the second call on the same pair appends again; and a
    call on a node with itself changes [capacity[v][u]], which is the entry
    it adds to. *)
Lemma addEdge_first_connection_counterexample :
  ~ addEdge_spec 2 [(0%nat, 1%nat, 0)] 0 1 5 /\ ~ addEdge_spec 1 [] 0 0 5.
Proof.
  split.
  - intros (_ & Hsame & _). specialize (Hsame eq_refl).
    vm_compute in Hsame. discriminate.
  - intros (_ & _ & Hadd & Hkeep). vm_compute in Hkeep. discriminate.
Qed.

(** ** The corridor map and [buildCorridorNetwork] *)

Lemma key_lt_irrefl a : ~ key_lt a a.
Proof.
  unfold key_lt, key_ltb. rewrite Nat.ltb_irrefl, Nat.eqb_refl, Nat.ltb_irrefl.
  done.
Qed.

Lemma key_lt_asym a b : key_lt a b -> key_ltb b a = false.
Proof.
  unfold key_lt, key_ltb. destruct a as [a1 a2], b as [b1 b2]. simpl.
  destruct (Nat.ltb_spec a1 b1), (Nat.ltb_spec b1 a1), (Nat.eqb_spec a1 b1),
    (Nat.eqb_spec b1 a1), (Nat.ltb_spec a2 b2), (Nat.ltb_spec b2 a2);
    simpl; intros; (done || lia).
Qed.

Lemma key_lt_neq a b : key_lt a b -> key_eqb b a = false.
Proof.
  unfold key_lt, key_ltb, key_eqb. destruct a as [a1 a2], b as [b1 b2]. simpl.
  destruct (Nat.ltb_spec a1 b1), (Nat.eqb_spec a1 b1), (Nat.eqb_spec b1 a1),
    (Nat.ltb_spec a2 b2), (Nat.eqb_spec b2 a2);
    simpl; intros; (done || lia).
Qed.

(** Assigning a key greater than every key of the map appends it. *)
Lemma map_assign_last k x m :
  Forall (fun e => key_lt (fst e) k) m -> map_assign k x m = m ++ [(k, x)].
Proof.
  induction 1 as [|[k' x'] m Hk _ IH]; [done |].
  simpl in *. by rewrite (key_lt_neq _ _ Hk), (key_lt_asym _ _ Hk), IH.
Qed.

Lemma calculateCorridorCapacity_locations w w' h1 h2 maxDist :
  WildlifeCorridorNetwork.habitatLocations w' = WildlifeCorridorNetwork.habitatLocations w ->
  WildlifeCorridorNetwork.calculateCorridorCapacity w' h1 h2 maxDist =
  WildlifeCorridorNetwork.calculateCorridorCapacity w h1 h2 maxDist.
Proof.
  intros H. unfold WildlifeCorridorNetwork.calculateCorridorCapacity,
    WildlifeCorridorNetwork.distance. by rewrite H.
Qed.

(** [visit] writes the corridor map and nothing else. *)
Lemma visit_frame maxDist w k :
  let w' := visit maxDist w k in
  WildlifeCorridorNetwork.numHabitats w' = WildlifeCorridorNetwork.numHabitats w /\
  WildlifeCorridorNetwork.habitatLocations w' = WildlifeCorridorNetwork.habitatLocations w /\
  WildlifeCorridorNetwork.sourceHabitat w' = WildlifeCorridorNetwork.sourceHabitat w /\
  WildlifeCorridorNetwork.targetHabitat w' = WildlifeCorridorNetwork.targetHabitat w.
Proof. unfold visit. simpl. by destruct (0 <? _). Qed.

Lemma fold_visit_frame maxDist ks w :
  let w' := fold_left (visit maxDist) ks w in
  WildlifeCorridorNetwork.numHabitats w' = WildlifeCorridorNetwork.numHabitats w /\
  WildlifeCorridorNetwork.habitatLocations w' = WildlifeCorridorNetwork.habitatLocations w /\
  WildlifeCorridorNetwork.sourceHabitat w' = WildlifeCorridorNetwork.sourceHabitat w /\
  WildlifeCorridorNetwork.targetHabitat w' = WildlifeCorridorNetwork.targetHabitat w.
Proof.
  revert w. induction ks as [|k ks IH]; intros w; [done |].
  simpl. destruct (IH (visit maxDist w k)) as (-> & -> & -> & ->).
  apply visit_frame.
Qed.

(** The two nested loops visit [all_pairs] in order. *)
Lemma buildCorridorNetwork_fold maxDist w :
  WildlifeCorridorNetwork.buildCorridorNetwork maxDist w =
  fold_left (visit maxDist) (all_pairs (WildlifeCorridorNetwork.numHabitats w)) w.
Proof.
  unfold WildlifeCorridorNetwork.buildCorridorNetwork, all_pairs.
  generalize (seq 0 (WildlifeCorridorNetwork.numHabitats w)) as rows.
  set (n := WildlifeCorridorNetwork.numHabitats w).
  assert (WildlifeCorridorNetwork.numHabitats w = n) as Hn by done.
  clearbody n. revert w Hn.
  intros w Hn rows. revert w Hn.
  induction rows as [|i rows IH]; intros w Hn; [done |].
  simpl. rewrite fold_left_app.
  assert (forall js w0,
    fold_left (fun w1 j =>
      if 0 <? WildlifeCorridorNetwork.calculateCorridorCapacity w1 i j maxDist
      then WildlifeCorridorNetwork.set_corridor (i, j)
             (WildlifeCorridorNetwork.calculateCorridorCapacity w1 i j maxDist) w1
      else w1) js w0 = fold_left (visit maxDist) (map (pair i) js) w0) as Hin.
  { induction js as [|j js IHj]; intros w0; [done |]. simpl. by rewrite IHj. }
  rewrite Hn, Hin. apply IH.
  by destruct (fold_visit_frame maxDist (map (pair i) (seq (S i) (n - S i))) w) as [-> _].
Qed.

Lemma feasible_locations maxDist w w' ks :
  WildlifeCorridorNetwork.habitatLocations w' = WildlifeCorridorNetwork.habitatLocations w ->
  feasible maxDist w' ks = feasible maxDist w ks.
Proof.
  intros H. unfold feasible. apply flat_map_ext. intros k.
  by rewrite (calculateCorridorCapacity_locations _ _ _ _ _ H).
Qed.

(** Visiting keys in increasing order, all above the keys already in the
    map, appends the feasible ones. *)
Lemma fold_visit_sorted maxDist ks w :
  StronglySorted key_lt (map fst (WildlifeCorridorNetwork.corridorCapacity w) ++ ks) ->
  WildlifeCorridorNetwork.corridorCapacity (fold_left (visit maxDist) ks w) =
  WildlifeCorridorNetwork.corridorCapacity w ++ feasible maxDist w ks.
Proof.
  revert w. induction ks as [|k ks IH]; intros w Hs.
  - simpl. by rewrite app_nil_r.
  - simpl. destruct (visit_frame maxDist w k) as (_ & Hloc & _).
    apply StronglySorted_app in Hs as (Hlt & Hs1 & Hs2).
    apply StronglySorted_cons in Hs2 as [Hk Hs2].
    rewrite IH.
    + rewrite (feasible_locations _ _ _ _ Hloc). unfold visit.
      destruct (0 <? _); [| done]. simpl.
      rewrite map_assign_last, <- app_assoc; [done |].
      apply Forall_forall. intros e He. apply Hlt.
      * apply list_elem_of_In, in_map, list_elem_of_In, He.
      * left.
    + unfold visit. destruct (0 <? _).
      * simpl. rewrite map_assign_last.
        2:{ apply Forall_forall. intros e He. apply Hlt.
            - apply list_elem_of_In, in_map, list_elem_of_In, He.
            - left. }
        rewrite map_app, <- app_assoc. simpl.
        apply StronglySorted_app. split; [| split]; [| done |].
        -- intros x1 x2 H1 H2. by apply Hlt.
        -- by apply StronglySorted_cons.
      * apply StronglySorted_app. split; [| split]; [| done | done].
        intros x1 x2 H1 H2. apply Hlt; [done |]. by right.
Qed.

Lemma in_all_pairs n i j : In (i, j) (all_pairs n) <-> (i < j < n)%nat.
Proof.
  unfold all_pairs. rewrite in_flat_map. split.
  - intros (i' & Hi' & Hin). apply in_map_iff in Hin as (j' & Heq & Hj').
    inversion Heq; subst. apply in_seq in Hj'. lia.
  - intros [Hij Hjn]. exists i. split; [apply in_seq; lia |].
    apply in_map_iff. exists j. split; [done | apply in_seq; lia].
Qed.

Lemma sorted_row i a len :
  StronglySorted key_lt (map (pair i) (seq a len)).
Proof.
  revert a. induction len as [|len IH]; intros a; simpl; [constructor |].
  apply StronglySorted_cons. split; [| apply IH].
  apply Forall_forall. intros k Hk.
  apply list_elem_of_In, in_map_iff in Hk as (j & <- & Hj). apply in_seq in Hj.
  unfold key_lt, key_ltb. simpl. rewrite Nat.eqb_refl.
  destruct (Nat.ltb_spec a j); [| lia]. by rewrite orb_true_r.
Qed.

Lemma sorted_rows n a len :
  StronglySorted key_lt
    (flat_map (fun i => map (pair i) (seq (S i) (n - S i))) (seq a len)).
Proof.
  revert a. induction len as [|len IH]; intros a; simpl; [constructor |].
  apply StronglySorted_app. split; [| split; [apply sorted_row | apply IH]].
  intros x1 x2 H1 H2.
  apply list_elem_of_In, in_map_iff in H1 as (j & <- & Hj).
  apply list_elem_of_In, in_flat_map in H2 as (i' & Hi' & H2).
  apply in_map_iff in H2 as (j' & <- & Hj'). apply in_seq in Hi'.
  unfold key_lt, key_ltb. simpl.
  destruct (Nat.ltb_spec a i'); [done | lia].
Qed.

Lemma sorted_all_pairs n : StronglySorted key_lt (all_pairs n).
Proof. apply sorted_rows. Qed.

Lemma sorted_NoDup (l : list (nat * nat)) : StronglySorted key_lt l -> NoDup l.
Proof.
  induction 1 as [|k l _ IH Hk]; constructor; [| done].
  intros Hin. rewrite Forall_forall in Hk.
  apply (key_lt_irrefl k), Hk. done.
Qed.

Lemma calculateCorridorCapacity_pos w h1 h2 maxDist :
  0 < WildlifeCorridorNetwork.calculateCorridorCapacity w h1 h2 maxDist <->
  (maxDist <? WildlifeCorridorNetwork.distance w h1 h2)%float = false.
Proof.
  unfold WildlifeCorridorNetwork.calculateCorridorCapacity.
  destruct (maxDist <? _)%float; split; (done || lia).
Qed.

Lemma in_feasible maxDist w ks k c :
  In (k, c) (feasible maxDist w ks) <->
  In k ks /\
  (maxDist <? WildlifeCorridorNetwork.distance w (fst k) (snd k))%float = false /\
  c = WildlifeCorridorNetwork.calculateCorridorCapacity w (fst k) (snd k) maxDist.
Proof.
  unfold feasible. rewrite in_flat_map. split.
  - intros (k' & Hk' & Hin).
    destruct (Z.ltb_spec 0
      (WildlifeCorridorNetwork.calculateCorridorCapacity w (fst k') (snd k') maxDist))
      as [Hpos|]; [| done].
    destruct Hin as [Heq|[]]. inversion Heq; subst.
    by apply calculateCorridorCapacity_pos in Hpos.
  - intros (Hk & Hd & ->). exists k. split; [done |].
    apply calculateCorridorCapacity_pos in Hd.
    destruct (Z.ltb_spec 0
      (WildlifeCorridorNetwork.calculateCorridorCapacity w (fst k) (snd k) maxDist));
      [by left | lia].
Qed.

Lemma map_fst_feasible maxDist w ks :
  map fst (feasible maxDist w ks) =
  List.filter (fun k =>
    0 <? WildlifeCorridorNetwork.calculateCorridorCapacity w (fst k) (snd k) maxDist) ks.
Proof.
  unfold feasible. induction ks as [|k ks IH]; [done |]. simpl.
  rewrite map_app, IH. by destruct (0 <? _).
Qed.

Lemma sorted_filter (f : nat * nat -> bool) l :
  StronglySorted key_lt l -> StronglySorted key_lt (List.filter f l).
Proof.
  induction 1 as [|k l _ IH Hk]; simpl; [constructor |].
  destruct (f k); [| done]. constructor; [done |].
  rewrite Forall_forall in *. intros x Hx. apply Hk.
  apply list_elem_of_In. apply list_elem_of_In in Hx.
  apply filter_In in Hx. tauto.
Qed.

(** On a network whose corridor map is still empty the builder leaves the
    feasible pairs in the map, in the order of [all_pairs]. *)
Lemma build_corridors maxDist w :
  WildlifeCorridorNetwork.corridorCapacity w = [] ->
  WildlifeCorridorNetwork.corridorCapacity
    (WildlifeCorridorNetwork.buildCorridorNetwork maxDist w) =
  feasible maxDist w (all_pairs (WildlifeCorridorNetwork.numHabitats w)).
Proof.
  intros Hempty. rewrite buildCorridorNetwork_fold, fold_visit_sorted.
  - by rewrite Hempty.
  - rewrite Hempty. apply sorted_all_pairs.
Qed.







(** ** Fuel: a loop that returns with some fuel returns the same with more *)

Lemma bfs_while_fuel fuel fuel' mf sink parent q r :
  (fuel <= fuel')%nat ->
  MaxFlow.bfs_while fuel mf sink parent q = Some r ->
  MaxFlow.bfs_while fuel' mf sink parent q = Some r.
Proof.
  revert fuel' parent q. induction fuel as [|fuel IH]; intros fuel' parent q Hle; [done |].
  destruct fuel' as [|fuel']; [lia |]. simpl.
  destruct q as [|[u flow] q]; [done |].
  destruct (MaxFlow.bfs_for _ _ _ _ _ _ _) as [[[] parent'] q'']; [done |].
  apply IH. lia.
Qed.

Lemma bfs_fuel fuel fuel' mf source sink parent r :
  (fuel <= fuel')%nat ->
  MaxFlow.bfs fuel mf source sink parent = Some r ->
  MaxFlow.bfs fuel' mf source sink parent = Some r.
Proof. unfold MaxFlow.bfs. apply bfs_while_fuel. Qed.

Lemma path_min_fuel fuel fuel' cap parent source v path_flow r :
  (fuel <= fuel')%nat ->
  MaxFlow.path_min fuel cap parent source v path_flow = Some r ->
  MaxFlow.path_min fuel' cap parent source v path_flow = Some r.
Proof.
  revert fuel' v path_flow.
  induction fuel as [|fuel IH]; intros fuel' v path_flow Hle.
  - simpl. destruct (Nat.eqb v source) eqn:E; [| done].
    destruct fuel'; simpl; by rewrite E.
  - destruct fuel' as [|fuel']; [lia |]. simpl.
    destruct (Nat.eqb v source); [done |]. apply IH. lia.
Qed.

Lemma path_update_fuel fuel fuel' cap parent source v path_flow r :
  (fuel <= fuel')%nat ->
  MaxFlow.path_update fuel cap parent source v path_flow = Some r ->
  MaxFlow.path_update fuel' cap parent source v path_flow = Some r.
Proof.
  revert fuel' v cap.
  induction fuel as [|fuel IH]; intros fuel' v cap Hle.
  - simpl. destruct (Nat.eqb v source) eqn:E; [| done].
    destruct fuel'; simpl; by rewrite E.
  - destruct fuel' as [|fuel']; [lia |]. simpl.
    destruct (Nat.eqb v source); [done |]. apply IH. lia.
Qed.

Lemma augment_fuel fuel fuel' mf source sink parent r :
  (fuel <= fuel')%nat ->
  MaxFlow.augment fuel mf source sink parent = Some r ->
  MaxFlow.augment fuel' mf source sink parent = Some r.
Proof.
  intros Hle. unfold MaxFlow.augment.
  destruct (MaxFlow.bfs fuel _ _ _ _) as [[found parent']|] eqn:Hbfs; [| done].
  rewrite (bfs_fuel _ _ _ _ _ _ _ Hle Hbfs).
  destruct found; [| done].
  destruct (MaxFlow.path_min fuel _ _ _ _ _) as [pf|] eqn:Hmin; [| done].
  rewrite (path_min_fuel _ _ _ _ _ _ _ _ Hle Hmin).
  destruct (MaxFlow.path_update fuel _ _ _ _ _) as [cap'|] eqn:Hupd; [| done].
  by rewrite (path_update_fuel _ _ _ _ _ _ _ _ Hle Hupd).
Qed.

Lemma maxflow_while_fuel fuel fuel' steps steps' mf source sink parent flow r :
  (fuel <= fuel')%nat -> (steps <= steps')%nat ->
  MaxFlow.maxflow_while fuel steps mf source sink parent flow = Some r ->
  MaxFlow.maxflow_while fuel' steps' mf source sink parent flow = Some r.
Proof.
  intros Hle Hsteps. revert fuel' Hle mf parent flow.
  induction fuel as [|fuel IH]; intros fuel' Hle mf parent flow; [done |].
  destruct fuel' as [|fuel']; [lia |]. simpl.
  destruct (MaxFlow.augment steps _ _ _ _) as [res|] eqn:Haug; [| done].
  rewrite (augment_fuel _ _ _ _ _ _ _ Hsteps Haug).
  destruct res as [|[[mf' pf] parent']]; [done |]. apply IH. lia.
Qed.

Lemma maxflow_fuel fuel fuel' source sink mf r :
  (fuel <= fuel')%nat ->
  MaxFlow.maxflow fuel source sink mf = Some r ->
  MaxFlow.maxflow fuel' source sink mf = Some r.
Proof. intros Hle. unfold MaxFlow.maxflow. by apply maxflow_while_fuel. Qed.

(** The result of [maxflow] does not depend on the fuel that produced it. *)
Lemma maxflow_fuel_irrelevant fuel1 fuel2 source sink mf r1 r2 :
  MaxFlow.maxflow fuel1 source sink mf = Some r1 ->
  MaxFlow.maxflow fuel2 source sink mf = Some r2 ->
  r1 = r2.
Proof.
  intros H1 H2.
  apply (maxflow_fuel _ (Nat.max fuel1 fuel2)) in H1; [| lia].
  apply (maxflow_fuel _ (Nat.max fuel1 fuel2)) in H2; [| lia].
  congruence.
Qed.

Lemma path_update_int_fuel fuel fuel' cap parent source v path_flow r :
  (fuel <= fuel')%nat ->
  MaxFlowInt.path_update fuel cap parent source v path_flow = Some r ->
  MaxFlowInt.path_update fuel' cap parent source v path_flow = Some r.
Proof.
  revert fuel' v cap.
  induction fuel as [|fuel IH]; intros fuel' v cap Hle.
  - simpl. destruct (Nat.eqb v source) eqn:E; [| done].
    destruct fuel'; simpl; by rewrite E.
  - destruct fuel' as [|fuel']; [lia |]. simpl.
    destruct (Nat.eqb v source); [done |]. apply IH. lia.
Qed.

Lemma augment_int_fuel fuel fuel' mf source sink parent r :
  (fuel <= fuel')%nat ->
  MaxFlowInt.augment fuel mf source sink parent = Some r ->
  MaxFlowInt.augment fuel' mf source sink parent = Some r.
Proof.
  intros Hle. unfold MaxFlowInt.augment.
  destruct (MaxFlow.bfs fuel _ _ _ _) as [[found parent']|] eqn:Hbfs; [| done].
  rewrite (bfs_fuel _ _ _ _ _ _ _ Hle Hbfs).
  destruct found; [| done].
  destruct (MaxFlow.path_min fuel _ _ _ _ _) as [pf|] eqn:Hmin; [| done].
  rewrite (path_min_fuel _ _ _ _ _ _ _ _ Hle Hmin).
  destruct (MaxFlowInt.path_update fuel _ _ _ _ _) as [cap'|] eqn:Hupd; [| done].
  by rewrite (path_update_int_fuel _ _ _ _ _ _ _ _ Hle Hupd).
Qed.

Lemma maxflow_while_int_fuel fuel fuel' steps steps' mf source sink parent flow r :
  (fuel <= fuel')%nat -> (steps <= steps')%nat ->
  MaxFlowInt.maxflow_while fuel steps mf source sink parent flow = Some r ->
  MaxFlowInt.maxflow_while fuel' steps' mf source sink parent flow = Some r.
Proof.
  intros Hle Hsteps. revert fuel' Hle mf parent flow.
  induction fuel as [|fuel IH]; intros fuel' Hle mf parent flow; [done |].
  destruct fuel' as [|fuel']; [lia |]. simpl.
  destruct (MaxFlowInt.augment steps _ _ _ _) as [res|] eqn:Haug; [| done].
  rewrite (augment_int_fuel _ _ _ _ _ _ _ Hsteps Haug).
  destruct res as [|[[mf' pf] parent']]; [done |]. apply IH. lia.
Qed.

Lemma maxflow_int_fuel fuel fuel' source sink mf r :
  (fuel <= fuel')%nat ->
  MaxFlowInt.maxflow fuel source sink mf = Some r ->
  MaxFlowInt.maxflow fuel' source sink mf = Some r.
Proof. intros Hle. unfold MaxFlowInt.maxflow. by apply maxflow_while_int_fuel. Qed.

Lemma solve_fuel fuel fuel' w r :
  (fuel <= fuel')%nat ->
  WildlifeCorridorNetwork.solve fuel w = Some r ->
  WildlifeCorridorNetwork.solve fuel' w = Some r.
Proof.
  intros Hle. unfold WildlifeCorridorNetwork.solve.
  destruct (MaxFlow.maxflow fuel _ _ _) as [[f mf]|] eqn:Hmf; [| done].
  by rewrite (maxflow_fuel _ _ _ _ _ _ Hle Hmf).
Qed.

(** ** The reduction driver *)

(** C10: [solve] leaves the network object as it found it, so a second
    call returns what the first returned, whatever fuel it is given. *)
Theorem solve_twice fuel w r w1 :
  WildlifeCorridorNetwork.solve fuel w = Some (r, w1) -> solve_repeats fuel w r w1.
Proof.
  intros H1.
  assert (w1 = w) as ->.
  { unfold WildlifeCorridorNetwork.solve in H1.
    destruct (MaxFlow.maxflow _ _ _ _) as [[f mf]|]; [| done]. congruence. }
  split; [done |]. split; [done |].
  intros fuel' r' w' H2.
  apply (solve_fuel _ (Nat.max fuel fuel')) in H1; [| lia].
  apply (solve_fuel _ (Nat.max fuel fuel')) in H2; [| lia].
  split; congruence.
Qed.

Example two_node_corridors :
  WildlifeCorridorNetwork.corridorCapacity two_node_network = [((0, 1)%nat, 5)].
Proof. vm_compute. reflexivity. Qed.

(** A second [solve] on the two-node network repeats the first. *)
Lemma solve_twice_witness :
  solve_repeats 3 two_node_network (5, [((0, 1)%nat, 10)]) two_node_network.
Proof. apply solve_twice. vm_compute. reflexivity. Defined.

(** C2, evaluated: on the two-node network with one corridor of capacity 5
    the pipeline returns the flow 5 and the used-edge list [(0,1,10)].
    [solve] adds the corridor in both directions, so [capacity[1][0]]
    starts at 5, not at 0, and holds 5 + 5 after the flow is pushed. *)
Theorem two_node_pipeline :
  WildlifeCorridorNetwork.solve 3 two_node_network =
    Some ((5, [((0, 1)%nat, 10)]), two_node_network).
Proof. vm_compute. reflexivity. Qed.

(** C7, evaluated: the sink of [cut_off_network] is on no corridor, every
    entry of its row and of its column is zero, and [solve] returns the
    flow 0; the used-edge list still names the corridor between 0 and 1,
    because [capacity[1][0]] holds the capacity [solve] gave the direction
    from 1 to 0. *)
Theorem cut_off_pipeline :
  MaxFlow.capacity (WildlifeCorridorNetwork.network cut_off_network) =
    [[0; 5; 0]; [5; 0; 0]; [0; 0; 0]] /\
  WildlifeCorridorNetwork.solve 4 cut_off_network =
    Some ((0, [((0, 1)%nat, 5)]), cut_off_network).
Proof. split; vm_compute; reflexivity. Qed.

(** ** The capacity rule *)

(** C3, as amended: the rule returns 0 exactly when the double-precision
    distance compares greater than [maxDist]; otherwise it returns the
    larger of 1 and the truncation of the double-precision product
    (100 * n) * n, where n is the double 1 - dist / maxDist, and that is at
    least 1. *)
Theorem capacity_rule_double w h1 h2 maxDist :
  let dist := WildlifeCorridorNetwork.distance w h1 h2 in
  let normalized := (1 - dist / maxDist)%float in
  let result := WildlifeCorridorNetwork.calculateCorridorCapacity w h1 h2 maxDist in
  (result = 0 <-> (maxDist <? dist)%float = true) /\
  ((maxDist <? dist)%float = false ->
     result = Z.max 1 (double_to_int (100 * normalized * normalized)%float) /\
     1 <= result).
Proof.
  cbv zeta. unfold WildlifeCorridorNetwork.calculateCorridorCapacity.
  destruct (maxDist <? _)%float.
  - split; [done |]. discriminate.
  - split; [split; [lia | discriminate] |]. intros _. split; [done | lia].
Qed.

(** C3, as stated, fails for two habitats 8 km apart and a threshold of
    10 km.  The distance is the double 8 and is exact.  8/10 is no double:
    the quotient rounds to 0.8000000000000000444, so [normalized] is
    0.19999999999999995559, the product (100 * n) * n rounds to
    3.9999999999999982 and the cast truncates it to 3, where the rule in
    exact arithmetic gives floor(100 * 0.04) = 4. *)
Lemma capacity_rule_counterexample :
  double_exact (WildlifeCorridorNetwork.distance eight_km_network 0 1) = Some 8%Q /\
  double_exact 10 = Some 10%Q /\
  WildlifeCorridorNetwork.calculateCorridorCapacity eight_km_network 0 1 10 = 3 /\
  capacity_rule_exact 8 10 = 4 /\
  WildlifeCorridorNetwork.calculateCorridorCapacity eight_km_network 0 1 10 <>
    capacity_rule_exact 8 10.
Proof. repeat split; vm_compute; (reflexivity || discriminate). Qed.

(** ** Sums over the nodes *)

Lemma sumZ_ext f g n :
  (forall i, (i < n)%nat -> f i = g i) -> sumZ f n = sumZ g n.
Proof.
  induction n as [|n IH]; intros H; [done |]. simpl.
  rewrite IH, H; [done | lia |]. intros i Hi. apply H. lia.
Qed.

Lemma sumZ_add f g n : sumZ (fun i => f i + g i) n = sumZ f n + sumZ g n.
Proof. induction n as [|n IH]; simpl; lia. Qed.

Lemma sumZ_sub f g n : sumZ (fun i => f i - g i) n = sumZ f n - sumZ g n.
Proof. induction n as [|n IH]; simpl; lia. Qed.

Lemma sumZ_zero n : sumZ (fun _ => 0) n = 0.
Proof. induction n as [|n IH]; simpl; lia. Qed.

Lemma sumZ_nonneg f n : (forall i, (i < n)%nat -> 0 <= f i) -> 0 <= sumZ f n.
Proof.
  induction n as [|n IH]; intros H; simpl; [lia |].
  specialize (H n ltac:(lia)) as Hn.
  assert (0 <= sumZ f n) by (apply IH; intros i Hi; apply H; lia). lia.
Qed.


(** A sum all of whose terms but the [k]-th are zero. *)
Lemma sumZ_single f k n :
  (k < n)%nat -> (forall i, (i < n)%nat -> i <> k -> f i = 0) -> sumZ f n = f k.
Proof.
  induction n as [|n IH]; intros Hk H; [lia |]. simpl.
  destruct (decide (k = n)) as [->|Hne].
  - rewrite (sumZ_ext f (fun _ => 0)), sumZ_zero; [lia |].
    intros i Hi. apply H; lia.
  - rewrite IH, (H n); [lia | lia | done | lia |].
    intros i Hi Hik. apply H; [lia | done].
Qed.

Lemma sumZ_swap (f : nat -> nat -> Z) n m :
  sumZ (fun i => sumZ (fun j => f i j) m) n =
  sumZ (fun j => sumZ (fun i => f i j) n) m.
Proof.
  induction n as [|n IH]; simpl.
  - by rewrite sumZ_zero.
  - by rewrite IH, <- sumZ_add.
Qed.

(** ** Writing one entry *)

Lemma set_cell_cell n m u v x a b :
  square n m ->
  cell (set_cell m u v x) a b =
    if decide (a = u /\ b = v /\ (u < n)%nat /\ (v < n)%nat) then x else cell m a b.
Proof.
  intros [Hl Hr]. unfold cell, set_cell.
  rewrite list_lookup_total_insert.
  destruct (decide (u = a /\ (u < length m)%nat)) as [[-> Hu]|Hn1].
  - rewrite list_lookup_total_insert.
    rewrite Hr by lia.
    destruct (decide (v = b /\ (v < n)%nat)) as [[-> Hv]|Hn2].
    + destruct (decide _) as [|Hn]; [done |]. destruct Hn. repeat split; (done || lia).
    + destruct (decide _) as [(_ & -> & _ & ?)|]; [| done]. destruct Hn2. done.
  - destruct (decide _) as [(-> & _ & ? & _)|]; [| done]. destruct Hn1. split; [done | lia].
Qed.

Lemma rowsum_set_cell n m u v x w :
  square n m -> (u < n)%nat -> (v < n)%nat ->
  rowsum n (set_cell m u v x) w =
    rowsum n m w + (if decide (w = u) then x - cell m u v else 0).
Proof.
  intros Hsq Hu Hv. unfold rowsum.
  destruct (decide (w = u)) as [->|Hne].
  - rewrite (sumZ_ext _ (fun b => cell m u b +
               (if decide (b = v) then x - cell m u v else 0))).
    + rewrite sumZ_add. f_equal.
      rewrite (sumZ_single _ v); [| done |].
      * by destruct (decide (v = v)).
      * intros i _ Hi. by destruct (decide (i = v)).
    + intros b Hb. rewrite (set_cell_cell n) by done.
      destruct (decide (b = v)) as [->|Hbv].
      * destruct (decide _) as [|Hn]; [lia |]. destruct Hn. done.
      * destruct (decide _) as [(_ & ? & _)|]; [done | lia].
  - rewrite Z.add_0_r. apply sumZ_ext. intros b Hb.
    rewrite (set_cell_cell n) by done.
    destruct (decide _) as [(? & _)|]; done.
Qed.

(** ** Pushing flow along one arc *)

Lemma square_push_arc n cap u v pf : square n cap -> square n (push_arc cap u v pf).
Proof. intros H. unfold push_arc. by do 2 apply square_set_cell. Qed.

Lemma cell_push_arc n cap u v pf a b :
  square n cap ->
  cell (push_arc cap u v pf) a b =
    cell cap a b
    + (if decide (a = v /\ b = u /\ (u < n)%nat /\ (v < n)%nat) then pf else 0)
    - (if decide (a = u /\ b = v /\ (u < n)%nat /\ (v < n)%nat) then pf else 0).
Proof.
  intros Hsq. unfold push_arc.
  pose proof (square_set_cell n cap u v (cell cap u v - pf) Hsq) as Hsq1.
  rewrite (set_cell_cell n) by done.
  rewrite !(set_cell_cell n) by done.
  repeat destruct (decide _); try lia;
    repeat match goal with
           | H : _ /\ _ |- _ => destruct H
           | H : ~ (_ /\ _) |- _ => destruct H; repeat split; (done || lia)
           end; try (subst; lia).
Qed.

Lemma pair_sum_push_arc n cap u v pf a b :
  square n cap ->
  cell (push_arc cap u v pf) a b + cell (push_arc cap u v pf) b a =
  cell cap a b + cell cap b a.
Proof.
  intros Hsq. rewrite !(cell_push_arc n) by done.
  repeat destruct (decide _); try lia;
    repeat match goal with
           | H : _ /\ _ |- _ => destruct H
           end; subst;
    repeat match goal with
           | H : ~ (_ /\ _) |- _ => destruct H; repeat split; (done || lia)
           end.
Qed.

Lemma rowsum_push_arc n cap u v pf w :
  square n cap -> (u < n)%nat -> (v < n)%nat ->
  rowsum n (push_arc cap u v pf) w =
    rowsum n cap w + (if decide (w = v) then pf else 0)
                   - (if decide (w = u) then pf else 0).
Proof.
  intros Hsq Hu Hv. unfold rowsum.
  rewrite (sumZ_ext _ (fun b =>
    cell cap w b
    + (if decide (b = u) then (if decide (w = v) then pf else 0) else 0)
    - (if decide (b = v) then (if decide (w = u) then pf else 0) else 0))).
  - rewrite sumZ_sub, sumZ_add.
    assert (forall k x, (k < n)%nat ->
      sumZ (fun b => if decide (b = k) then x else 0) n = x) as Hone.
    { intros k x Hk. rewrite (sumZ_single _ k); [| done |].
      - by destruct (decide (k = k)).
      - intros i _ Hi. by destruct (decide (i = k)). }
    by rewrite !Hone.
  - intros b Hb. rewrite (cell_push_arc n) by done.
    repeat destruct (decide _); try lia;
      repeat match goal with
             | H : _ /\ _ |- _ => destruct H
             end; subst;
      repeat match goal with
             | H : ~ (_ /\ _) |- _ => destruct H; repeat split; (done || lia)
             end; try done.
Qed.

(** The second loop of [maxflow] keeps the matrix square and the sum of
    the two entries of every pair, wherever [parent] leads it. *)
Lemma path_update_pair_sum n fuel cap parent source v pf cap' :
  square n cap ->
  MaxFlow.path_update fuel cap parent source v pf = Some cap' ->
  square n cap' /\
  forall a b, cell cap' a b + cell cap' b a = cell cap a b + cell cap b a.
Proof.
  revert cap v. induction fuel as [|fuel IH]; intros cap v Hsq; simpl.
  - destruct (Nat.eqb v source); [| done]. intros [= <-]. done.
  - destruct (Nat.eqb v source); [intros [= <-]; done |].
    intros Hupd. apply IH in Hupd as [Hsq' Hsum].
    + split; [done |]. intros a b. rewrite Hsum.
      apply (pair_sum_push_arc n). done.
    + apply (square_push_arc n _ _ _ _ Hsq).
Qed.

(** ** The path recorded in [parent] *)

Lemma chain_head parent source v l :
  chain parent source v l -> exists l', l = v :: l'.
Proof. destruct 1; eauto. Qed.

Lemma arcs_nodes l x y : In (x, y) (arcs l) -> In x l /\ In y l.
Proof.
  induction l as [|v l IH]; [done |]. simpl.
  destruct l as [|u l]; [done |].
  intros [[= <- <-]|Hin].
  - split; [right; left | left]; done.
  - destruct (IH Hin). split; right; done.
Qed.

(** A chain survives a write to [parent] outside it. *)
Lemma chain_insert parent source v l w x :
  chain parent source v l -> ~ In w l -> chain (<[w := x]> parent) source v l.
Proof.
  induction 1 as [|v u l Hv Hp Hc IH]; intros Hw; [constructor |].
  apply (chain_step _ _ v u); [done | | ].
  - rewrite list_lookup_total_insert_ne; [done |].
    intros ->. apply Hw. by left.
  - apply IH. intros Hin. apply Hw. by right.
Qed.

(** Every node of a chain has left the undiscovered state. *)
Lemma chain_discovered parent source v l x :
  parent !!! source = Z.of_nat source ->
  chain parent source v l -> In x l -> parent !!! x <> -1.
Proof.
  intros Hs. induction 1 as [|v u l Hv Hp Hc IH].
  - intros [<-|[]]. lia.
  - intros [<-|Hin]; [lia | by apply IH].
Qed.

(** The first loop of [maxflow] on a chain: it returns, and what it returns
    is at most every residual capacity on the path. *)
Lemma path_min_chain fuel cap parent source v l pf0 :
  chain parent source v l -> (length l <= S fuel)%nat ->
  exists r,
    MaxFlow.path_min fuel cap parent source v pf0 = Some r /\
    r <= pf0 /\
    Forall (fun a => r <= cell cap (fst a) (snd a)) (arcs l) /\
    (0 < pf0 -> Forall (fun a => 0 < cell cap (fst a) (snd a)) (arcs l) -> 0 < r).
Proof.
  intros Hc. revert fuel pf0.
  induction Hc as [|v u l Hv Hp Hc IH]; intros fuel pf0 Hlen.
  - exists pf0. destruct fuel; simpl; rewrite Nat.eqb_refl;
      (split; [done |]; split; [lia |]; split; [constructor | done]).
  - destruct (chain_head _ _ _ _ Hc) as [l' ->].
    destruct fuel as [|fuel]; [simpl in Hlen; lia |].
    simpl MaxFlow.path_min.
    destruct (Nat.eqb_spec v source) as [|_]; [done |].
    rewrite Hp, Nat2Z.id.
    destruct (IH fuel (Z.min pf0 (cell cap u v))) as (r & Hr & Hle & Harcs & Hpos).
    { simpl in *. lia. }
    exists r. split; [done |]. split; [lia |]. split.
    + simpl. constructor; [simpl; lia | done].
    + intros H0 Hall. simpl in Hall. apply Forall_cons in Hall as [Huv Hall].
      simpl in Huv. apply Hpos; [lia | done].
Qed.

(** The second loop of [maxflow] on a chain: it returns a square matrix, and
    the sum of a row changes only at the two ends of the path. *)
Lemma path_update_chain n fuel cap parent source v l pf :
  chain parent source v l -> (length l <= S fuel)%nat ->
  Forall (fun x => (x < n)%nat) l -> square n cap ->
  exists cap',
    MaxFlow.path_update fuel cap parent source v pf = Some cap' /\
    square n cap' /\
    forall w, rowsum n cap' w =
      rowsum n cap w + (if decide (w = v) then pf else 0)
                     - (if decide (w = source) then pf else 0).
Proof.
  intros Hc. revert fuel cap.
  induction Hc as [|v u l Hv Hp Hc IH]; intros fuel cap Hlen Hn Hsq.
  - exists cap. destruct fuel; simpl; rewrite Nat.eqb_refl;
      (split; [done |]; split; [done |]; intros w; destruct (decide _); lia).
  - destruct (chain_head _ _ _ _ Hc) as [l' ->].
    destruct fuel as [|fuel]; [simpl in Hlen; lia |].
    simpl MaxFlow.path_update.
    destruct (Nat.eqb_spec v source) as [|_]; [done |].
    rewrite Hp, Nat2Z.id.
    apply Forall_cons in Hn as [Hvn Hn].
    pose proof Hn as Hn'. apply Forall_cons in Hn' as [Hun _].
    change (set_cell (set_cell cap u v (cell cap u v - pf)) v u
              (cell (set_cell cap u v (cell cap u v - pf)) v u + pf))
      with (push_arc cap u v pf).
    destruct (IH fuel (push_arc cap u v pf)) as (cap' & Hupd & Hsq' & Hrow).
    { simpl in *. lia. } { done. } { by apply square_push_arc. }
    exists cap'. split; [done |]. split; [done |].
    intros w. rewrite Hrow, (rowsum_push_arc n) by done.
    repeat destruct (decide _); lia.
Qed.

(** With a bottleneck no larger than the residual capacity of any arc of a
    path that meets no node twice, the second loop leaves no entry
    negative. *)
Lemma path_update_nonneg n fuel cap parent source v l pf cap' :
  chain parent source v l -> NoDup l -> square n cap -> 0 <= pf ->
  Forall (fun a => pf <= cell cap (fst a) (snd a)) (arcs l) ->
  (forall a b, (a < n)%nat -> (b < n)%nat -> 0 <= cell cap a b) ->
  MaxFlow.path_update fuel cap parent source v pf = Some cap' ->
  forall a b, (a < n)%nat -> (b < n)%nat -> 0 <= cell cap' a b.
Proof.
  intros Hc. revert fuel cap.
  induction Hc as [|v u l Hv Hp Hc IH]; intros fuel cap Hnd Hsq Hpf Harcs Hpos.
  - destruct fuel; simpl; rewrite Nat.eqb_refl; intros [= <-]; done.
  - destruct (chain_head _ _ _ _ Hc) as [l' ->].
    destruct fuel as [|fuel]; simpl MaxFlow.path_update;
      (destruct (Nat.eqb_spec v source) as [|_]; [done |]); [done |].
    rewrite Hp, Nat2Z.id.
    change (set_cell (set_cell cap u v (cell cap u v - pf)) v u
              (cell (set_cell cap u v (cell cap u v - pf)) v u + pf))
      with (push_arc cap u v pf).
    apply NoDup_cons in Hnd as [Hvl Hnd].
    simpl in Harcs. apply Forall_cons in Harcs as [Huv Harcs]. simpl in Huv.
    apply IH; [done | by apply square_push_arc | done | |].
    + rewrite Forall_forall in *. intros [x y] Hxy. simpl.
      specialize (Harcs _ Hxy). simpl in Harcs.
      apply list_elem_of_In, arcs_nodes in Hxy as [Hx Hy].
      rewrite (cell_push_arc n) by done.
      destruct (decide (x = u /\ y = v /\ _)) as [(_ & -> & _)|_].
      * destruct Hvl. by apply list_elem_of_In.
      * destruct (decide _); lia.
    + intros a b Ha Hb. rewrite (cell_push_arc n) by done.
      specialize (Hpos a b Ha Hb).
      destruct (decide (a = u /\ b = v /\ _)) as [(-> & -> & _)|_];
        destruct (decide _); lia.
Qed.

(** ** Breadth-first search *)

Lemma pending_insert (parent : list Z) (v : nat) (x : Z) :
  (v < length parent)%nat -> parent !!! v = -1 -> x <> -1 ->
  S (pending (<[v := x]> parent)) = pending parent.
Proof.
  revert v. induction parent as [|y parent IH]; intros v Hv Hpv Hx; simpl in *; [lia |].
  destruct v as [|v]; simpl in *.
  - subst y. simpl. destruct (Z.eqb_spec x (-1)); [done | lia].
  - rewrite <- (IH v); [| lia | done | done]. by destruct (y =? -1).
Qed.

Lemma grows_refl parent : grows parent parent.
Proof. split; done. Qed.

Lemma grows_trans p1 p2 p3 : grows p1 p2 -> grows p2 p3 -> grows p1 p3.
Proof.
  intros [Hl1 H1] [Hl2 H2]. split; [congruence |].
  intros x Hx. rewrite H2, H1; [done | done |]. rewrite H1; done.
Qed.

Lemma grows_insert (parent : list Z) (v : nat) (x : Z) :
  parent !!! v = -1 -> grows parent (<[v := x]> parent).
Proof.
  intros Hv. split; [apply length_insert |].
  intros y Hy. apply list_lookup_total_insert_ne. congruence.
Qed.

Lemma tree_discover n cap source parent u v :
  tree n cap source parent ->
  (u < n)%nat -> parent !!! u <> -1 ->
  (v < n)%nat -> parent !!! v = -1 -> 0 < cell cap u v ->
  tree n cap source (<[v := Z.of_nat u]> parent).
Proof.
  intros (Hlen & Hs & Hps & Hch) Hu Hpu Hv Hpv Hcap.
  assert (v <> source) as Hvs by (intros ->; lia).
  split; [by rewrite length_insert |]. split; [done |].
  split; [by rewrite list_lookup_total_insert_ne |].
  assert (forall x l, chain parent source x l -> ~ In v l) as Hfresh.
  { intros x l Hc Hin. by apply (chain_discovered _ _ _ _ _ Hps Hc Hin). }
  intros x Hx Hpx. destruct (decide (x = v)) as [->|Hne].
  - destruct (Hch u Hu Hpu) as (l & Hc & Hnd & Hn & Hpos).
    exists (v :: l). split; [| split; [| split]].
    + apply (chain_step _ _ v u); [done | |].
      * apply list_lookup_total_insert_eq. lia.
      * apply chain_insert; [done | by apply (Hfresh u)].
    + apply NoDup_cons. split; [| done].
      intros Hin. apply (Hfresh u l Hc). by apply list_elem_of_In.
    + by constructor.
    + destruct (chain_head _ _ _ _ Hc) as [l' ->]. simpl.
      constructor; [done |]. exact Hpos.
  - rewrite list_lookup_total_insert_ne in Hpx by done.
    destruct (Hch x Hx Hpx) as (l & Hc & Hnd & Hn & Hpos).
    exists l. split; [| done].
    apply chain_insert; [done | by apply (Hfresh x)].
Qed.

(** The inner loop of [bfs] pushes a node only when it discovers it. *)
Lemma bfs_for_pending mf sink u flow vs parent q b parent' q' :
  Forall (fun v => (v < length parent)%nat) vs ->
  MaxFlow.bfs_for mf sink u flow vs parent q = (b, parent', q') ->
  length parent' = length parent /\
  (pending parent' + length q' <= pending parent + length q)%nat.
Proof.
  revert parent q. induction vs as [|v vs IH]; intros parent q Hvs; simpl.
  - intros [= <- <- <-]. done.
  - apply Forall_cons in Hvs as [Hv Hvs].
    destruct (Z.eqb_spec (parent !!! v) (-1)) as [Hpv|_]; simpl; [| by apply IH].
    destruct (0 <? _); [| by apply IH].
    pose proof (pending_insert parent v (Z.of_nat u) Hv Hpv ltac:(lia)) as Hpend.
    destruct (Nat.eqb v sink).
    + intros [= <- <- <-]. rewrite length_insert. split; [done | lia].
    + intros Hfor. apply IH in Hfor as [Hlen Hle].
      * rewrite length_insert in Hlen. split; [done |].
        rewrite length_app in Hle. simpl in Hle. lia.
      * by rewrite length_insert.
Qed.

(** The outer loop of [bfs] returns once its fuel exceeds the pending nodes
    and the queue. *)
Lemma bfs_while_returns fuel mf sink parent q :
  (forall u, Forall (fun v => (v < length parent)%nat) (MaxFlow.adj mf !!! u)) ->
  (pending parent + length q < fuel)%nat ->
  exists r, MaxFlow.bfs_while fuel mf sink parent q = Some r.
Proof.
  revert parent q. induction fuel as [|fuel IH]; intros parent q Hadj Hfuel; [lia |].
  simpl. destruct q as [|[u flow] q]; [eauto |].
  destruct (MaxFlow.bfs_for _ _ _ _ _ _ _) as [[b parent'] q''] eqn:Hfor.
  apply bfs_for_pending in Hfor as [Hlen Hle]; [| apply Hadj].
  destruct b; [eauto |]. apply IH.
  - intros u'. rewrite Hlen. apply Hadj.
  - simpl in Hfuel. lia.
Qed.

Lemma pending_le_length parent : (pending parent <= length parent)%nat.
Proof.
  induction parent as [|x parent IH]; simpl; [lia |]. destruct (x =? -1); lia.
Qed.

Lemma bfs_returns fuel mf source sink parent :
  wf_engine mf -> length parent = MaxFlow.n mf ->
  (MaxFlow.n mf + 2 <= fuel)%nat ->
  exists r, MaxFlow.bfs fuel mf source sink parent = Some r.
Proof.
  intros Hwf Hlen Hfuel. unfold MaxFlow.bfs. apply bfs_while_returns.
  - intros u. rewrite length_insert, length_replicate, Hlen.
    apply List.Forall_forall. intros v Hv. by apply (wf_adj _ Hwf u).
  - pose proof (pending_le_length
      (<[source := Z.of_nat source]> (replicate (length parent) (-1)))) as H.
    rewrite length_insert, length_replicate in H. simpl. lia.
Qed.

Lemma closed_grows mf parent parent' x :
  grows parent parent' -> closed mf parent x -> closed mf parent' x.
Proof.
  intros [_ Hg] Hc y Hy Hpos. rewrite Hg; by apply Hc.
Qed.

(** The inner loop of [bfs], scanning the neighbours [vs] of a discovered
    node [u]. *)
Lemma bfs_for_spec mf source sink u flow vs parent q b parent' q' :
  Forall (fun v => (v < MaxFlow.n mf)%nat) vs ->
  tree (MaxFlow.n mf) (MaxFlow.capacity mf) source parent ->
  (u < MaxFlow.n mf)%nat -> parent !!! u <> -1 ->
  (sink <> source -> parent !!! sink = -1) ->
  MaxFlow.bfs_for mf sink u flow vs parent q = (b, parent', q') ->
  tree (MaxFlow.n mf) (MaxFlow.capacity mf) source parent' /\
  grows parent parent' /\
  (b = true -> parent' !!! sink <> -1 /\ sink <> source) /\
  (b = false ->
     (sink <> source -> parent' !!! sink = -1) /\
     exists new, q' = q ++ new /\
       (forall e, In e new -> (fst e < MaxFlow.n mf)%nat /\ parent' !!! (fst e) <> -1) /\
       (forall x, parent' !!! x <> -1 -> parent !!! x <> -1 \/ In x (map fst new)) /\
       (forall y, In y vs -> 0 < cell (MaxFlow.capacity mf) u y -> parent' !!! y <> -1)).
Proof.
  revert parent q. induction vs as [|v vs IH]; intros parent q Hvs Htree Hu Hpu Hsink; simpl.
  - intros [= <- <- <-]. split; [done |]. split; [apply grows_refl |].
    split; [done |]. intros _. split; [done |].
    exists []. rewrite app_nil_r. repeat split; (done || auto).
  - apply Forall_cons in Hvs as [Hv Hvs].
    destruct (Z.eqb_spec (parent !!! v) (-1)) as [Hpv|Hpv]; simpl.
    2:{ intros Hfor. apply IH in Hfor as (Ht & Hg & Htrue & Hfalse); try done.
        split; [done |]. split; [done |]. split; [done |].
        intros Hb. destruct (Hfalse Hb) as (Hsk & new & -> & Hnew & Hdisc & Hclosed).
        split; [done |]. exists new. repeat split; try done; try apply Hnew; try done.
        intros y [<-|Hy] Hpos; [| by apply Hclosed].
        destruct Hg as [_ Hg]. by rewrite Hg. }
    destruct (Z.ltb_spec 0 (cell (MaxFlow.capacity mf) u v)) as [Hcap|Hcap].
    2:{ intros Hfor. apply IH in Hfor as (Ht & Hg & Htrue & Hfalse); try done.
        split; [done |]. split; [done |]. split; [done |].
        intros Hb. destruct (Hfalse Hb) as (Hsk & new & -> & Hnew & Hdisc & Hclosed).
        split; [done |]. exists new. repeat split; try done; try apply Hnew; try done.
        intros y [<-|Hy] Hpos; [lia | by apply Hclosed]. }
    pose proof (tree_discover _ _ _ _ u v Htree Hu Hpu Hv Hpv Hcap) as Htree1.
    pose proof (grows_insert parent v (Z.of_nat u) Hpv) as Hg1.
    assert (length parent = MaxFlow.n mf) as Hlen by apply Htree.
    assert (<[v := Z.of_nat u]> parent !!! v = Z.of_nat u) as Hv1
      by (apply list_lookup_total_insert_eq; lia).
    destruct (Nat.eqb_spec v sink) as [->|Hvs'].
    + intros [= <- <- <-]. split; [done |]. split; [done |].
      split; [| done]. intros _. split; [lia |].
      intros ->. destruct Htree as (_ & _ & Hps & _). lia.
    + intros Hfor. apply IH in Hfor as (Ht & Hg & Htrue & Hfalse); try done.
      * split; [done |]. split; [by apply (grows_trans _ _ _ Hg1) |].
        split; [done |]. intros Hb.
        destruct (Hfalse Hb) as (Hsk & new & -> & Hnew & Hdisc & Hclosed).
        split; [done |].
        exists ((v, Z.min flow (cell (MaxFlow.capacity mf) u v)) :: new).
        rewrite <- app_assoc. split; [done |].
        destruct Hg as [_ Hg]. split; [| split].
        -- intros e [<-|He]; [| by apply Hnew]. simpl. split; [done |].
           rewrite Hg; lia.
        -- intros x Hx. destruct (decide (x = v)) as [->|Hxv]; [right; by left |].
           destruct (Hdisc x Hx) as [Hx1|Hx1]; [| right; by right].
           left. by rewrite list_lookup_total_insert_ne in Hx1.
        -- intros y [<-|Hy] Hpos; [| by apply Hclosed]. rewrite Hg; lia.
      * rewrite list_lookup_total_insert_ne; [done |]. congruence.
      * intros Hss. rewrite list_lookup_total_insert_ne; [by apply Hsink | done].
Qed.

Lemma bfs_while_spec fuel mf source sink parent q b parent' :
  wf_engine mf -> bfs_inv mf source sink parent q ->
  MaxFlow.bfs_while fuel mf sink parent q = Some (b, parent') ->
  tree (MaxFlow.n mf) (MaxFlow.capacity mf) source parent' /\
  (b = true -> parent' !!! sink <> -1 /\ sink <> source) /\
  (b = false ->
     (sink <> source -> parent' !!! sink = -1) /\
     forall x, parent' !!! x <> -1 -> closed mf parent' x).
Proof.
  intros Hwf. revert parent q.
  induction fuel as [|fuel IH]; intros parent q (Htree & Hsink & Hq & Hcl); [done |].
  simpl. destruct q as [|[u flow] q].
  - intros [= <- <-]. split; [done |]. split; [done |]. intros _. split; [done |].
    intros x Hx. by destruct (Hcl x Hx).
  - destruct (MaxFlow.bfs_for _ _ _ _ _ _ _) as [[b' parent1] q1] eqn:Hfor.
    destruct (Hq (u, flow) ltac:(by left)) as [Hu Hpu]. simpl in Hu, Hpu.
    apply (bfs_for_spec _ source) in Hfor
      as (Htree1 & Hg & Htrue & Hfalse); try done.
    2:{ apply List.Forall_forall. intros v Hv. by apply (wf_adj _ Hwf u). }
    destruct b'.
    + intros [= <- <-]. split; [done |]. split; [by intros _; apply Htrue | done].
    + destruct (Hfalse eq_refl) as (Hsk & new & -> & Hnew & Hdisc & Hclosed).
      apply IH. split; [done |]. split; [done |]. split.
      * intros e He. apply in_app_or in He as [He|He]; [| by apply Hnew].
        destruct (Hq e ltac:(by right)) as [He1 He2]. split; [done |].
        destruct Hg as [_ Hg]. by rewrite Hg.
      * intros x Hx. rewrite map_app.
        destruct (Hdisc x Hx) as [Hx0|Hx0].
        -- destruct (Hcl x Hx0) as [[<-|Hin]|Hc].
           ++ right. exact Hclosed.
           ++ left. apply in_or_app. by left.
           ++ right. by apply (closed_grows _ parent).
        -- left. apply in_or_app. by right.
Qed.

(** [bfs]: the tree it leaves in [parent]; when it returns true the sink
    is in the tree and is not the source; when it returns false the sink is
    outside and no arc with residual capacity leaves the tree. *)
Lemma bfs_spec fuel mf source sink parent b parent' :
  wf_engine mf -> length parent = MaxFlow.n mf ->
  (source < MaxFlow.n mf)%nat -> (sink < MaxFlow.n mf)%nat ->
  MaxFlow.bfs fuel mf source sink parent = Some (b, parent') ->
  tree (MaxFlow.n mf) (MaxFlow.capacity mf) source parent' /\
  (b = true -> parent' !!! sink <> -1 /\ sink <> source) /\
  (b = false ->
     (sink <> source -> parent' !!! sink = -1) /\
     forall x y, (x < MaxFlow.n mf)%nat -> (y < MaxFlow.n mf)%nat ->
       parent' !!! x <> -1 -> 0 < cell (MaxFlow.capacity mf) x y ->
       parent' !!! y <> -1).
Proof.
  intros Hwf Hlen Hs Ht Hbfs. unfold MaxFlow.bfs in Hbfs.
  set (p0 := <[source := Z.of_nat source]> (replicate (length parent) (-1))) in *.
  assert (length p0 = MaxFlow.n mf) as Hlen0
    by (unfold p0; by rewrite length_insert, length_replicate).
  assert (p0 !!! source = Z.of_nat source) as Hp0s.
  { unfold p0. apply list_lookup_total_insert_eq. rewrite length_replicate. lia. }
  assert (forall x, (x < MaxFlow.n mf)%nat -> x <> source -> p0 !!! x = -1) as Hother.
  { intros x Hx Hne. unfold p0. rewrite list_lookup_total_insert_ne by done.
    apply lookup_total_replicate_2. lia. }
  apply (bfs_while_spec _ _ source) in Hbfs as (Htree & Htrue & Hfalse); [| done |].
  - split; [done |]. split; [done |]. intros Hb.
    destruct (Hfalse Hb) as [Hsk Hcl]. split; [done |].
    intros x y Hx Hy Hpx Hpos. apply (Hcl x Hpx y); [| done].
    by apply (wf_covers _ Hwf).
  - split; [| split; [| split]].
    + split; [done |]. split; [done |]. split; [done |].
      intros v Hv Hpv. destruct (decide (v = source)) as [->|Hne].
      * exists [source]. split; [constructor |]. split; [apply NoDup_singleton |].
        split; [by constructor | constructor].
      * by rewrite Hother in Hpv.
    + intros Hne. by apply Hother.
    + intros e [<-|[]]. simpl. split; [done | lia].
    + intros x Hx. destruct (decide (x = source)) as [->|Hne]; [left; by left |].
      right. destruct (decide (x < MaxFlow.n mf)%nat) as [Hlt|Hge].
      * by rewrite Hother in Hx.
      * intros y Hy. destruct Hwf as [[_ Hadj] _ _ _ _].
        rewrite list_lookup_total_alt, (lookup_ge_None_2 _ x) in Hy by lia.
        done.
Qed.

(** ** One augmentation *)

Lemma NoDup_bounded_length n (l : list nat) :
  NoDup l -> Forall (fun x => (x < n)%nat) l -> (length l <= n)%nat.
Proof.
  intros Hnd Hall.
  assert (length l <= length (seq 0 n))%nat as H.
  { apply NoDup_incl_length; [by apply NoDup_ListNoDup |].
    intros x Hx. apply in_seq. rewrite List.Forall_forall in Hall.
    specialize (Hall x Hx). lia. }
  by rewrite length_seq in H.
Qed.

(** One turn of the loop of [maxflow] returns when its inner loops may take
    [n + 2] turns. *)
Lemma augment_returns steps mf source sink parent :
  wf_engine mf -> length parent = MaxFlow.n mf ->
  (source < MaxFlow.n mf)%nat -> (sink < MaxFlow.n mf)%nat ->
  (MaxFlow.n mf + 2 <= steps)%nat ->
  exists r, MaxFlow.augment steps mf source sink parent = Some r.
Proof.
  intros Hwf Hlen Hs Ht Hsteps. unfold MaxFlow.augment.
  destruct (bfs_returns steps mf source sink parent Hwf Hlen Hsteps)
    as [[b parent'] Hbfs].
  rewrite Hbfs.
  destruct (bfs_spec _ _ _ _ _ _ _ Hwf Hlen Hs Ht Hbfs) as (Htree & Htrue & _).
  destruct b; [| eauto].
  destruct (Htrue eq_refl) as [Hpt _].
  destruct Htree as (_ & _ & _ & Hch).
  destruct (Hch sink Ht Hpt) as (l & Hc & Hnd & Hn & Hpos).
  pose proof (NoDup_bounded_length _ _ Hnd Hn) as Hl.
  destruct (path_min_chain steps (MaxFlow.capacity mf) _ _ _ _ INT_MAX Hc)
    as (pf & -> & _); [lia |].
  destruct (path_update_chain (MaxFlow.n mf) steps (MaxFlow.capacity mf)
              _ _ _ _ pf Hc) as (cap' & -> & _); [lia | done | apply Hwf |].
  eauto.
Qed.

(** What one augmentation does to the engine. *)
Lemma augment_spec steps mf source sink parent mf' pf parent' :
  wf_engine mf -> length parent = MaxFlow.n mf ->
  (source < MaxFlow.n mf)%nat -> (sink < MaxFlow.n mf)%nat ->
  MaxFlow.augment steps mf source sink parent = Some (inr (mf', pf, parent')) ->
  wf_engine mf' /\
  MaxFlow.n mf' = MaxFlow.n mf /\ MaxFlow.adj mf' = MaxFlow.adj mf /\
  length parent' = MaxFlow.n mf /\
  0 < pf /\ sink <> source /\
  (forall a b,
     cell (MaxFlow.capacity mf') a b + cell (MaxFlow.capacity mf') b a =
     cell (MaxFlow.capacity mf) a b + cell (MaxFlow.capacity mf) b a) /\
  (forall w,
     rowsum (MaxFlow.n mf) (MaxFlow.capacity mf') w =
     rowsum (MaxFlow.n mf) (MaxFlow.capacity mf) w
     + (if decide (w = sink) then pf else 0)
     - (if decide (w = source) then pf else 0)) /\
  exists l, chain parent' source sink l /\ NoDup l /\
    Forall (fun a => 0 < pf <= cell (MaxFlow.capacity mf) (fst a) (snd a)) (arcs l).
Proof.
  intros Hwf Hlen Hs Ht. unfold MaxFlow.augment.
  destruct (MaxFlow.bfs _ _ _ _ _) as [[b p1]|] eqn:Hbfs; [| done].
  destruct (bfs_spec _ _ _ _ _ _ _ Hwf Hlen Hs Ht Hbfs) as (Htree & Htrue & _).
  destruct b; [| done].
  destruct (Htrue eq_refl) as [Hpt Hts].
  destruct Htree as (Hlen1 & _ & _ & Hch).
  destruct (Hch sink Ht Hpt) as (l & Hc & Hnd & Hn & Hpos).
  destruct (MaxFlow.path_min _ _ _ _ _ _) as [pf1|] eqn:Hmin; [| done].
  destruct (MaxFlow.path_update _ _ _ _ _ _) as [cap'|] eqn:Hupd; [| done].
  intros [= <- <- <-].
  pose proof (NoDup_bounded_length _ _ Hnd Hn) as Hl.
  (* the bottleneck *)
  destruct (path_min_chain (length l) (MaxFlow.capacity mf) _ _ _ _ INT_MAX Hc)
    as (r & Hr & _ & Hle & Hrpos); [lia |].
  assert (r = pf1) as ->.
  { destruct (Nat.le_ge_cases (length l) steps) as [H|H].
    - apply (path_min_fuel _ _ _ _ _ _ _ _ H) in Hr. congruence.
    - apply (path_min_fuel _ _ _ _ _ _ _ _ H) in Hmin. congruence. }
  assert (0 < pf1) as Hpf by (apply Hrpos; [done | done]).
  (* the update *)
  destruct Hwf as [[Hsq Hadjl] Hadj Hnn Hcov Hsym].
  destruct (path_update_chain (MaxFlow.n mf) (length l) (MaxFlow.capacity mf)
              _ _ _ _ pf1 Hc) as (cap2 & Hupd2 & _ & Hrow); [lia | done | done |].
  assert (cap2 = cap') as ->.
  { destruct (Nat.le_ge_cases (length l) steps) as [H|H].
    - apply (path_update_fuel _ _ _ _ _ _ _ _ H) in Hupd2. congruence.
    - apply (path_update_fuel _ _ _ _ _ _ _ _ H) in Hupd. congruence. }
  destruct (path_update_pair_sum (MaxFlow.n mf) _ _ _ _ _ _ _ Hsq Hupd)
    as [Hsq' Hsum].
  assert (forall a b, (a < MaxFlow.n mf)%nat -> (b < MaxFlow.n mf)%nat ->
            0 <= cell cap' a b) as Hnn'.
  { apply (path_update_nonneg (MaxFlow.n mf) steps (MaxFlow.capacity mf)
             p1 source sink l pf1); try done; lia. }
  split; [| repeat split; try done].
  - constructor; simpl; try done.
    intros u v Hu Hv Hpos'.
    destruct (Z.lt_ge_cases 0 (cell (MaxFlow.capacity mf) u v)) as [H|H];
      [by apply Hcov |].
    apply Hsym; [done | done |]. apply Hcov; [done | done |].
    specialize (Hsum u v). specialize (Hnn' v u Hv Hu). lia.
  - exists l. split; [done |]. split; [done |].
    eapply Forall_impl; [exact Hle |]. simpl. intros a Ha. lia.
Qed.

(** When [bfs] finds no path, the discovered nodes hold the source, not the
    sink, and no arc with residual capacity leaves them. *)
Lemma augment_final steps mf source sink parent parent' :
  wf_engine mf -> length parent = MaxFlow.n mf ->
  (source < MaxFlow.n mf)%nat -> (sink < MaxFlow.n mf)%nat ->
  MaxFlow.augment steps mf source sink parent = Some (inl parent') ->
  parent' !!! source <> -1 /\
  (sink <> source -> parent' !!! sink = -1) /\
  forall x y, (x < MaxFlow.n mf)%nat -> (y < MaxFlow.n mf)%nat ->
    parent' !!! x <> -1 -> 0 < cell (MaxFlow.capacity mf) x y ->
    parent' !!! y <> -1.
Proof.
  intros Hwf Hlen Hs Ht. unfold MaxFlow.augment.
  destruct (MaxFlow.bfs _ _ _ _ _) as [[b p1]|] eqn:Hbfs; [| done].
  destruct (bfs_spec _ _ _ _ _ _ _ Hwf Hlen Hs Ht Hbfs) as (Htree & _ & Hfalse).
  destruct b.
  - destruct (MaxFlow.path_min _ _ _ _ _ _); [| done].
    destruct (MaxFlow.path_update _ _ _ _ _ _); done.
  - intros [= <-]. destruct (Hfalse eq_refl) as [Hsk Hcl].
    split; [| done]. destruct Htree as (_ & _ & Hps & _). lia.
Qed.

(** ** The loop of [maxflow] *)

Lemma flow_inv_start mf0 source sink : wf_engine mf0 -> flow_inv mf0 source sink mf0 0.
Proof.
  intros Hwf. split; [done |]. split; [done |]. split; [done |].
  split; [done |]. split; [done |].
  intros w. repeat destruct (decide _); lia.
Qed.

Lemma flow_inv_augment steps mf0 mf source sink parent flow mf' pf parent' :
  flow_inv mf0 source sink mf flow -> length parent = MaxFlow.n mf0 ->
  (source < MaxFlow.n mf0)%nat -> (sink < MaxFlow.n mf0)%nat ->
  MaxFlow.augment steps mf source sink parent = Some (inr (mf', pf, parent')) ->
  flow_inv mf0 source sink mf' (flow + pf) /\ length parent' = MaxFlow.n mf0 /\
  0 < pf /\ sink <> source.
Proof.
  intros (Hwf & Hn & Hadj & Hflow & Hsum & Hrow) Hlen Hs Ht Haug.
  unfold flow_inv. rewrite <- Hn in *.
  apply augment_spec in Haug
    as (Hwf' & Hn' & Hadj' & Hlen' & Hpf & Hts & Hsum' & Hrow' & _); try done.
  split; [| done].
  split; [done |]. split; [congruence |]. split; [congruence |].
  split; [lia |]. split.
  - intros a b. by rewrite Hsum'.
  - intros w. rewrite Hrow', Hrow. repeat destruct (decide _); lia.
Qed.

Lemma after_turns_inv k steps mf0 mf source sink parent flow mf' parent' flow' :
  flow_inv mf0 source sink mf flow -> length parent = MaxFlow.n mf0 ->
  (source < MaxFlow.n mf0)%nat -> (sink < MaxFlow.n mf0)%nat ->
  after_turns k steps mf source sink parent flow = Some (mf', parent', flow') ->
  flow_inv mf0 source sink mf' flow' /\ length parent' = MaxFlow.n mf0.
Proof.
  intros Hinv Hlen Hs Ht. revert mf parent flow Hinv Hlen.
  induction k as [|k IH]; intros mf parent flow Hinv Hlen; simpl.
  - intros [= <- <- <-]. done.
  - destruct (MaxFlow.augment _ _ _ _ _) as [[|[[mf1 pf] p1]]|] eqn:Haug; try done.
    apply (flow_inv_augment _ mf0 _ _ _ _ flow) in Haug
      as (Hinv1 & Hlen1 & _); try done.
    by apply IH.
Qed.

(** A call of [maxflow] that returns has taken finitely many turns and has
    ended on a turn where [bfs] found no path. *)
Lemma maxflow_while_turns fuel steps mf source sink parent flow flow' mf' :
  MaxFlow.maxflow_while fuel steps mf source sink parent flow = Some (flow', mf') ->
  exists k parent' parent'',
    (k < fuel)%nat /\
    after_turns k steps mf source sink parent flow = Some (mf', parent', flow') /\
    MaxFlow.augment steps mf' source sink parent' = Some (inl parent'').
Proof.
  revert mf parent flow. induction fuel as [|fuel IH]; intros mf parent flow; [done |].
  simpl. destruct (MaxFlow.augment _ _ _ _ _) as [[p1|[[mf1 pf] p1]]|] eqn:Haug; [| | done].
  - intros [= <- <-]. exists O, parent, p1. split; [lia | done].
  - intros H. apply IH in H as (k & p' & p'' & Hk & Hturns & Hfin).
    exists (S k), p', p''. split; [lia |]. simpl. by rewrite Haug.
Qed.

(** The loop returns once its fuel exceeds the residual capacity that
    leaves the source: every turn takes at least one unit of it. *)
Lemma maxflow_while_returns fuel steps mf0 mf source sink parent flow :
  flow_inv mf0 source sink mf flow -> length parent = MaxFlow.n mf0 ->
  (source < MaxFlow.n mf0)%nat -> (sink < MaxFlow.n mf0)%nat ->
  (MaxFlow.n mf0 + 2 <= steps)%nat ->
  rowsum (MaxFlow.n mf0) (MaxFlow.capacity mf) source < Z.of_nat fuel ->
  exists r, MaxFlow.maxflow_while fuel steps mf source sink parent flow = Some r.
Proof.
  intros Hinv Hlen Hs Ht Hsteps. revert mf parent flow Hinv Hlen.
  induction fuel as [|fuel IH]; intros mf parent flow Hinv Hlen Hfuel.
  - exfalso. destruct Hinv as (Hwf & Hn & _).
    assert (0 <= rowsum (MaxFlow.n mf0) (MaxFlow.capacity mf) source); [| lia].
    apply sumZ_nonneg. intros i Hi. apply (wf_nonneg _ Hwf); lia.
  - simpl.
    destruct (augment_returns steps mf source sink parent) as [r Hr].
    { apply Hinv. } { destruct Hinv as (_ & -> & _). done. }
    { destruct Hinv as (_ & -> & _). done. }
    { destruct Hinv as (_ & -> & _). done. }
    { destruct Hinv as (_ & -> & _). done. }
    rewrite Hr. destruct r as [p1|[[mf1 pf] p1]]; [eauto |].
    pose proof Hinv as (_ & _ & _ & _ & _ & Hrow).
    apply (flow_inv_augment _ mf0 _ _ _ _ flow) in Hr
      as (Hinv1 & Hlen1 & Hpf & Hts); try done.
    apply IH; try done.
    pose proof Hinv1 as (_ & _ & _ & _ & _ & Hrow1).
    rewrite Hrow1. rewrite Hrow in Hfuel.
    destruct (decide (source = sink)) as [|_]; [congruence |].
    destruct (decide (source = source)); [| done]. lia.
Qed.

(** ** Engines built by [addEdge] *)

Lemma in_push_adj a u v w x :
  In x (MaxFlow.push_adj a u v !!! w) <->
  In x (a !!! w) \/ (w = u /\ x = v /\ (u < length a)%nat).
Proof.
  unfold MaxFlow.push_adj. rewrite list_lookup_total_insert.
  destruct (decide (u = w /\ (u < length a)%nat)) as [[-> Hu]|Hn].
  - rewrite in_app_iff. simpl. split.
    + intros [H|[<-|[]]]; [by left | right; done].
    + intros [H|(_ & -> & _)]; [by left | right; by left].
  - split; [by left |]. intros [H|(-> & _ & Hu)]; [done |]. destruct Hn. done.
Qed.

Lemma wf_new n : wf_engine (MaxFlow.new n).
Proof.
  assert (forall u, MaxFlow.adj (MaxFlow.new n) !!! u = []) as Hadj.
  { intros u. simpl. destruct (decide (u < n)%nat).
    - by apply lookup_total_replicate_2.
    - rewrite list_lookup_total_alt, (lookup_ge_None_2 _ u); [done |].
      rewrite length_replicate. lia. }
  constructor.
  - apply shaped_new.
  - intros u v. by rewrite Hadj.
  - intros u v Hu Hv. simpl. by rewrite cell_new.
  - intros u v Hu Hv. simpl in *. rewrite cell_new by done. lia.
  - intros u v _ _. by rewrite Hadj.
Qed.

Lemma wf_addEdge u v cap mf :
  wf_engine mf -> 0 <= cap -> (u < MaxFlow.n mf)%nat -> (v < MaxFlow.n mf)%nat ->
  wf_engine (MaxFlow.addEdge u v cap mf).
Proof.
  intros Hwf Hcap Hu Hv. pose proof Hwf as [Hsh Hadj Hnn Hcov Hsym].
  pose proof Hsh as [_ Hlen].
  assert (forall a b, In b (MaxFlow.adj mf !!! a) ->
            In b (MaxFlow.adj (MaxFlow.addEdge u v cap mf) !!! a)) as Hkeep.
  { intros a b Hab. simpl. destruct (_ && _); [| done].
    rewrite !in_push_adj. by do 2 left. }
  constructor.
  - by apply shaped_addEdge.
  - intros a b. simpl. destruct (_ && _); [| apply Hadj].
    rewrite !in_push_adj.
    intros [[H|(-> & -> & _)]|(-> & -> & _)]; [by apply (Hadj a) | done | done].
  - intros a b Ha Hb. rewrite cell_addEdge by done.
    pose proof (Hnn a b Ha Hb). pose proof (Hnn u v Hu Hv).
    destruct (decide _); lia.
  - intros a b Ha Hb. rewrite cell_addEdge by done.
    destruct (decide (a = u /\ b = v)) as [[-> ->]|_];
      [| intros H; by apply Hkeep, Hcov].
    intros _. simpl.
    destruct (Z.eqb_spec (cell (MaxFlow.capacity mf) u v) 0) as [E1|E1]; simpl.
    + destruct (Z.eqb_spec (cell (MaxFlow.capacity mf) v u) 0) as [E2|E2].
      * rewrite !in_push_adj, length_push_adj. left. right. repeat split; lia.
      * apply Hsym; [done | done |]. apply Hcov; [done | done |].
        specialize (Hnn v u Hv Hu). lia.
    + apply Hcov; [done | done |]. specialize (Hnn u v Hu Hv). lia.
  - intros a b Ha Hb. simpl. destruct (_ && _); [| by apply Hsym].
    rewrite !in_push_adj, !length_push_adj.
    intros [[H|(-> & -> & _)]|(-> & -> & _)].
    + do 2 left. by apply Hsym.
    + right. repeat split; lia.
    + left. right. repeat split; lia.
Qed.

Lemma wf_add_edges n calls :
  Forall (valid_call n) calls -> wf_engine (add_edges calls (MaxFlow.new n)).
Proof.
  induction calls as [|[[u v] cap] calls IH] using rev_ind; intros Hall.
  - apply wf_new.
  - apply Forall_app in Hall as [Hall Hlast].
    apply Forall_cons in Hlast as [(Hcap & Hu & Hv) _]. simpl in *.
    rewrite add_edges_snoc. simpl.
    apply wf_addEdge; [by apply IH | done | |]; by rewrite n_add_edges.
Qed.

(** ** The states of a run of [maxflow] *)

(** The augmentations keep the matrix square and the sum of the two entries
    of every pair, whatever the engine holds. *)
Lemma after_turns_pair_sum k steps mf source sink parent flow mf' parent' flow' :
  square (MaxFlow.n mf) (MaxFlow.capacity mf) ->
  after_turns k steps mf source sink parent flow = Some (mf', parent', flow') ->
  MaxFlow.n mf' = MaxFlow.n mf /\
  square (MaxFlow.n mf) (MaxFlow.capacity mf') /\
  forall a b,
    cell (MaxFlow.capacity mf') a b + cell (MaxFlow.capacity mf') b a =
    cell (MaxFlow.capacity mf) a b + cell (MaxFlow.capacity mf) b a.
Proof.
  revert mf parent flow. induction k as [|k IH]; intros mf parent flow Hsq; simpl.
  - intros [= <- <- <-]. done.
  - destruct (MaxFlow.augment _ _ _ _ _) as [[|[[mf1 pf] p1]]|] eqn:Haug; try done.
    unfold MaxFlow.augment in Haug.
    destruct (MaxFlow.bfs _ _ _ _ _) as [[[] p2]|]; try done.
    destruct (MaxFlow.path_min _ _ _ _ _ _) as [pf2|]; [| done].
    destruct (MaxFlow.path_update _ _ _ _ _ _) as [cap'|] eqn:Hupd; [| done].
    injection Haug as <- <- <-.
    apply (path_update_pair_sum (MaxFlow.n mf)) in Hupd as [Hsq' Hsum]; [| done].
    intros Hturns. apply IH in Hturns as (Hn & Hsq'' & Hsum'); [| done].
    simpl in *. split; [done |]. split; [done |].
    intros a b. by rewrite Hsum', Hsum.
Qed.

Lemma corridors_ok_build maxDist w :
  WildlifeCorridorNetwork.corridorCapacity w = [] ->
  corridors_ok (WildlifeCorridorNetwork.buildCorridorNetwork maxDist w).
Proof.
  intros Hempty. unfold corridors_ok.
  rewrite (build_corridors _ _ Hempty), buildCorridorNetwork_fold.
  destruct (fold_visit_frame maxDist
              (all_pairs (WildlifeCorridorNetwork.numHabitats w)) w) as (-> & _).
  split.
  - rewrite map_fst_feasible. apply sorted_filter, sorted_all_pairs.
  - intros i j c Hin. apply in_feasible in Hin as (Hin & _).
    by apply in_all_pairs in Hin.
Qed.

(** ** The engine [solve] builds *)

Lemma add_corridors_snoc m e mf :
  WildlifeCorridorNetwork.add_corridors (m ++ [e]) mf =
  MaxFlow.addEdge (snd (fst e)) (fst (fst e)) (snd e)
    (MaxFlow.addEdge (fst (fst e)) (snd (fst e)) (snd e)
       (WildlifeCorridorNetwork.add_corridors m mf)).
Proof. unfold WildlifeCorridorNetwork.add_corridors. by rewrite fold_left_app. Qed.

Lemma n_add_corridors m mf :
  MaxFlow.n (WildlifeCorridorNetwork.add_corridors m mf) = MaxFlow.n mf.
Proof.
  induction m as [|e m IH] using rev_ind; [done |].
  by rewrite add_corridors_snoc.
Qed.

Lemma shaped_add_corridors m mf :
  shaped mf -> shaped (WildlifeCorridorNetwork.add_corridors m mf).
Proof.
  intros H. induction m as [|e m IH] using rev_ind; [done |].
  rewrite add_corridors_snoc. by do 2 apply shaped_addEdge.
Qed.

(** After the two [addEdge] calls of every corridor, both entries of a
    corridor hold its capacity and the entries of other pairs are zero. *)
Lemma network_cells n m :
  StronglySorted key_lt (map fst m) ->
  (forall i j c, In ((i, j), c) m -> (i < j < n)%nat) ->
  let cap := MaxFlow.capacity (WildlifeCorridorNetwork.add_corridors m (MaxFlow.new n)) in
  (forall i j c, In ((i, j), c) m -> cell cap i j = c /\ cell cap j i = c) /\
  (forall a b, (a < n)%nat -> (b < n)%nat ->
     (forall c, ~ In ((a, b), c) m) -> (forall c, ~ In ((b, a), c) m) ->
     cell cap a b = 0).
Proof.
  induction m as [|[[i0 j0] c0] m IH] using rev_ind; intros Hs Hk; cbv zeta.
  - split; [done |]. intros a b Ha Hb _ _. simpl. by apply cell_new.
  - rewrite map_app in Hs. apply StronglySorted_app in Hs as (Hlt & Hs & _).
    assert (forall i j c, In ((i, j), c) m -> (i < j < n)%nat) as Hk'.
    { intros i j c Hin. apply (Hk i j c), in_or_app. by left. }
    destruct (Hk i0 j0 c0) as [Hij0 Hj0]; [apply in_or_app; right; by left |].
    destruct (IH Hs Hk') as [IHin IHout].
    assert (forall c, ~ In ((i0, j0), c) m) as Hfresh.
    { intros c Hin. apply (key_lt_irrefl (i0, j0)), Hlt.
      - apply list_elem_of_In. by apply (in_map fst) in Hin.
      - simpl. left. }
    assert (forall c, ~ In ((j0, i0), c) m) as Hfresh'.
    { intros c Hin. apply Hk' in Hin. lia. }
    rewrite add_corridors_snoc. simpl fst. simpl snd.
    set (prev := WildlifeCorridorNetwork.add_corridors m (MaxFlow.new n)) in *.
    assert (shaped prev) as Hsh by apply shaped_add_corridors, shaped_new.
    assert (MaxFlow.n prev = n) as Hn by apply n_add_corridors.
    clearbody prev.
    assert (forall a b,
      cell (MaxFlow.capacity (MaxFlow.addEdge j0 i0 c0 (MaxFlow.addEdge i0 j0 c0 prev))) a b =
      if decide (a = i0 /\ b = j0) then cell (MaxFlow.capacity prev) i0 j0 + c0
      else if decide (a = j0 /\ b = i0) then cell (MaxFlow.capacity prev) j0 i0 + c0
      else cell (MaxFlow.capacity prev) a b) as Hcell.
    { intros a b.
      rewrite cell_addEdge;
        [| by apply shaped_addEdge | rewrite n_addEdge; lia | rewrite n_addEdge; lia].
      rewrite !cell_addEdge by (done || lia).
      repeat destruct (decide _); try done;
        repeat match goal with H : _ /\ _ |- _ => destruct H end; lia. }
    split.
    + intros i j c Hin. rewrite !Hcell. apply in_app_or in Hin as [Hin|[[= <- <- <-]|[]]].
      * destruct (IHin i j c Hin) as [E1 E2]. pose proof (Hk' i j c Hin).
        destruct (decide (i = i0 /\ j = j0)) as [[-> ->]|Hne];
          [by destruct (Hfresh c) |].
        repeat destruct (decide _); try done;
          repeat match goal with H : _ /\ _ |- _ => destruct H end; lia.
      * rewrite (IHout i0 j0), (IHout j0 i0); try done; try lia.
        repeat destruct (decide _); try done;
          repeat match goal with
                 | H : _ /\ _ |- _ => destruct H
                 | H : ~ (_ /\ _) |- _ => destruct H; done
                 end; lia.
    + intros a b Ha Hb Hab Hba. rewrite Hcell.
      destruct (decide (a = i0 /\ b = j0)) as [[-> ->]|_].
      { destruct (Hab c0). apply in_or_app. right. by left. }
      destruct (decide (a = j0 /\ b = i0)) as [[-> ->]|_].
      { destruct (Hba c0). apply in_or_app. right. by left. }
      apply IHout; try done.
      * intros c Hin. apply (Hab c), in_or_app. by left.
      * intros c Hin. apply (Hba c), in_or_app. by left.
Qed.

Lemma add_corridors_calls m mf :
  WildlifeCorridorNetwork.add_corridors m mf = add_edges (corridor_calls m) mf.
Proof.
  revert mf. induction m as [|e m IH]; intros mf; [done |].
  unfold WildlifeCorridorNetwork.add_corridors, add_edges in *. simpl.
  by rewrite IH.
Qed.

(** The engine [solve] builds from a corridor map with non-negative
    capacities is well formed. *)
Lemma wf_network w :
  corridors_ok w ->
  (forall k c, In (k, c) (WildlifeCorridorNetwork.corridorCapacity w) -> 0 <= c) ->
  wf_engine (WildlifeCorridorNetwork.network w).
Proof.
  intros [_ Hkeys] Hcaps. unfold WildlifeCorridorNetwork.network.
  rewrite add_corridors_calls. apply wf_add_edges.
  apply List.Forall_forall. intros [[u v] c] Hin.
  apply in_flat_map in Hin as ([[i j] c'] & Hin & Hcall).
  pose proof (Hkeys i j c' Hin). pose proof (Hcaps _ _ Hin).
  unfold valid_call. simpl in *.
  destruct Hcall as [[= <- <- <-]|[[= <- <- <-]|[]]]; simpl; lia.
Qed.

(** ** Cuts *)

Lemma rows_split n (cap : list (list Z)) (X : nat -> bool) :
  sumZ (fun u => if X u then rowsum n cap u else 0) n =
  inner_capacity n cap X + cut_capacity n cap X.
Proof.
  unfold inner_capacity, cut_capacity, rowsum. rewrite <- sumZ_add.
  apply sumZ_ext. intros u _. rewrite <- sumZ_add.
  destruct (X u); simpl.
  - apply sumZ_ext. intros v _. destruct (X v); simpl; lia.
  - rewrite (sumZ_ext _ (fun _ => 0)); [| done]. by rewrite sumZ_zero.
Qed.

Lemma inner_capacity_pair_sum n (cap cap' : list (list Z)) (X : nat -> bool) :
  (forall a b, cell cap' a b + cell cap' b a = cell cap a b + cell cap b a) ->
  inner_capacity n cap' X = inner_capacity n cap X.
Proof.
  intros Hsum.
  assert (forall c, inner_capacity n c X + inner_capacity n c X =
    sumZ (fun u => sumZ (fun v =>
      if X u && X v then cell c u v + cell c v u else 0) n) n) as Hdouble.
  { intros c. unfold inner_capacity.
    rewrite (sumZ_swap (fun u v => if X u && X v then cell c u v else 0)) at 2.
    rewrite <- sumZ_add. apply sumZ_ext. intros u _. rewrite <- sumZ_add.
    apply sumZ_ext. intros v _. rewrite (andb_comm (X v)).
    destruct (X u && X v); lia. }
  pose proof (Hdouble cap) as H1. pose proof (Hdouble cap') as H2.
  assert (inner_capacity n cap' X + inner_capacity n cap' X =
          inner_capacity n cap X + inner_capacity n cap X); [| lia].
  rewrite H1, H2. apply sumZ_ext. intros u _. apply sumZ_ext. intros v _.
  by rewrite Hsum.
Qed.

Lemma cut_capacity_nonneg n (cap : list (list Z)) (X : nat -> bool) :
  (forall u v, (u < n)%nat -> (v < n)%nat -> 0 <= cell cap u v) ->
  0 <= cut_capacity n cap X.
Proof.
  intros H. apply sumZ_nonneg. intros u Hu. apply sumZ_nonneg. intros v Hv.
  destruct (_ && _); [by apply H | lia].
Qed.


Lemma cut_capacity_closed n (cap : list (list Z)) (X : nat -> bool) :
  (forall u v, (u < n)%nat -> (v < n)%nat -> 0 <= cell cap u v) ->
  (forall u v, (u < n)%nat -> (v < n)%nat ->
     X u = true -> 0 < cell cap u v -> X v = true) ->
  cut_capacity n cap X = 0.
Proof.
  intros Hnn Hcl. unfold cut_capacity.
  rewrite (sumZ_ext _ (fun _ => 0)); [apply sumZ_zero |]. intros u Hu.
  rewrite (sumZ_ext _ (fun _ => 0)); [apply sumZ_zero |]. intros v Hv.
  cbv beta. destruct (X u) eqn:Eu; [| done]. destruct (X v) eqn:Ev; [done |]. simpl.
  specialize (Hnn u v Hu Hv).
  destruct (Z.lt_ge_cases 0 (cell cap u v)) as [Hpos|]; [| lia].
  rewrite (Hcl u v Hu Hv Eu Hpos) in Ev. done.
Qed.

(** The flow pushed so far is what a cut has lost: for every set [X] of nodes that
    holds the source and not the sink, the flow is the capacity of the cut
    in the engine as built less its capacity in the engine as it is. *)
Lemma flow_is_cut_loss mf0 source sink mf flow (X : nat -> bool) :
  flow_inv mf0 source sink mf flow ->
  (source < MaxFlow.n mf0)%nat -> (sink < MaxFlow.n mf0)%nat ->
  X source = true -> X sink = false ->
  flow = cut_capacity (MaxFlow.n mf0) (MaxFlow.capacity mf0) X
         - cut_capacity (MaxFlow.n mf0) (MaxFlow.capacity mf) X.
Proof.
  intros (_ & _ & _ & _ & Hsum & Hrow) Hs Ht HSs HSt.
  set (n := MaxFlow.n mf0) in *.
  pose proof (rows_split n (MaxFlow.capacity mf) X) as H1.
  pose proof (rows_split n (MaxFlow.capacity mf0) X) as H0.
  rewrite (inner_capacity_pair_sum n _ _ X Hsum) in H1.
  assert (sumZ (fun u => if X u then rowsum n (MaxFlow.capacity mf) u else 0) n =
          sumZ (fun u => if X u then rowsum n (MaxFlow.capacity mf0) u else 0) n
          - flow) as Hdiff; [| lia].
  rewrite (sumZ_ext _ (fun u =>
    (if X u then rowsum n (MaxFlow.capacity mf0) u else 0)
    - (if decide (u = source) then flow else 0))).
  - rewrite sumZ_sub. f_equal.
    rewrite (sumZ_single _ source); [| done |].
    + by destruct (decide (source = source)).
    + intros i _ Hi. by destruct (decide (i = source)).
  - intros u Hu. rewrite Hrow.
    destruct (decide (u = sink)) as [->|_].
    + rewrite HSt. destruct (decide (sink = source)) as [E|_]; [| done].
      rewrite E, HSs in HSt. done.
    + destruct (decide (u = source)) as [->|_]; [rewrite HSs; lia |].
      destruct (X u); lia.
Qed.

(** ** A whole run of [maxflow] *)

Lemma after_turns_same_node k steps mf0 mf source parent flow mf' parent' flow' :
  flow_inv mf0 source source mf flow -> length parent = MaxFlow.n mf0 ->
  (source < MaxFlow.n mf0)%nat ->
  after_turns k steps mf source source parent flow = Some (mf', parent', flow') ->
  flow' = flow.
Proof.
  intros Hinv Hlen Hs. destruct k as [|k]; simpl; [by intros [= _ _ <-] |].
  destruct (MaxFlow.augment _ _ _ _ _) as [[|[[mf1 pf] p1]]|] eqn:Haug; try done.
  apply (flow_inv_augment _ mf0 _ _ _ _ flow) in Haug as (_ & _ & _ & Hne); done.
Qed.

(** Every run on a well-formed engine returns, after finitely many turns
    that keep the loop invariant, on a turn where [bfs] found no path. *)
Lemma maxflow_run mf0 source sink :
  wf_engine mf0 ->
  (source < MaxFlow.n mf0)%nat -> (sink < MaxFlow.n mf0)%nat ->
  exists fuel0 flow mf k parent parent',
    (forall fuel, (fuel0 <= fuel)%nat ->
       MaxFlow.maxflow fuel source sink mf0 = Some (flow, mf)) /\
    maxflow_turns k fuel0 source sink mf0 = Some (mf, parent, flow) /\
    MaxFlow.augment fuel0 mf source sink parent = Some (inl parent') /\
    flow_inv mf0 source sink mf flow /\
    length parent = MaxFlow.n mf0 /\
    (sink = source -> flow = 0).
Proof.
  intros Hwf Hs Ht.
  set (fuel0 := Nat.max (MaxFlow.n mf0 + 2)
    (S (Z.to_nat (rowsum (MaxFlow.n mf0) (MaxFlow.capacity mf0) source)))).
  pose proof (flow_inv_start mf0 source sink Hwf) as Hinv.
  assert (length (replicate (MaxFlow.n mf0) 0) = MaxFlow.n mf0) as Hlen
    by apply length_replicate.
  destruct (maxflow_while_returns fuel0 fuel0 mf0 mf0 source sink
              (replicate (MaxFlow.n mf0) 0) 0 Hinv Hlen Hs Ht) as [[flow mf] Hret].
  { unfold fuel0. lia. } { unfold fuel0. lia. }
  destruct (maxflow_while_turns _ _ _ _ _ _ _ _ _ Hret)
    as (k & parent & parent' & _ & Hturns & Hfin).
  destruct (after_turns_inv _ _ mf0 _ _ _ _ _ _ _ _ Hinv Hlen Hs Ht Hturns)
    as [Hinv' Hlen'].
  exists fuel0, flow, mf, k, parent, parent'.
  split; [| split; [done | split; [done | split; [done | split; [done |]]]]].
  - intros fuel Hfuel. by apply (maxflow_fuel fuel0).
  - intros ->. by apply (after_turns_same_node _ _ mf0) in Hturns.
Qed.

(** Where a run ends, no path of arcs with residual capacity leads from the
    source to the sink. *)
Lemma no_residual_path steps mf source sink parent parent' :
  wf_engine mf -> length parent = MaxFlow.n mf ->
  (source < MaxFlow.n mf)%nat -> (sink < MaxFlow.n mf)%nat ->
  MaxFlow.augment steps mf source sink parent = Some (inl parent') ->
  sink <> source ->
  ~ residual_path (MaxFlow.n mf) (MaxFlow.capacity mf) source sink.
Proof.
  intros Hwf Hlen Hs Ht Hfin Hne Hpath.
  destruct (augment_final _ _ _ _ _ _ Hwf Hlen Hs Ht Hfin) as (Hps & Hpt & Hcl).
  specialize (Hpt Hne).
  assert (forall x y, residual_path (MaxFlow.n mf) (MaxFlow.capacity mf) x y ->
            parent' !!! x <> -1 -> parent' !!! y <> -1) as Hreach.
  { induction 1 as [|x y z Hx Hy Hpos _ IH]; [done |].
    intros Hpx. apply IH. by apply (Hcl x y). }
  by apply (Hreach _ _ Hpath).
Qed.

Lemma residual_path_snoc n cap x y z :
  residual_path n cap x y -> (y < n)%nat -> (z < n)%nat -> 0 < cell cap y z ->
  residual_path n cap x z.
Proof.
  induction 1 as [x|x y' z' Hx Hy Hpos _ IH]; intros Hy0 Hz Hyz.
  - apply (residual_path_arc _ _ x z z); try done. constructor.
  - apply (residual_path_arc _ _ x y'); try done. by apply IH.
Qed.

(** The path [bfs] records is a path of arcs with residual capacity. *)
Lemma chain_residual_path n cap parent source v l :
  chain parent source v l ->
  Forall (fun x => (x < n)%nat) l ->
  Forall (fun a => 0 < cell cap (fst a) (snd a)) (arcs l) ->
  residual_path n cap source v.
Proof.
  induction 1 as [|v u l Hv Hp Hc IH]; intros Hn Hpos; [constructor |].
  destruct (chain_head _ _ _ _ Hc) as [l' ->].
  apply Forall_cons in Hn as [Hvn Hn].
  pose proof Hn as Hn'. apply Forall_cons in Hn' as [Hun _].
  simpl in Hpos. apply Forall_cons in Hpos as [Huv Hpos]. simpl in Huv.
  apply (residual_path_snoc _ _ _ u); try done. by apply IH.
Qed.

(** When no path of arcs with residual capacity leads from the source to
    the sink, [maxflow] returns 0 and leaves the engine as it was. *)
Lemma unreachable_flow_zero mf source sink fuel :
  wf_engine mf ->
  (source < MaxFlow.n mf)%nat -> (sink < MaxFlow.n mf)%nat ->
  ~ residual_path (MaxFlow.n mf) (MaxFlow.capacity mf) source sink ->
  (MaxFlow.n mf + 2 <= fuel)%nat ->
  MaxFlow.maxflow fuel source sink mf = Some (0, mf).
Proof.
  intros Hwf Hs Ht Hno Hfuel. unfold MaxFlow.maxflow.
  destruct fuel as [|fuel']; [lia |].
  set (fuel := S fuel') in *. unfold fuel at 1. simpl.
  assert (length (replicate (MaxFlow.n mf) 0) = MaxFlow.n mf) as Hlen
    by apply length_replicate.
  destruct (augment_returns fuel mf source sink _ Hwf Hlen Hs Ht Hfuel) as [r Hr].
  rewrite Hr. destruct r as [p|[[mf' pf] p]]; [done |].
  exfalso. apply Hno.
  unfold MaxFlow.augment in Hr.
  destruct (MaxFlow.bfs _ _ _ _ _) as [[b p1]|] eqn:Hbfs; [| done].
  destruct (bfs_spec _ _ _ _ _ _ _ Hwf Hlen Hs Ht Hbfs) as (Htree & Htrue & _).
  destruct b; [| done].
  destruct (Htrue eq_refl) as [Hpt _].
  destruct Htree as (_ & _ & _ & Hch).
  destruct (Hch sink Ht Hpt) as (l & Hc & _ & Hn & Hpos).
  by apply (chain_residual_path _ _ p1 _ _ l).
Qed.

(** [solve] returns on such a network, whatever valid source and target it
    has. *)
Lemma solve_returns w :
  corridors_ok w ->
  (forall k c, In (k, c) (WildlifeCorridorNetwork.corridorCapacity w) -> 0 <= c) ->
  (WildlifeCorridorNetwork.sourceHabitat w < WildlifeCorridorNetwork.numHabitats w)%nat ->
  (WildlifeCorridorNetwork.targetHabitat w < WildlifeCorridorNetwork.numHabitats w)%nat ->
  exists fuel0 r, forall fuel, (fuel0 <= fuel)%nat ->
    WildlifeCorridorNetwork.solve fuel w = Some (r, w).
Proof.
  intros Hok Hcaps Hs Ht.
  pose proof (wf_network w Hok Hcaps) as Hwf.
  assert (MaxFlow.n (WildlifeCorridorNetwork.network w) =
          WildlifeCorridorNetwork.numHabitats w) as Hn by apply n_add_corridors.
  destruct (maxflow_run _ (WildlifeCorridorNetwork.sourceHabitat w)
              (WildlifeCorridorNetwork.targetHabitat w) Hwf)
    as (fuel0 & flow & mf & _ & _ & _ & Hret & _); [lia | lia |].
  exists fuel0. eexists. intros fuel Hfuel.
  unfold WildlifeCorridorNetwork.solve. by rewrite (Hret fuel Hfuel).
Qed.

(** ** Machine integers *)

(** In every state of a run an entry lies between 0 and the capacity its
    pair was given, and the flow between 0 and the capacity that leaves the
    source: when these fit an [int], so does every value [maxflow]
    computes. *)
Lemma run_bounded n calls source sink k steps mf parent flow :
  Forall (valid_call n) calls -> (source < n)%nat -> (sink < n)%nat ->
  maxflow_turns k steps source sink (add_edges calls (MaxFlow.new n)) =
    Some (mf, parent, flow) ->
  let cap0 := MaxFlow.capacity (add_edges calls (MaxFlow.new n)) in
  (forall u v, (u < n)%nat -> (v < n)%nat ->
     0 <= cell (MaxFlow.capacity mf) u v <= cell cap0 u v + cell cap0 v u) /\
  0 <= flow <= rowsum n cap0 source.
Proof.
  intros Hcalls Hs Ht Hturns. cbv zeta.
  pose proof (wf_add_edges n calls Hcalls) as Hwf.
  set (mf0 := add_edges calls (MaxFlow.new n)) in *.
  assert (MaxFlow.n mf0 = n) as Hn by apply n_add_edges.
  unfold maxflow_turns in Hturns.
  pose proof (flow_inv_start mf0 source sink Hwf) as Hstart.
  destruct (after_turns_inv _ _ mf0 _ _ _ _ _ _ _ _ Hstart
              (length_replicate _ _) ltac:(lia) ltac:(lia) Hturns)
    as [(Hwf' & Hn' & _ & Hflow & Hsum & Hrow) Hlen].
  split.
  - intros u v Hu Hv.
    pose proof (wf_nonneg _ Hwf' u v ltac:(lia) ltac:(lia)).
    pose proof (wf_nonneg _ Hwf' v u ltac:(lia) ltac:(lia)).
    specialize (Hsum u v). lia.
  - split; [done |].
    assert (0 <= rowsum n (MaxFlow.capacity mf) source) as Hnow.
    { apply sumZ_nonneg. intros i Hi. apply (wf_nonneg _ Hwf'); lia. }
    assert (0 <= rowsum n (MaxFlow.capacity mf0) source) as Hthen.
    { apply sumZ_nonneg. intros i Hi. apply (wf_nonneg _ Hwf); lia. }
    destruct (decide (sink = source)) as [->|Hne].
    + rewrite (after_turns_same_node _ _ mf0 _ _ _ _ _ _ _ Hstart
                 (length_replicate _ _) ltac:(lia) Hturns). done.
    + specialize (Hrow source). rewrite Hn in Hrow.
      destruct (decide (source = sink)) as [|_]; [congruence |].
      destruct (decide (source = source)); [lia | done].
Qed.

(** ** Runs of [maxflow] and of [solve] *)

(** C1, as amended: [solve] gives each corridor its capacity [c] in both
    directions, so the two entries of its pair add up to [2 * c] when the
    engine is built and after every augmentation. *)
Theorem corridor_pair_sum w i j c :
  corridors_ok w ->
  In ((i, j), c) (WildlifeCorridorNetwork.corridorCapacity w) ->
  pair_sum_is w i j (2 * c).
Proof.
  intros [Hsorted Hkeys] Hin k steps mf parent flow Hturns.
  unfold maxflow_turns in Hturns.
  apply after_turns_pair_sum in Hturns as (_ & _ & Hsum).
  - rewrite Hsum. unfold WildlifeCorridorNetwork.network.
    destruct (network_cells _ _ Hsorted Hkeys) as [Hcells _].
    destruct (Hcells i j c Hin) as [-> ->]. lia.
  - apply shaped_add_corridors, shaped_new.
Qed.

(** The pair of the two-node network holds 10 = 2 * 5 throughout, and its
    run has a state after one augmentation. *)
Lemma corridor_pair_sum_witness :
  pair_sum_is two_node_network 0 1 (2 * 5) /\
  exists mf parent flow,
    maxflow_turns 1 3 0 1 (WildlifeCorridorNetwork.network two_node_network) =
      Some (mf, parent, flow).
Proof.
  split.
  - apply corridor_pair_sum.
    + split; [vm_compute; repeat constructor |].
      intros i j c Hin. vm_compute in Hin.
      destruct Hin as [[= <- <- <-]|[]].
      assert (WildlifeCorridorNetwork.numHabitats two_node_network = 2%nat) as ->
        by (vm_compute; reflexivity).
      lia.
    + vm_compute. left. reflexivity.
  - eexists _, _, _. vm_compute. reflexivity.
Defined.

(** C1, as stated, fails on the two-node network as soon as the engine is
    built: the corridor has capacity 5 and [capacity[0][1] + capacity[1][0]]
    is 5 + 5. *)
Lemma corridor_pair_sum_counterexample :
  In ((0, 1)%nat, 5) (WildlifeCorridorNetwork.corridorCapacity two_node_network) /\
  ~ pair_sum_is two_node_network 0 1 5.
Proof.
  split; [vm_compute; left; reflexivity |].
  intros H. specialize (H O O _ _ _ eq_refl). vm_compute in H. discriminate.
Qed.



(** C9, as stated, fails where the two directions of a pair hold more than
    [INT_MAX]: after an arc of [INT_MAX] and an arc of 1 against it, the
    first augmentation pushes [INT_MAX] and [capacity[1][0] += path_flow]
    overflows; the entry is negative from then on, in the engine [maxflow]
    returns too. *)
Lemma residual_nonnegative_counterexample :
  Forall (valid_call 2) back_arc_calls /\
  (exists mf parent flow,
     maxflow_turns_int 1 4 0 1 (add_edges_int back_arc_calls (MaxFlow.new 2)) =
       Some (mf, parent, flow) /\
     cell (MaxFlow.capacity mf) 1 0 = INT_MIN) /\
  (exists flow mf,
     (forall fuel, (4 <= fuel)%nat ->
        MaxFlowInt.maxflow fuel 0 1 (add_edges_int back_arc_calls (MaxFlow.new 2)) =
          Some (flow, mf)) /\
     cell (MaxFlow.capacity mf) 1 0 = INT_MIN) /\
  INT_MIN < 0.
Proof.
  split; [| split; [| split]].
  - unfold back_arc_calls, valid_call, INT_MAX.
    repeat (apply List.Forall_cons; [simpl; lia |]). apply List.Forall_nil.
  - eexists. eexists. eexists. split; vm_compute; reflexivity.
  - eexists. eexists. split.
    + intros fuel Hfuel. apply (maxflow_int_fuel 4); [done |]. vm_compute. reflexivity.
    + vm_compute. reflexivity.
  - reflexivity.
Qed.

Example diamond_flow :
  option_map fst (MaxFlow.maxflow 6 0 3 (add_edges diamond_calls (MaxFlow.new 4)))
  = Some 4.
Proof. vm_compute. reflexivity. Qed.

(** The fourth scenario of the description: a triangle of three edges of
    capacity 7, each added in both directions as [solve] adds them. *)
Example triangle_flow :
  option_map fst
    (MaxFlow.maxflow 5 0 1
       (WildlifeCorridorNetwork.add_corridors
          [((0, 1)%nat, 7); ((0, 2)%nat, 7); ((1, 2)%nat, 7)] (MaxFlow.new 3)))
  = Some 14.
Proof. vm_compute. reflexivity. Qed.

(** The example of [main]: nine feasible corridors and a flow of 2. *)
Example main_flow :
  WildlifeCorridorNetwork.corridorCapacity
    (WildlifeCorridorNetwork.buildCorridorNetwork 35 main_network) =
    [((0, 1)%nat, 13); ((0, 2)%nat, 2); ((1, 2)%nat, 30); ((1, 3)%nat, 16);
     ((1, 4)%nat, 2); ((2, 3)%nat, 5); ((2, 4)%nat, 13); ((3, 4)%nat, 16);
     ((4, 5)%nat, 2)] /\
  option_map (fun r => fst (fst r))
    (WildlifeCorridorNetwork.solve 9
       (WildlifeCorridorNetwork.buildCorridorNetwork 35 main_network)) = Some 2.
Proof. split; vm_compute; reflexivity. Qed.

(** ** Monotonicity *)

(** The flow [maxflow] returns is the capacity of a cut of the engine as
    built, and no cut has less: the set of nodes the last [bfs] discovered
    holds the source, not the sink, and has lost all its capacity. *)
Lemma maxflow_min_cut mf0 source sink fuel flow mf :
  wf_engine mf0 ->
  (source < MaxFlow.n mf0)%nat -> (sink < MaxFlow.n mf0)%nat -> sink <> source ->
  MaxFlow.maxflow fuel source sink mf0 = Some (flow, mf) ->
  (exists X, X source = true /\ X sink = false /\
     flow = cut_capacity (MaxFlow.n mf0) (MaxFlow.capacity mf0) X) /\
  (forall X, X source = true -> X sink = false ->
     flow <= cut_capacity (MaxFlow.n mf0) (MaxFlow.capacity mf0) X).
Proof.
  intros Hwf Hs Ht Hne Hret.
  destruct (maxflow_run mf0 source sink Hwf Hs Ht)
    as (fuel0 & flow1 & mf1 & k & parent & parent' & Hret1 & _ & Hfin & Hinv & Hlen & _).
  specialize (Hret1 (Nat.max fuel fuel0) ltac:(lia)).
  apply (maxflow_fuel _ (Nat.max fuel fuel0)) in Hret; [| lia].
  rewrite Hret in Hret1. injection Hret1 as <- <-.
  pose proof Hinv as (Hwf' & Hn' & _).
  split.
  - destruct (augment_final fuel0 mf source sink parent parent' Hwf')
      as (Hps & Hpt & Hcl); [congruence | lia | lia | done |].
    set (X := fun v => negb (parent' !!! v =? -1)).
    assert (X source = true) as HXs.
    { unfold X. by destruct (Z.eqb_spec (parent' !!! source) (-1)). }
    assert (X sink = false) as HXt.
    { unfold X. rewrite (Hpt Hne). done. }
    exists X. split; [done |]. split; [done |].
    rewrite (flow_is_cut_loss mf0 source sink mf flow X Hinv Hs Ht HXs HXt).
    rewrite (cut_capacity_closed _ (MaxFlow.capacity mf) X); [lia | |].
    + intros u v Hu Hv. apply (wf_nonneg _ Hwf'); lia.
    + intros u v Hu Hv. unfold X.
      destruct (Z.eqb_spec (parent' !!! u) (-1)) as [|Hpu]; [done |]. intros _ Hpos.
      destruct (Z.eqb_spec (parent' !!! v) (-1)) as [Hpv|]; [| done].
      destruct (Hcl u v); (done || lia).
  - intros X HXs HXt.
    rewrite (flow_is_cut_loss mf0 source sink mf flow X Hinv Hs Ht HXs HXt).
    assert (0 <= cut_capacity (MaxFlow.n mf0) (MaxFlow.capacity mf) X); [| lia].
    apply cut_capacity_nonneg. intros u v Hu Hv. apply (wf_nonneg _ Hwf'); lia.
Qed.





(** C8, as stated, fails where the flow is not an [int]: with the arc from 0
    to 2 at capacity 1 the calls are valid and [maxflow] returns [INT_MAX];
    raised to 2, [flow += path_flow] overflows and [maxflow] returns
    [INT_MIN]. *)
Lemma maxflow_monotone_counterexample :
  Forall (valid_call 4) (overflow_calls 1) /\
  Forall (valid_call 4) (overflow_calls 2) /\
  exists mf mf',
    (forall fuel, (6 <= fuel)%nat ->
       MaxFlowInt.maxflow fuel 0 3 (add_edges_int (overflow_calls 1) (MaxFlow.new 4)) =
         Some (INT_MAX, mf)) /\
    (forall fuel, (6 <= fuel)%nat ->
       MaxFlowInt.maxflow fuel 0 3 (add_edges_int (overflow_calls 2) (MaxFlow.new 4)) =
         Some (INT_MIN, mf')) /\
    INT_MIN < INT_MAX.
Proof.
  split; [| split].
  - unfold overflow_calls, valid_call, INT_MAX.
    repeat (apply List.Forall_cons; [simpl; lia |]). apply List.Forall_nil.
  - unfold overflow_calls, valid_call, INT_MAX.
    repeat (apply List.Forall_cons; [simpl; lia |]). apply List.Forall_nil.
  - eexists. eexists. split; [| split].
    + intros fuel Hfuel. apply (maxflow_int_fuel 6); [done |]. vm_compute. reflexivity.
    + intros fuel Hfuel. apply (maxflow_int_fuel 6); [done |]. vm_compute. reflexivity.
    + reflexivity.
Qed.

(** * Further properties *)

(** ** What [getUsedCorridors] reports *)

Lemma flat_map_flat_map {A B C} (f : B -> list C) (g : A -> list B) l :
  flat_map f (flat_map g l) = flat_map (fun x => flat_map f (g x)) l.
Proof.
  induction l as [|x l IH]; [done |]. simpl. by rewrite flat_map_app, IH.
Qed.

Lemma flat_map_map {A B C} (f : B -> list C) (g : A -> B) l :
  flat_map f (map g l) = flat_map (fun x => f (g x)) l.
Proof. induction l as [|x l IH]; [done |]. simpl. by rewrite IH. Qed.

(** The two loops of [getUsedCorridors] visit [all_pairs]. *)
Lemma getUsedCorridors_pairs m mf :
  MaxFlow.getUsedCorridors m mf =
  flat_map (fun k =>
    if 0 <? cell (MaxFlow.capacity mf) (snd k) (fst k)
    then [(k, cell (MaxFlow.capacity mf) (snd k) (fst k))] else [])
    (all_pairs m).
Proof.
  unfold MaxFlow.getUsedCorridors, all_pairs. rewrite flat_map_flat_map.
  apply flat_map_ext. intros i. by rewrite flat_map_map.
Qed.

Lemma in_getUsedCorridors m mf i j x :
  In ((i, j), x) (MaxFlow.getUsedCorridors m mf) <->
  (i < j < m)%nat /\ x = cell (MaxFlow.capacity mf) j i /\ 0 < x.
Proof.
  rewrite getUsedCorridors_pairs, in_flat_map. split.
  - intros ([i' j'] & Hk & Hin). simpl in Hin.
    destruct (Z.ltb_spec 0 (cell (MaxFlow.capacity mf) j' i')) as [Hpos|]; [| done].
    destruct Hin as [[= <- <- <-]|[]]. by apply in_all_pairs in Hk.
  - intros (Hij & -> & Hpos). exists (i, j). split; [by apply in_all_pairs |].
    simpl. destruct (Z.ltb_spec 0 (cell (MaxFlow.capacity mf) j i)); [by left | lia].
Qed.

(** X1: [getUsedCorridors] reports exactly the pairs [i < j] below
    [numHabitats] whose entry [capacity[j][i]] is positive, each with that
    entry, each once and in increasing order of [(i, j)]. *)
Theorem getUsedCorridors_reports m mf :
  (forall i j x,
     In ((i, j), x) (MaxFlow.getUsedCorridors m mf) <->
     (i < j < m)%nat /\ x = cell (MaxFlow.capacity mf) j i /\ 0 < x) /\
  StronglySorted key_lt (map fst (MaxFlow.getUsedCorridors m mf)).
Proof.
  split; [apply in_getUsedCorridors |].
  rewrite getUsedCorridors_pairs.
  assert (forall ks, map fst (flat_map (fun k : nat * nat =>
      if 0 <? cell (MaxFlow.capacity mf) (snd k) (fst k)
      then [(k, cell (MaxFlow.capacity mf) (snd k) (fst k))] else []) ks) =
    List.filter (fun k => 0 <? cell (MaxFlow.capacity mf) (snd k) (fst k)) ks) as ->.
  { induction ks as [|k ks IH]; [done |]. simpl. rewrite map_app, IH.
    by destruct (0 <? _). }
  apply sorted_filter, sorted_all_pairs.
Qed.

(** ** Accumulated capacities and adjacency lists *)

Lemma arc_total_snoc a b calls call :
  arc_total a b (calls ++ [call]) =
  arc_total a b calls +
  (if Nat.eqb (fst (fst call)) a && Nat.eqb (snd (fst call)) b then snd call else 0).
Proof.
  induction calls as [|c calls IH]; simpl.
  - destruct (_ && _); lia.
  - rewrite IH. destruct (_ && _), (_ && _); lia.
Qed.

(** X2: repeated [addEdge] calls accumulate: after any calls between valid
    nodes whose capacities, of either sign, fit [int] (each capacity and
    each sum the calls build is between [INT_MIN] and [INT_MAX]),
    [capacity[a][b]] is the sum of the capacities of the calls
    [addEdge(a, b, _)], an [int]. *)
Theorem addEdge_accumulates n calls a b :
  Forall (call_in_range n) calls -> calls_fit_int calls ->
  (a < n)%nat -> (b < n)%nat ->
  cell (MaxFlow.capacity (add_edges calls (MaxFlow.new n))) a b = arc_total a b calls /\
  INT_MIN <= cell (MaxFlow.capacity (add_edges calls (MaxFlow.new n))) a b <= INT_MAX.
Proof.
  intros Hall [_ Hfit] Ha Hb.
  assert (cell (MaxFlow.capacity (add_edges calls (MaxFlow.new n))) a b =
          arc_total a b calls) as Heq.
  { clear Hfit. induction calls as [|[[u v] cap] calls IH] using rev_ind.
    - simpl. by apply cell_new.
    - apply Forall_app in Hall as [Hall Hlast].
      apply Forall_cons in Hlast as [[Hu Hv] _]. simpl in Hu, Hv.
      rewrite add_edges_snoc, arc_total_snoc. cbn [fst snd].
      rewrite cell_addEdge;
        [| by apply shaped_add_edges, shaped_new
         | by rewrite n_add_edges | by rewrite n_add_edges].
      destruct (decide (a = u /\ b = v)) as [[-> ->]|Hne].
      + rewrite !Nat.eqb_refl. simpl. rewrite IH by done. lia.
      + rewrite IH by done.
        destruct (Nat.eqb_spec u a), (Nat.eqb_spec v b); simpl; lia. }
  split; [done |]. rewrite Heq.
  specialize (Hfit (length calls) a b). by rewrite firstn_all in Hfit.
Qed.

(** [addEdge(0,1,3)], [addEdge(1,0,4)], [addEdge(0,1,-2)] leave 1 on the arc
    from 0 to 1. *)
Lemma addEdge_accumulates_witness :
  cell (MaxFlow.capacity
          (add_edges [(0%nat, 1%nat, 3); (1%nat, 0%nat, 4); (0%nat, 1%nat, -2)]
             (MaxFlow.new 2))) 0 1 =
  arc_total 0 1 [(0%nat, 1%nat, 3); (1%nat, 0%nat, 4); (0%nat, 1%nat, -2)] /\
  INT_MIN <=
    cell (MaxFlow.capacity
            (add_edges [(0%nat, 1%nat, 3); (1%nat, 0%nat, 4); (0%nat, 1%nat, -2)]
               (MaxFlow.new 2))) 0 1 <= INT_MAX.
Proof.
  apply addEdge_accumulates.
  - repeat constructor; simpl; lia.
  - unfold calls_fit_int, INT_MIN, INT_MAX.
    split; [repeat constructor; simpl; lia |].
    intros k a b.
    do 4 (destruct k as [|k]; [simpl; repeat destruct (_ && _); lia |]).
    simpl; repeat destruct (_ && _); lia.
  - lia.
  - lia.
Defined.

Lemma adj_new n u : MaxFlow.adj (MaxFlow.new n) !!! u = [].
Proof.
  simpl. destruct (decide (u < n)%nat).
  - by apply lookup_total_replicate_2.
  - rewrite list_lookup_total_alt, (lookup_ge_None_2 _ u); [done |].
    rewrite length_replicate. lia.
Qed.

(** Before any call connects a pair its two entries are zero. *)
Lemma unconnected_zero n calls u v :
  Forall (call_in_range n) calls -> (u < n)%nat -> (v < n)%nat ->
  existsb (connects u v) calls = false ->
  cell (MaxFlow.capacity (add_edges calls (MaxFlow.new n))) u v = 0 /\
  cell (MaxFlow.capacity (add_edges calls (MaxFlow.new n))) v u = 0.
Proof.
  intros Hall Hu Hv.
  induction calls as [|[[a b] c] calls IH] using rev_ind; intros Hno.
  - simpl. by rewrite !cell_new.
  - apply Forall_app in Hall as [Hall Hlast].
    apply Forall_cons in Hlast as [[Ha Hb] _]. simpl in Ha, Hb.
    rewrite existsb_app in Hno. apply orb_false_iff in Hno as [Hno Hc].
    simpl in Hc. rewrite orb_false_r in Hc.
    unfold connects in Hc. simpl in Hc. apply orb_false_iff in Hc as [H1 H2].
    destruct (IH Hall Hno) as [E1 E2].
    rewrite add_edges_snoc. cbn [fst snd].
    rewrite !cell_addEdge;
      try (by apply shaped_add_edges, shaped_new); try (by rewrite n_add_edges).
    apply andb_false_iff in H1, H2.
    rewrite !decide_False; [done | |].
    + intros [-> ->]. rewrite !Nat.eqb_refl in H2. by destruct H2.
    + intros [-> ->]. rewrite !Nat.eqb_refl in H1. by destruct H1.
Qed.

Lemma connects_spec u v a b (c : Z) :
  connects u v (a, b, c) = true <-> (a = u /\ b = v) \/ (a = v /\ b = u).
Proof.
  unfold connects. simpl.
  destruct (Nat.eqb_spec a u), (Nat.eqb_spec b v), (Nat.eqb_spec a v),
    (Nat.eqb_spec b u); simpl; split; intros; try done; try tauto;
    try lia; intuition lia.
Qed.

Lemma in_adj_connects n calls u v :
  Forall (call_in_range n) calls -> (u < n)%nat -> (v < n)%nat ->
  (In v (MaxFlow.adj (add_edges calls (MaxFlow.new n)) !!! u) <->
   existsb (connects u v) calls = true).
Proof.
  intros Hall Hu Hv.
  induction calls as [|[[a b] c] calls IH] using rev_ind.
  - change (add_edges [] (MaxFlow.new n)) with (MaxFlow.new n).
    rewrite adj_new. simpl. split; [done | discriminate].
  - apply Forall_app in Hall as [Hall Hlast].
    apply Forall_cons in Hlast as [[Ha Hb] _]. simpl in Ha, Hb.
    specialize (IH Hall).
    rewrite add_edges_snoc, existsb_app. cbn [fst snd existsb].
    rewrite orb_false_r, orb_true_iff, connects_spec, <- IH.
    assert (length (MaxFlow.adj (add_edges calls (MaxFlow.new n))) = n) as Hlen.
    { destruct (shaped_add_edges calls _ (shaped_new n)) as [_ H].
      rewrite H. apply n_add_edges. }
    simpl MaxFlow.adj.
    destruct ((cell _ a b =? 0) && (cell _ b a =? 0)) eqn:Htest.
    + rewrite !in_push_adj, length_push_adj. intuition lia.
    + split; [by left |]. intros [H|Hlast]; [done |].
      destruct (existsb (connects u v) calls) eqn:Hc; [by apply IH |].
      exfalso.
      destruct (unconnected_zero n calls u v Hall Hu Hv Hc) as [E1 E2].
      destruct Hlast as [[-> ->]|[-> ->]]; rewrite E1, E2 in Htest; done.
Qed.

Lemma connects_sym u v call : connects u v call = connects v u call.
Proof. unfold connects. apply orb_comm. Qed.

Lemma existsb_connects_sym u v calls :
  existsb (connects u v) calls = existsb (connects v u) calls.
Proof.
  induction calls as [|c calls IH]; [done |]. simpl.
  by rewrite IH, (connects_sym u v).
Qed.

(** X3: [v] is in [adj[u]] exactly when some call connected [u] and [v],
    in either direction and whatever the capacities of the calls; so [v] is
    in [adj[u]] exactly when [u] is in [adj[v]]. *)
Theorem adjacency_connects n calls u v :
  Forall (call_in_range n) calls -> (u < n)%nat -> (v < n)%nat ->
  let adj := MaxFlow.adj (add_edges calls (MaxFlow.new n)) in
  (In v (adj !!! u) <-> existsb (connects u v) calls = true) /\
  (In v (adj !!! u) <-> In u (adj !!! v)).
Proof.
  intros Hall Hu Hv. cbv zeta.
  pose proof (in_adj_connects n calls u v Hall Hu Hv) as Huv.
  pose proof (in_adj_connects n calls v u Hall Hv Hu) as Hvu.
  split; [done |]. rewrite Huv, Hvu.
  by rewrite (existsb_connects_sym u v).
Qed.

(** Node 2 is in [adj[0]] after [addEdge(2, 0, 0)]. *)
Lemma adjacency_connects_witness :
  let adj := MaxFlow.adj (add_edges [(0%nat, 1%nat, 3); (2%nat, 0%nat, 0)]
                            (MaxFlow.new 3)) in
  (In 2%nat (adj !!! 0%nat) <->
   existsb (connects 0 2) [(0%nat, 1%nat, 3); (2%nat, 0%nat, 0)] = true) /\
  (In 2%nat (adj !!! 0%nat) <-> In 0%nat (adj !!! 2%nat)).
Proof.
  apply adjacency_connects.
  - repeat constructor; simpl; lia.
  - lia.
  - lia.
Defined.

Lemma push_adj_lookup a u v w :
  MaxFlow.push_adj a u v !!! w =
  if decide (u = w /\ (u < length a)%nat) then a !!! w ++ [v] else a !!! w.
Proof.
  unfold MaxFlow.push_adj. rewrite list_lookup_total_insert.
  destruct (decide _) as [[-> _]|]; done.
Qed.

(** X4: when every call carries a positive capacity between two distinct
    valid nodes and the capacities fit [int] (no arc is given more than
    [INT_MAX] in all), no adjacency list names a node twice: the test in
    [addEdge] lets only the first call on a pair append. *)
Theorem adjacency_no_duplicates n calls u :
  Forall (positive_call n) calls -> calls_fit_int calls ->
  NoDup (MaxFlow.adj (add_edges calls (MaxFlow.new n)) !!! u).
Proof.
  intros Hall _.
  induction calls as [|[[a b] c] calls IH] using rev_ind.
  - change (add_edges [] (MaxFlow.new n)) with (MaxFlow.new n).
    rewrite adj_new. constructor.
  - apply Forall_app in Hall as [Hall Hlast].
    apply Forall_cons in Hlast as [(Hc & Ha & Hb & Hab) _]. simpl in Hc, Ha, Hb, Hab.
    specialize (IH Hall).
    assert (Forall (call_in_range n) calls) as Hrange.
    { eapply Forall_impl; [exact Hall |]. intros x (_ & ? & ? & _). by split. }
    assert (Forall (fun call => 0 < snd call /\ (fst (fst call) < n)%nat
                                /\ (snd (fst call) < n)%nat) calls) as Hpos.
    { eapply Forall_impl; [exact Hall |]. intros x (? & ? & ? & _). auto. }
    rewrite add_edges_snoc. cbn [fst snd]. simpl MaxFlow.adj.
    set (mf := add_edges calls (MaxFlow.new n)) in *.
    destruct (Z.eqb_spec (cell (MaxFlow.capacity mf) a b) 0) as [E1|]; [| done].
    destruct (Z.eqb_spec (cell (MaxFlow.capacity mf) b a) 0) as [E2|]; [| done].
    simpl.
    destruct (add_edges_positive n calls a b Hpos Ha Hb) as [_ Hz1].
    destruct (add_edges_positive n calls b a Hpos Hb Ha) as [_ Hz2].
    apply Hz1 in E1. apply Hz2 in E2.
    assert (existsb (connects a b) calls = false) as Hno
      by (rewrite existsb_connects, E1, E2; done).
    assert (~ In b (MaxFlow.adj mf !!! a)) as Hba.
    { unfold mf. rewrite (in_adj_connects n calls a b Hrange Ha Hb), Hno. done. }
    assert (~ In a (MaxFlow.adj mf !!! b)) as Hab'.
    { unfold mf. rewrite (in_adj_connects n calls b a Hrange Hb Ha),
        (existsb_connects_sym b a), Hno. done. }
    rewrite !push_adj_lookup, length_push_adj.
    destruct (decide (b = u /\ _)) as [[-> _]|_].
    + destruct (decide (a = u /\ _)) as [[-> _]|_]; [done |].
      apply NoDup_app. split; [done |]. split; [| apply NoDup_singleton].
      intros x Hx [->|[]]%list_elem_of_In. apply Hab'. by apply list_elem_of_In.
    + destruct (decide (a = u /\ _)) as [[-> _]|_]; [| done].
      apply NoDup_app. split; [done |]. split; [| apply NoDup_singleton].
      intros x Hx [->|[]]%list_elem_of_In. apply Hba. by apply list_elem_of_In.
Qed.

(** Three calls on two pairs of a three-node engine. *)
Lemma adjacency_no_duplicates_witness :
  NoDup (MaxFlow.adj (add_edges [(0%nat, 1%nat, 3); (1%nat, 0%nat, 4); (0%nat, 2%nat, 1)]
                        (MaxFlow.new 3)) !!! 0%nat).
Proof.
  apply adjacency_no_duplicates.
  - repeat constructor; simpl; lia.
  - unfold calls_fit_int, INT_MIN, INT_MAX.
    split; [repeat constructor; simpl; lia |].
    intros k a b.
    do 4 (destruct k as [|k]; [simpl; repeat destruct (_ && _); lia |]).
    simpl; repeat destruct (_ && _); lia.
Defined.

(** ** Flows, cuts and reachability *)

(** A run that returns has kept the loop invariant, and its last [bfs]
    found no path. *)
Lemma maxflow_inv mf0 source sink fuel flow mf :
  wf_engine mf0 ->
  (source < MaxFlow.n mf0)%nat -> (sink < MaxFlow.n mf0)%nat ->
  MaxFlow.maxflow fuel source sink mf0 = Some (flow, mf) ->
  flow_inv mf0 source sink mf flow /\
  exists k parent parent',
    maxflow_turns k fuel source sink mf0 = Some (mf, parent, flow) /\
    length parent = MaxFlow.n mf0 /\
    MaxFlow.augment fuel mf source sink parent = Some (inl parent').
Proof.
  intros Hwf Hs Ht Hret. unfold MaxFlow.maxflow in Hret.
  destruct (maxflow_while_turns _ _ _ _ _ _ _ _ _ Hret)
    as (k & parent & parent' & _ & Hturns & Hfin).
  destruct (after_turns_inv _ _ mf0 _ _ _ _ _ _ _ _
              (flow_inv_start mf0 source sink Hwf)
              (length_replicate _ _) Hs Ht Hturns) as [Hinv Hlen].
  split; [done |]. by exists k, parent, parent'.
Qed.

(** X5: max-flow/min-cut.  On an engine built from non-negative capacities
    that fit [int] (the two directions of a pair were given at most
    [INT_MAX] in all, and so were the arcs that leave the source), with
    distinct valid source and sink, [maxflow] returns, and the flow it
    returns is the capacity of a cut that separates the source from the
    sink, while no such cut has a smaller capacity. *)
Theorem maxflow_equals_min_cut n calls source sink :
  Forall (valid_call n) calls ->
  (source < n)%nat -> (sink < n)%nat -> sink <> source ->
  (forall u v, (u < n)%nat -> (v < n)%nat ->
     cell (MaxFlow.capacity (add_edges calls (MaxFlow.new n))) u v +
     cell (MaxFlow.capacity (add_edges calls (MaxFlow.new n))) v u <= INT_MAX) ->
  rowsum n (MaxFlow.capacity (add_edges calls (MaxFlow.new n))) source <= INT_MAX ->
  let cap0 := MaxFlow.capacity (add_edges calls (MaxFlow.new n)) in
  exists fuel0 flow mf,
    (forall fuel, (fuel0 <= fuel)%nat ->
       MaxFlow.maxflow fuel source sink (add_edges calls (MaxFlow.new n)) =
         Some (flow, mf)) /\
    0 <= flow <= INT_MAX /\
    (exists X, X source = true /\ X sink = false /\ flow = cut_capacity n cap0 X) /\
    (forall X, X source = true -> X sink = false -> flow <= cut_capacity n cap0 X).
Proof.
  intros Hcalls Hs Ht Hne _ Hrow. cbv zeta.
  pose proof (wf_add_edges n calls Hcalls) as Hwf.
  assert (forall k steps mf parent flow,
            maxflow_turns k steps source sink (add_edges calls (MaxFlow.new n)) =
              Some (mf, parent, flow) -> 0 <= flow <= INT_MAX) as Hint.
  { intros k steps mf parent flow Hturns.
    destruct (run_bounded n calls source sink k steps mf parent flow
                Hcalls Hs Ht Hturns) as [_ Hflow]. lia. }
  set (mf0 := add_edges calls (MaxFlow.new n)) in *.
  assert (MaxFlow.n mf0 = n) as Hn by apply n_add_edges.
  destruct (maxflow_run mf0 source sink Hwf)
    as (fuel0 & flow & mf & k & parent & _ & Hret & Hturns & _); [lia | lia |].
  exists fuel0, flow, mf.
  split; [done |]. split; [by apply (Hint k fuel0 mf parent) |].
  pose proof (maxflow_min_cut mf0 source sink fuel0 flow mf Hwf
                ltac:(lia) ltac:(lia) Hne (Hret fuel0 (Nat.le_refl _))) as H.
  by rewrite Hn in H.
Qed.

(** The diamond: some cut has the capacity of the flow returned. *)
Lemma maxflow_equals_min_cut_witness :
  let cap0 := MaxFlow.capacity (add_edges diamond_calls (MaxFlow.new 4)) in
  exists fuel0 flow mf,
    (forall fuel, (fuel0 <= fuel)%nat ->
       MaxFlow.maxflow fuel 0 3 (add_edges diamond_calls (MaxFlow.new 4)) =
         Some (flow, mf)) /\
    0 <= flow <= INT_MAX /\
    (exists X, X 0%nat = true /\ X 3%nat = false /\ flow = cut_capacity 4 cap0 X) /\
    (forall X, X 0%nat = true -> X 3%nat = false -> flow <= cut_capacity 4 cap0 X).
Proof.
  apply (maxflow_equals_min_cut 4 diamond_calls 0 3).
  - repeat constructor; simpl; lia.
  - lia.
  - lia.
  - lia.
  - intros u v Hu Hv.
    destruct u as [|[|[|[|u]]]]; [| | | | lia];
      (destruct v as [|[|[|[|v]]]]; [| | | | lia]); by vm_compute.
  - by vm_compute.
Defined.

(** X6: on an engine built from non-negative capacities that fit [int]
    (the two directions of a pair were given at most [INT_MAX] in all, and
    so were the arcs that leave the source), [maxflow] returns, and what it
    leaves in the matrix is a flow of the value it returns: the flow on an
    arc is at most the capacity the arc was given and is the opposite of
    the flow on the reverse arc, the flows out of any node other than the
    source and the sink add up to zero, and those out of the source add up
    to the returned value. *)
Theorem maxflow_feasible_flow n calls source sink :
  Forall (valid_call n) calls ->
  (source < n)%nat -> (sink < n)%nat -> sink <> source ->
  (forall u v, (u < n)%nat -> (v < n)%nat ->
     cell (MaxFlow.capacity (add_edges calls (MaxFlow.new n))) u v +
     cell (MaxFlow.capacity (add_edges calls (MaxFlow.new n))) v u <= INT_MAX) ->
  rowsum n (MaxFlow.capacity (add_edges calls (MaxFlow.new n))) source <= INT_MAX ->
  let cap0 := MaxFlow.capacity (add_edges calls (MaxFlow.new n)) in
  exists fuel0 flow mf,
    (forall fuel, (fuel0 <= fuel)%nat ->
       MaxFlow.maxflow fuel source sink (add_edges calls (MaxFlow.new n)) =
         Some (flow, mf)) /\
    let f := net_flow cap0 (MaxFlow.capacity mf) in
    (forall u v, (u < n)%nat -> (v < n)%nat ->
       f u v <= cell cap0 u v /\ f u v = - f v u) /\
    (forall w, (w < n)%nat -> w <> source -> w <> sink -> sumZ (f w) n = 0) /\
    sumZ (f source) n = flow /\ sumZ (f sink) n = - flow /\
    0 <= flow <= INT_MAX.
Proof.
  intros Hcalls Hs Ht Hne _ Hrow. cbv zeta.
  pose proof (wf_add_edges n calls Hcalls) as Hwf.
  assert (forall k steps mf parent flow,
            maxflow_turns k steps source sink (add_edges calls (MaxFlow.new n)) =
              Some (mf, parent, flow) -> 0 <= flow <= INT_MAX) as Hint.
  { intros k steps mf parent flow Hturns.
    destruct (run_bounded n calls source sink k steps mf parent flow
                Hcalls Hs Ht Hturns) as [_ Hflow]. lia. }
  set (mf0 := add_edges calls (MaxFlow.new n)) in *.
  assert (MaxFlow.n mf0 = n) as Hn by apply n_add_edges.
  destruct (maxflow_run mf0 source sink Hwf)
    as (fuel0 & flow & mf & k & parent & _ & Hret & Hturns & _); [lia | lia |].
  exists fuel0, flow, mf. split; [done |].
  destruct (maxflow_inv mf0 source sink fuel0 flow mf Hwf ltac:(lia) ltac:(lia)
              (Hret fuel0 (Nat.le_refl _)))
    as [(Hwf' & Hn' & _ & Hflow & Hsum & Hrows) _].
  rewrite Hn in Hrows.
  assert (forall w, sumZ (net_flow (MaxFlow.capacity mf0) (MaxFlow.capacity mf) w) n =
            rowsum n (MaxFlow.capacity mf0) w - rowsum n (MaxFlow.capacity mf) w) as Hout.
  { intros w. unfold rowsum. rewrite <- sumZ_sub. by apply sumZ_ext. }
  split; [| split; [| split; [| split]]].
  - intros u v Hu Hv. unfold net_flow.
    pose proof (wf_nonneg _ Hwf' u v ltac:(lia) ltac:(lia)).
    specialize (Hsum u v). lia.
  - intros w Hw Hws Hwt. rewrite Hout, Hrows.
    destruct (decide (w = sink)), (decide (w = source)); (done || lia).
  - rewrite Hout, Hrows.
    destruct (decide (source = sink)), (decide (source = source)); (congruence || lia).
  - rewrite Hout, Hrows.
    destruct (decide (sink = sink)), (decide (sink = source)); (congruence || lia).
  - by apply (Hint k fuel0 mf parent).
Qed.

(** The flow on the diamond. *)
Lemma maxflow_feasible_flow_witness :
  let cap0 := MaxFlow.capacity (add_edges diamond_calls (MaxFlow.new 4)) in
  exists fuel0 flow mf,
    (forall fuel, (fuel0 <= fuel)%nat ->
       MaxFlow.maxflow fuel 0 3 (add_edges diamond_calls (MaxFlow.new 4)) =
         Some (flow, mf)) /\
    let f := net_flow cap0 (MaxFlow.capacity mf) in
    (forall u v, (u < 4)%nat -> (v < 4)%nat ->
       f u v <= cell cap0 u v /\ f u v = - f v u) /\
    (forall w, (w < 4)%nat -> w <> 0%nat -> w <> 3%nat -> sumZ (f w) 4 = 0) /\
    sumZ (f 0%nat) 4 = flow /\ sumZ (f 3%nat) 4 = - flow /\
    0 <= flow <= INT_MAX.
Proof.
  apply (maxflow_feasible_flow 4 diamond_calls 0 3).
  - repeat constructor; simpl; lia.
  - lia.
  - lia.
  - lia.
  - intros u v Hu Hv.
    destruct u as [|[|[|[|u]]]]; [| | | | lia];
      (destruct v as [|[|[|[|v]]]]; [| | | | lia]); by vm_compute.
  - by vm_compute.
Defined.

(** With the sink equal to the source the first [bfs] already fails. *)
Lemma same_node_zero mf source fuel :
  wf_engine mf -> (source < MaxFlow.n mf)%nat -> (MaxFlow.n mf + 2 <= fuel)%nat ->
  MaxFlow.maxflow fuel source source mf = Some (0, mf).
Proof.
  intros Hwf Hs Hfuel.
  unfold MaxFlow.maxflow. destruct fuel as [|fuel']; [lia |].
  set (fuel := S fuel') in *. unfold fuel at 1. simpl.
  assert (length (replicate (MaxFlow.n mf) 0) = MaxFlow.n mf) as Hlen
    by apply length_replicate.
  destruct (augment_returns fuel mf source source _ Hwf Hlen) as [r Hr];
    [lia | lia | lia |].
  rewrite Hr. destruct r as [p|[[mf' pf] p]]; [done |].
  apply augment_spec in Hr as (_ & _ & _ & _ & _ & Hne & _); (done || lia).
Qed.

(** X7: with the sink equal to the source [maxflow] returns 0 and leaves the
    engine as it was: [bfs] never meets the source again, so it finds no
    path. *)
Theorem maxflow_same_node n calls source fuel :
  Forall (valid_call n) calls -> (source < n)%nat -> (n + 2 <= fuel)%nat ->
  MaxFlow.maxflow fuel source source (add_edges calls (MaxFlow.new n)) =
    Some (0, add_edges calls (MaxFlow.new n)).
Proof.
  intros Hcalls Hs Hfuel.
  pose proof (wf_add_edges n calls Hcalls) as Hwf.
  pose proof (n_add_edges calls (MaxFlow.new n)) as Hn. simpl in Hn.
  apply same_node_zero; (done || lia).
Qed.

(** Source and sink both node 0 of the diamond. *)
Lemma maxflow_same_node_witness :
  MaxFlow.maxflow 6 0 0 (add_edges diamond_calls (MaxFlow.new 4)) =
    Some (0, add_edges diamond_calls (MaxFlow.new 4)).
Proof.
  apply maxflow_same_node.
  - repeat constructor; simpl; lia.
  - lia.
  - lia.
Defined.

(** From a discovered node, [bfs] having found no path, every node a
    residual path reaches is discovered. *)
Lemma closed_residual_path n cap (parent : list Z) x y :
  (forall a b, (a < n)%nat -> (b < n)%nat ->
     parent !!! a <> -1 -> 0 < cell cap a b -> parent !!! b <> -1) ->
  residual_path n cap x y -> parent !!! x <> -1 -> parent !!! y <> -1.
Proof.
  intros Hcl. induction 1 as [|a b c Ha Hb Hpos _ IH]; [done |].
  intros Hpa. apply IH. by apply (Hcl a b).
Qed.

(** X8: in every state of a run [bfs] returns, and it returns true exactly
    when the sink is not the source and a path of arcs with residual
    capacity leads from the source to the sink; the [parent] vector then
    records such a path, which meets no node twice. *)
Theorem bfs_finds_residual_path n calls source sink k steps mf parent flow fuel :
  Forall (valid_call n) calls -> (source < n)%nat -> (sink < n)%nat ->
  maxflow_turns k steps source sink (add_edges calls (MaxFlow.new n)) =
    Some (mf, parent, flow) ->
  (n + 2 <= fuel)%nat ->
  exists b parent',
    MaxFlow.bfs fuel mf source sink parent = Some (b, parent') /\
    (b = true <->
     sink <> source /\ residual_path n (MaxFlow.capacity mf) source sink) /\
    (b = true ->
     exists l, chain parent' source sink l /\ NoDup l /\
       Forall (fun a => 0 < cell (MaxFlow.capacity mf) (fst a) (snd a)) (arcs l)).
Proof.
  intros Hcalls Hs Ht Hturns Hfuel.
  pose proof (wf_add_edges n calls Hcalls) as Hwf0.
  set (mf0 := add_edges calls (MaxFlow.new n)) in *.
  assert (MaxFlow.n mf0 = n) as Hn by apply n_add_edges.
  unfold maxflow_turns in Hturns.
  destruct (after_turns_inv _ _ mf0 _ _ _ _ _ _ _ _
              (flow_inv_start mf0 source sink Hwf0)
              (length_replicate _ _) ltac:(lia) ltac:(lia) Hturns)
    as [(Hwf & Hn' & _) Hlen].
  assert (MaxFlow.n mf = n) as Hnm by lia.
  destruct (bfs_returns fuel mf source sink parent Hwf ltac:(lia) ltac:(lia))
    as [[b parent'] Hbfs].
  exists b, parent'. split; [done |].
  destruct (bfs_spec fuel mf source sink parent b parent' Hwf ltac:(lia) ltac:(lia)
              ltac:(lia) Hbfs)
    as (Htree & Htrue & Hfalse).
  rewrite Hnm in *.
  assert (b = true ->
    exists l, chain parent' source sink l /\ NoDup l /\
      Forall (fun x => (x < n)%nat) l /\
      Forall (fun a => 0 < cell (MaxFlow.capacity mf) (fst a) (snd a)) (arcs l)) as Hpath.
  { intros Hb. destruct (Htrue Hb) as [Hpt _].
    destruct Htree as (_ & _ & _ & Hch). by apply Hch. }
  split; [split |].
  - intros Hb. destruct (Htrue Hb) as [_ Hne]. split; [done |].
    destruct (Hpath Hb) as (l & Hc & _ & Hl & Hpos).
    by apply (chain_residual_path _ _ parent' _ _ l).
  - intros [Hne Hrp]. destruct b; [done |]. exfalso.
    destruct (Hfalse eq_refl) as [Hpt Hcl].
    destruct Htree as (_ & _ & Hps & _).
    apply (closed_residual_path n _ parent' source sink Hcl Hrp); [lia |].
    by apply Hpt.
  - intros Hb. destruct (Hpath Hb) as (l & Hc & Hnd & _ & Hpos). eauto.
Qed.

(** The first [bfs] on the diamond. *)
Lemma bfs_finds_residual_path_witness :
  exists b parent',
    MaxFlow.bfs 6 (add_edges diamond_calls (MaxFlow.new 4)) 0 3 (replicate 4 0) =
      Some (b, parent') /\
    (b = true <->
     3%nat <> 0%nat /\
     residual_path 4 (MaxFlow.capacity (add_edges diamond_calls (MaxFlow.new 4))) 0 3) /\
    (b = true ->
     exists l, chain parent' 0 3 l /\ NoDup l /\
       Forall (fun a =>
         0 < cell (MaxFlow.capacity (add_edges diamond_calls (MaxFlow.new 4)))
               (fst a) (snd a)) (arcs l)).
Proof.
  apply (bfs_finds_residual_path 4 diamond_calls 0 3 0 6 _ _ 0 6).
  - repeat constructor; simpl; lia.
  - lia.
  - lia.
  - reflexivity.
  - lia.
Defined.

(** X9: when no path of arcs with positive capacity leads from the source
    to the sink of the engine as built, [maxflow] returns 0 and leaves the
    engine as it was. *)
Theorem disconnected_flow_zero n calls source sink fuel :
  Forall (valid_call n) calls -> (source < n)%nat -> (sink < n)%nat ->
  ~ residual_path n (MaxFlow.capacity (add_edges calls (MaxFlow.new n))) source sink ->
  (n + 2 <= fuel)%nat ->
  MaxFlow.maxflow fuel source sink (add_edges calls (MaxFlow.new n)) =
    Some (0, add_edges calls (MaxFlow.new n)).
Proof.
  intros Hcalls Hs Ht Hno Hfuel.
  pose proof (wf_add_edges n calls Hcalls) as Hwf.
  set (mf0 := add_edges calls (MaxFlow.new n)) in *.
  assert (MaxFlow.n mf0 = n) as Hn by apply n_add_edges.
  apply unreachable_flow_zero; try done; try lia. by rewrite Hn.
Qed.

(** Three nodes and no edge. *)
Lemma disconnected_flow_zero_witness :
  MaxFlow.maxflow 5 0 2 (add_edges [] (MaxFlow.new 3)) =
    Some (0, add_edges [] (MaxFlow.new 3)).
Proof.
  apply disconnected_flow_zero.
  - constructor.
  - lia.
  - lia.
  - intros H. inversion H as [|x y z Hx Hy Hpos _]; subst.
    change (MaxFlow.capacity _) with (replicate 3%nat (replicate 3%nat 0)) in Hpos.
    rewrite cell_new in Hpos; lia.
  - lia.
Defined.

(** Every turn of the loop adds at least one unit of flow. *)
Lemma after_turns_count k : forall steps mf source sink parent flow mf' parent' flow',
  wf_engine mf -> length parent = MaxFlow.n mf ->
  (source < MaxFlow.n mf)%nat -> (sink < MaxFlow.n mf)%nat ->
  after_turns k steps mf source sink parent flow = Some (mf', parent', flow') ->
  flow + Z.of_nat k <= flow'.
Proof.
  induction k as [|k IH]; intros steps mf source sink parent flow mf' parent' flow'
    Hwf Hlen Hs Ht Hrun.
  - simpl in Hrun. injection Hrun as <- <- <-. lia.
  - simpl in Hrun.
    destruct (MaxFlow.augment steps mf source sink parent) as [[p|[[mf1 pf] p1]]|] eqn:Ha;
      try done.
    destruct (augment_spec _ _ _ _ _ _ _ _ Hwf Hlen Hs Ht Ha)
      as (Hwf1 & Hn1 & _ & Hlen1 & Hpf & _).
    apply IH in Hrun; [lia | done | lia | lia | lia].
Qed.

(** X10: on an engine built from non-negative capacities that fit [int]
    (the two directions of a pair were given at most [INT_MAX] in all, and
    so were the arcs that leave the source), the number of augmentations a
    run has made is at most the flow it has gathered, which is at most the
    capacity given to the arcs that leave the source, so the loop of
    [maxflow] takes at most that many turns. *)
Theorem augmentations_bounded n calls source sink k steps mf parent flow :
  Forall (valid_call n) calls -> (source < n)%nat -> (sink < n)%nat ->
  (forall u v, (u < n)%nat -> (v < n)%nat ->
     cell (MaxFlow.capacity (add_edges calls (MaxFlow.new n))) u v +
     cell (MaxFlow.capacity (add_edges calls (MaxFlow.new n))) v u <= INT_MAX) ->
  rowsum n (MaxFlow.capacity (add_edges calls (MaxFlow.new n))) source <= INT_MAX ->
  maxflow_turns k steps source sink (add_edges calls (MaxFlow.new n)) =
    Some (mf, parent, flow) ->
  Z.of_nat k <= flow <=
    rowsum n (MaxFlow.capacity (add_edges calls (MaxFlow.new n))) source /\
  flow <= INT_MAX.
Proof.
  intros Hcalls Hs Ht _ Hrow Hrun.
  enough (Z.of_nat k <= flow <=
            rowsum n (MaxFlow.capacity (add_edges calls (MaxFlow.new n))) source)
    as H by (split; [done | lia]).
  destruct (run_bounded n calls source sink k steps mf parent flow Hcalls Hs Ht Hrun)
    as [_ Hflow].
  pose proof (wf_add_edges n calls Hcalls) as Hwf.
  pose proof (n_add_edges calls (MaxFlow.new n)) as Hn. simpl in Hn.
  unfold maxflow_turns in Hrun.
  apply after_turns_count in Hrun;
    [lia | done | apply length_replicate | lia | lia].
Qed.

(** The two augmentations on the diamond. *)
Lemma augmentations_bounded_witness :
  exists mf parent,
    maxflow_turns 2 6 0 3 (add_edges diamond_calls (MaxFlow.new 4)) =
      Some (mf, parent, 4) /\
    (Z.of_nat 2 <= 4 <=
       rowsum 4 (MaxFlow.capacity (add_edges diamond_calls (MaxFlow.new 4))) 0 /\
     4 <= INT_MAX).
Proof.
  eexists _, _. split; [vm_compute; reflexivity |].
  eapply (augmentations_bounded 4 diamond_calls 0 3 2 6).
  - repeat constructor; simpl; lia.
  - lia.
  - lia.
  - intros u v Hu Hv.
    destruct u as [|[|[|[|u]]]]; [| | | | lia];
      (destruct v as [|[|[|[|v]]]]; [| | | | lia]); by vm_compute.
  - by vm_compute.
  - vm_compute. reflexivity.
Defined.

(** An engine [maxflow] has returned from holds no augmenting path. *)
Lemma spent_engine mf0 source sink fuel flow mf fuel' :
  wf_engine mf0 ->
  (source < MaxFlow.n mf0)%nat -> (sink < MaxFlow.n mf0)%nat ->
  MaxFlow.maxflow fuel source sink mf0 = Some (flow, mf) ->
  (MaxFlow.n mf0 + 2 <= fuel')%nat ->
  MaxFlow.maxflow fuel' source sink mf = Some (0, mf).
Proof.
  intros Hwf0 Hs Ht Hret Hfuel.
  destruct (maxflow_inv mf0 source sink fuel flow mf Hwf0 Hs Ht Hret)
    as [(Hwf & Hn & _) (k & parent & parent' & _ & Hlen & Hlast)].
  destruct (decide (sink = source)) as [->|Hne].
  - apply same_node_zero; (done || lia).
  - apply unreachable_flow_zero; try done; try lia.
    apply (no_residual_path fuel mf source sink parent parent'); (done || lia).
Qed.

(** X11: [maxflow] uses the engine up: a second call with the same source
    and sink, on the engine the first call left, returns 0 and changes
    nothing. *)
Theorem maxflow_again_zero n calls source sink fuel flow mf fuel' :
  Forall (valid_call n) calls -> (source < n)%nat -> (sink < n)%nat ->
  MaxFlow.maxflow fuel source sink (add_edges calls (MaxFlow.new n)) = Some (flow, mf) ->
  (n + 2 <= fuel')%nat ->
  MaxFlow.maxflow fuel' source sink mf = Some (0, mf).
Proof.
  intros Hcalls Hs Ht Hret Hfuel.
  pose proof (wf_add_edges n calls Hcalls) as Hwf.
  pose proof (n_add_edges calls (MaxFlow.new n)) as Hn. simpl in Hn.
  apply (spent_engine _ source sink fuel flow mf fuel' Hwf); (done || lia).
Qed.

(** The diamond after its flow of 4. *)
Lemma maxflow_again_zero_witness :
  exists mf,
    MaxFlow.maxflow 6 0 3 (add_edges diamond_calls (MaxFlow.new 4)) = Some (4, mf) /\
    MaxFlow.maxflow 6 0 3 mf = Some (0, mf).
Proof.
  eexists. split; [vm_compute; reflexivity |].
  eapply (maxflow_again_zero 4 diamond_calls 0 3 6 4).
  - repeat constructor; simpl; lia.
  - lia.
  - lia.
  - vm_compute. reflexivity.
  - lia.
Defined.

(** ** The list [solve] returns *)

(** Whether the corridor map holds the key [k]. *)
Lemma corridor_key_dec (k : nat * nat) (m : list ((nat * nat) * Z)) :
  (exists c, In (k, c) m) \/ (forall c, ~ In (k, c) m).
Proof.
  induction m as [|[k' c'] m IH].
  - right. by intros c [].
  - destruct (decide (k' = k)) as [->|Hne]; [left; exists c'; by left |].
    destruct IH as [[c Hc]|Hno]; [left; exists c; by right |].
    right. intros c [[= ? ?]|Hin]; [done |]. by apply (Hno c).
Qed.

(** The engine [solve] builds is symmetric, and holds capacity only where
    the map has a corridor. *)
Lemma network_symmetric w a b :
  corridors_ok w ->
  (a < WildlifeCorridorNetwork.numHabitats w)%nat ->
  (b < WildlifeCorridorNetwork.numHabitats w)%nat ->
  cell (MaxFlow.capacity (WildlifeCorridorNetwork.network w)) a b =
  cell (MaxFlow.capacity (WildlifeCorridorNetwork.network w)) b a.
Proof.
  intros [Hsorted Hkeys] Ha Hb.
  destruct (network_cells _ _ Hsorted Hkeys) as [Hin Hout].
  unfold WildlifeCorridorNetwork.network.
  destruct (corridor_key_dec (a, b) (WildlifeCorridorNetwork.corridorCapacity w))
    as [[c Hc]|Hab].
  { destruct (Hin _ _ _ Hc) as [-> ->]. done. }
  destruct (corridor_key_dec (b, a) (WildlifeCorridorNetwork.corridorCapacity w))
    as [[c Hc]|Hba].
  { destruct (Hin _ _ _ Hc) as [-> ->]. done. }
  by rewrite !Hout.
Qed.

(** X12: the list [solve] returns holds a corridor [{i, j}] of capacity [c]
    with the amount [c] plus the flow from [i] to [j], which lies between 1
    and [2 * c], and leaves out only the corridors that carry [c] from [j]
    to [i]; it reports nothing but corridors of the map. *)
Theorem solve_reports_corridors fuel w flow used w1 :
  corridors_ok w ->
  (forall k c, In (k, c) (WildlifeCorridorNetwork.corridorCapacity w) -> 0 <= c) ->
  (WildlifeCorridorNetwork.sourceHabitat w < WildlifeCorridorNetwork.numHabitats w)%nat ->
  (WildlifeCorridorNetwork.targetHabitat w < WildlifeCorridorNetwork.numHabitats w)%nat ->
  WildlifeCorridorNetwork.solve fuel w = Some ((flow, used), w1) ->
  exists mf,
    MaxFlow.maxflow fuel (WildlifeCorridorNetwork.sourceHabitat w)
      (WildlifeCorridorNetwork.targetHabitat w)
      (WildlifeCorridorNetwork.network w) = Some (flow, mf) /\
    forall i j x,
      In ((i, j), x) used <->
      exists c, In ((i, j), c) (WildlifeCorridorNetwork.corridorCapacity w) /\
        x = c + net_flow (MaxFlow.capacity (WildlifeCorridorNetwork.network w))
                  (MaxFlow.capacity mf) i j /\
        0 < x <= 2 * c.
Proof.
  intros Hok Hnonneg Hs Ht Hsolve.
  pose proof (wf_network w Hok Hnonneg) as Hwf0.
  assert (MaxFlow.n (WildlifeCorridorNetwork.network w) =
          WildlifeCorridorNetwork.numHabitats w) as Hn
    by apply n_add_corridors.
  unfold WildlifeCorridorNetwork.solve in Hsolve.
  destruct (MaxFlow.maxflow fuel _ _ _) as [[flow' mf]|] eqn:Hret; [| done].
  injection Hsolve as -> <- _.
  exists mf. split; [done |].
  assert (WildlifeCorridorNetwork.sourceHabitat w <
          MaxFlow.n (WildlifeCorridorNetwork.network w))%nat as Hs' by lia.
  assert (WildlifeCorridorNetwork.targetHabitat w <
          MaxFlow.n (WildlifeCorridorNetwork.network w))%nat as Ht' by lia.
  destruct (maxflow_inv _ _ _ _ _ _ Hwf0 Hs' Ht' Hret)
    as [(Hwf & Hn' & _ & _ & Hsum & _) _].
  destruct Hok as [Hsorted Hkeys].
  destruct (network_cells _ _ Hsorted Hkeys) as [Hin Hout].
  fold (WildlifeCorridorNetwork.network w) in Hin, Hout.
  intros i j x. rewrite in_getUsedCorridors. unfold net_flow. split.
  - intros (Hij & -> & Hpos).
    pose proof (wf_nonneg _ Hwf i j ltac:(lia) ltac:(lia)) as Hnn.
    specialize (Hsum i j).
    destruct (corridor_key_dec (i, j) (WildlifeCorridorNetwork.corridorCapacity w))
      as [[c Hc]|Hno].
    + exists c. split; [done |]. destruct (Hin _ _ _ Hc) as [Hij' Hji']. lia.
    + exfalso.
      assert (forall c, ~ In ((j, i), c) (WildlifeCorridorNetwork.corridorCapacity w))
        as Hno'.
      { intros c Hc. apply Hkeys in Hc. lia. }
      rewrite (Hout i j), (Hout j i) in Hsum; (done || lia).
  - intros (c & Hc & -> & Hpos).
    destruct (Hin _ _ _ Hc) as [Hij' Hji']. specialize (Hsum i j).
    split; [by apply (Hkeys i j c) |]. lia.
Qed.

(** The two-node network: its corridor of capacity 5 carries 5 and is
    reported with 10. *)
Lemma solve_reports_corridors_witness :
  exists mf,
    MaxFlow.maxflow 3 (WildlifeCorridorNetwork.sourceHabitat two_node_network)
      (WildlifeCorridorNetwork.targetHabitat two_node_network)
      (WildlifeCorridorNetwork.network two_node_network) = Some (5, mf) /\
    forall i j x,
      In ((i, j), x) [((0, 1)%nat, 10)] <->
      exists c, In ((i, j), c) (WildlifeCorridorNetwork.corridorCapacity two_node_network) /\
        x = c + net_flow (MaxFlow.capacity (WildlifeCorridorNetwork.network two_node_network))
                  (MaxFlow.capacity mf) i j /\
        0 < x <= 2 * c.
Proof.
  apply (solve_reports_corridors 3 two_node_network 5 [((0, 1)%nat, 10)] two_node_network).
  - split; [vm_compute; repeat constructor |].
    intros i j c Hin. vm_compute in Hin.
    destruct Hin as [[= <- <- <-]|[]].
    assert (WildlifeCorridorNetwork.numHabitats two_node_network = 2%nat) as ->
      by (vm_compute; reflexivity).
    lia.
  - intros k c Hin. vm_compute in Hin. destruct Hin as [[= <- <-]|[]]. lia.
  - vm_compute. lia.
  - vm_compute. lia.
  - vm_compute. reflexivity.
Defined.

(** ** [buildCorridorNetwork] on a map that holds corridors *)

Lemma key_eqb_eq a b : key_eqb a b = true <-> a = b.
Proof.
  unfold key_eqb. destruct a as [a1 a2], b as [b1 b2]. simpl.
  rewrite andb_true_iff, !Nat.eqb_eq. split; [intros [-> ->]; done | by intros [= -> ->]].
Qed.

Lemma key_lt_trans a b c : key_lt a b -> key_lt b c -> key_lt a c.
Proof.
  unfold key_lt, key_ltb. destruct a as [a1 a2], b as [b1 b2], c as [c1 c2]. simpl.
  rewrite !orb_true_iff, !andb_true_iff, !Nat.ltb_lt, !Nat.eqb_eq. lia.
Qed.

Lemma key_lt_total a b : key_eqb a b = false -> key_ltb a b = false -> key_lt b a.
Proof.
  unfold key_lt, key_ltb, key_eqb. destruct a as [a1 a2], b as [b1 b2]. simpl.
  rewrite !orb_true_iff, !andb_true_iff, !orb_false_iff, !andb_false_iff,
    !Nat.ltb_lt, !Nat.ltb_ge, !Nat.eqb_eq, !Nat.eqb_neq. lia.
Qed.

(** A key below every key of the map is not in the map. *)
Lemma key_below_absent k x (m : list ((nat * nat) * Z)) :
  Forall (key_lt k) (map fst m) -> ~ In (k, x) m.
Proof.
  intros Hall Hin. rewrite List.Forall_forall in Hall.
  apply (key_lt_irrefl k), Hall. apply in_map_iff. by exists (k, x).
Qed.

(** [m[k] = x] on an ordered map: the entry of [k] becomes [x], the other
    entries stay. *)
Lemma map_assign_in k x m k' x' :
  StronglySorted key_lt (map fst m) ->
  In (k', x') (map_assign k x m) <->
  (k' = k /\ x' = x) \/ (k' <> k /\ In (k', x') m).
Proof.
  induction m as [|[k0 x0] m IH]; intros Hs; simpl.
  - split; [intros [[= <- <-]|[]]; by left | intros [[-> ->]|[_ []]]; by left].
  - inversion Hs as [|? ? Hs' Hall]; subst.
    destruct (key_eqb k k0) eqn:Heq.
    + apply key_eqb_eq in Heq as <-. simpl. split.
      * intros [[= <- <-]|Hin]; [by left |]. right. split; [| by right].
        intros ->. by apply (key_below_absent k x' m).
      * intros [[-> ->]|[Hne [[= ? ?]|Hin]]]; [by left | done | by right].
    + destruct (key_ltb k k0) eqn:Hlt.
      * simpl. split.
        -- intros [[= <- <-]|Hin]; [by left |]. right. split; [| done].
           intros ->. destruct Hin as [[= -> ->]|Hin].
           ++ exact (key_lt_irrefl _ Hlt).
           ++ apply (key_below_absent k x' m); [| done].
              eapply Forall_impl; [exact Hall |]. intros y Hy.
              by apply (key_lt_trans k k0 y).
        -- intros [[-> ->]|[Hne Hin]]; [by left | by right].
      * simpl. rewrite (IH Hs'). split.
        -- intros [[= <- <-]|[[-> ->]|[Hne Hin]]].
           ++ right. split; [| by left]. intros Hk. subst.
              rewrite (proj2 (key_eqb_eq _ _) eq_refl) in Heq. done.
           ++ by left.
           ++ right. split; [done | by right].
        -- intros [[-> ->]|[Hne [[= <- <-]|Hin]]].
           ++ right. by left.
           ++ by left.
           ++ right. right. done.
Qed.

Lemma map_assign_keys k x m k' :
  In k' (map fst (map_assign k x m)) <-> k' = k \/ In k' (map fst m).
Proof.
  induction m as [|[k0 x0] m IH]; simpl.
  - split; [intros [<-|[]]; by left | intros [->|[]]; by left].
  - destruct (key_eqb k k0) eqn:Heq.
    + apply key_eqb_eq in Heq as <-. simpl. intuition congruence.
    + destruct (key_ltb k k0); simpl; [intuition congruence |].
      rewrite IH. intuition congruence.
Qed.

(** [m[k] = x] keeps the map ordered. *)
Lemma map_assign_sorted k x m :
  StronglySorted key_lt (map fst m) ->
  StronglySorted key_lt (map fst (map_assign k x m)).
Proof.
  induction m as [|[k0 x0] m IH]; intros Hs; simpl.
  - repeat constructor.
  - inversion Hs as [|? ? Hs' Hall]; subst.
    destruct (key_eqb k k0) eqn:Heq.
    + apply key_eqb_eq in Heq as <-. done.
    + destruct (key_ltb k k0) eqn:Hlt.
      * simpl. constructor; [done |]. constructor; [done |].
        eapply Forall_impl; [exact Hall |]. intros y Hy.
        by apply (key_lt_trans k k0 y).
      * simpl. constructor; [by apply IH |].
        apply List.Forall_forall. intros y Hy.
        apply map_assign_keys in Hy as [->|Hy].
        -- apply key_lt_total; [| done].
           destruct (key_eqb k0 k) eqn:Heq'; [| done].
           apply key_eqb_eq in Heq' as ->.
           by rewrite (proj2 (key_eqb_eq k k) eq_refl) in Heq.
        -- rewrite List.Forall_forall in Hall. by apply Hall.
Qed.

(** Assigning to a key the value it has changes nothing. *)
Lemma map_assign_same k x m :
  StronglySorted key_lt (map fst m) -> In (k, x) m -> map_assign k x m = m.
Proof.
  induction m as [|[k0 x0] m IH]; intros Hs Hin; [done |]. simpl.
  inversion Hs as [|? ? Hs' Hall]; subst.
  destruct Hin as [[= -> ->]|Hin].
  - by rewrite (proj2 (key_eqb_eq k k) eq_refl).
  - assert (key_lt k0 k) as Hlt.
    { rewrite List.Forall_forall in Hall. apply Hall.
      apply in_map_iff. by exists (k, x). }
    rewrite (key_lt_neq _ _ Hlt), (key_lt_asym _ _ Hlt), IH; done.
Qed.

(** One turn of the inner loop of [buildCorridorNetwork], on a map that may
    hold corridors already. *)
Lemma visit_map maxDist w k0 :
  StronglySorted key_lt (map fst (WildlifeCorridorNetwork.corridorCapacity w)) ->
  let f := WildlifeCorridorNetwork.calculateCorridorCapacity w (fst k0) (snd k0) maxDist in
  let w' := visit maxDist w k0 in
  StronglySorted key_lt (map fst (WildlifeCorridorNetwork.corridorCapacity w')) /\
  forall k c, In (k, c) (WildlifeCorridorNetwork.corridorCapacity w') <->
    (k = k0 /\ 0 < f /\ c = f) \/
    (In (k, c) (WildlifeCorridorNetwork.corridorCapacity w) /\ ~ (k = k0 /\ 0 < f)).
Proof.
  intros Hs. cbv zeta. unfold visit.
  destruct (Z.ltb_spec 0
    (WildlifeCorridorNetwork.calculateCorridorCapacity w (fst k0) (snd k0) maxDist))
    as [Hpos|Hle]; simpl.
  - split; [by apply map_assign_sorted |]. intros k c.
    rewrite map_assign_in by done. intuition.
  - split; [done |]. intros k c. intuition lia.
Qed.

Lemma visit_cases (E A P P0 C C0 M : Prop) :
  E \/ ~ E -> A \/ ~ A -> P \/ ~ P -> (E -> (P <-> P0) /\ (C <-> C0)) ->
  (A /\ P /\ C) \/ (((E /\ P0 /\ C0) \/ (M /\ ~ (E /\ P0))) /\ ~ (A /\ P)) <->
  ((E \/ A) /\ P /\ C) \/ (M /\ ~ ((E \/ A) /\ P)).
Proof. tauto. Qed.

(** The corridor map after the loops have visited the pairs [ks], whatever
    it held before. *)
Lemma fold_visit_map maxDist ks : forall w,
  StronglySorted key_lt (map fst (WildlifeCorridorNetwork.corridorCapacity w)) ->
  let f := fun k : nat * nat =>
    WildlifeCorridorNetwork.calculateCorridorCapacity w (fst k) (snd k) maxDist in
  let w' := fold_left (visit maxDist) ks w in
  StronglySorted key_lt (map fst (WildlifeCorridorNetwork.corridorCapacity w')) /\
  forall k c, In (k, c) (WildlifeCorridorNetwork.corridorCapacity w') <->
    (In k ks /\ 0 < f k /\ c = f k) \/
    (In (k, c) (WildlifeCorridorNetwork.corridorCapacity w) /\ ~ (In k ks /\ 0 < f k)).
Proof.
  induction ks as [|k0 ks IH]; intros w Hs; cbv zeta.
  - simpl. split; [done |]. intros k c. tauto.
  - cbn [fold_left].
    destruct (visit_map maxDist w k0 Hs) as [Hs1 Hone].
    destruct (visit_frame maxDist w k0) as (_ & Hlocs & _).
    destruct (IH (visit maxDist w k0) Hs1) as [Hs' Hrest].
    split; [done |]. intros k c. rewrite Hrest, Hone.
    rewrite (calculateCorridorCapacity_locations _ _ _ _ _ Hlocs).
    assert (In k (k0 :: ks) <-> k = k0 \/ In k ks) as ->
      by (simpl; intuition congruence).
    apply visit_cases.
    + destruct (decide (k = k0)); tauto.
    + destruct (decide (k ∈ ks)) as [Hin|Hin]; rewrite list_elem_of_In in Hin; tauto.
    + lia.
    + by intros ->.
Qed.

Lemma buildCorridorNetwork_keeps_corridors_aux maxDist w :
  StronglySorted key_lt (map fst (WildlifeCorridorNetwork.corridorCapacity w)) ->
  forall i j c,
    In ((i, j), c)
      (WildlifeCorridorNetwork.corridorCapacity
         (WildlifeCorridorNetwork.buildCorridorNetwork maxDist w)) <->
    ((i < j < WildlifeCorridorNetwork.numHabitats w)%nat /\
     (maxDist <? WildlifeCorridorNetwork.distance w i j)%float = false /\
     c = WildlifeCorridorNetwork.calculateCorridorCapacity w i j maxDist) \/
    (In ((i, j), c) (WildlifeCorridorNetwork.corridorCapacity w) /\
     ~ ((i < j < WildlifeCorridorNetwork.numHabitats w)%nat /\
        (maxDist <? WildlifeCorridorNetwork.distance w i j)%float = false)).
Proof.
  intros Hs i j c. rewrite buildCorridorNetwork_fold.
  destruct (fold_visit_map maxDist
              (all_pairs (WildlifeCorridorNetwork.numHabitats w)) w Hs) as [_ Hin].
  rewrite Hin, in_all_pairs, calculateCorridorCapacity_pos. done.
Qed.

(** X13: [buildCorridorNetwork] on a map that holds corridors already
    overwrites the pairs within reach with the capacity the rule gives them
    and removes nothing: a corridor whose habitats are no longer within
    reach stays in the map with its old capacity. *)
Theorem buildCorridorNetwork_keeps_corridors maxDist w :
  StronglySorted key_lt (map fst (WildlifeCorridorNetwork.corridorCapacity w)) ->
  let n := WildlifeCorridorNetwork.numHabitats w in
  let w' := WildlifeCorridorNetwork.buildCorridorNetwork maxDist w in
  StronglySorted key_lt (map fst (WildlifeCorridorNetwork.corridorCapacity w')) /\
  forall i j c,
    In ((i, j), c) (WildlifeCorridorNetwork.corridorCapacity w') <->
    ((i < j < n)%nat /\
     (maxDist <? WildlifeCorridorNetwork.distance w i j)%float = false /\
     c = WildlifeCorridorNetwork.calculateCorridorCapacity w i j maxDist) \/
    (In ((i, j), c) (WildlifeCorridorNetwork.corridorCapacity w) /\
     ~ ((i < j < n)%nat /\
        (maxDist <? WildlifeCorridorNetwork.distance w i j)%float = false)).
Proof.
  intros Hs. cbv zeta. rewrite buildCorridorNetwork_fold.
  destruct (fold_visit_map maxDist
              (all_pairs (WildlifeCorridorNetwork.numHabitats w)) w Hs) as [Hs' Hin].
  split; [done |]. intros i j c.
  rewrite Hin, in_all_pairs, calculateCorridorCapacity_pos. done.
Qed.

(** A second run that allows 10 km only, on the two-node network with its
    corridor of 77 km. *)
Lemma buildCorridorNetwork_keeps_corridors_witness :
  let w := two_node_network in
  let w' := WildlifeCorridorNetwork.buildCorridorNetwork 10 w in
  StronglySorted key_lt (map fst (WildlifeCorridorNetwork.corridorCapacity w')) /\
  forall i j c,
    In ((i, j), c) (WildlifeCorridorNetwork.corridorCapacity w') <->
    ((i < j < WildlifeCorridorNetwork.numHabitats w)%nat /\
     (10 <? WildlifeCorridorNetwork.distance w i j)%float = false /\
     c = WildlifeCorridorNetwork.calculateCorridorCapacity w i j 10) \/
    (In ((i, j), c) (WildlifeCorridorNetwork.corridorCapacity w) /\
     ~ ((i < j < WildlifeCorridorNetwork.numHabitats w)%nat /\
        (10 <? WildlifeCorridorNetwork.distance w i j)%float = false)).
Proof.
  apply (buildCorridorNetwork_keeps_corridors 10 two_node_network).
  vm_compute. repeat constructor.
Defined.

(** A run changes nothing but the map. *)
Lemma buildCorridorNetwork_frame maxDist w :
  let w' := WildlifeCorridorNetwork.buildCorridorNetwork maxDist w in
  WildlifeCorridorNetwork.numHabitats w' = WildlifeCorridorNetwork.numHabitats w /\
  WildlifeCorridorNetwork.habitatLocations w' = WildlifeCorridorNetwork.habitatLocations w /\
  WildlifeCorridorNetwork.sourceHabitat w' = WildlifeCorridorNetwork.sourceHabitat w /\
  WildlifeCorridorNetwork.targetHabitat w' = WildlifeCorridorNetwork.targetHabitat w.
Proof. cbv zeta. rewrite buildCorridorNetwork_fold. apply fold_visit_frame. Qed.

(** Visiting pairs whose corridors the map holds with the capacity the rule
    gives them changes nothing. *)
Lemma fold_visit_fixed maxDist ks w :
  StronglySorted key_lt (map fst (WildlifeCorridorNetwork.corridorCapacity w)) ->
  (forall k, In k ks ->
     0 < WildlifeCorridorNetwork.calculateCorridorCapacity w (fst k) (snd k) maxDist ->
     In (k, WildlifeCorridorNetwork.calculateCorridorCapacity w (fst k) (snd k) maxDist)
        (WildlifeCorridorNetwork.corridorCapacity w)) ->
  fold_left (visit maxDist) ks w = w.
Proof.
  intros Hs Hall. induction ks as [|k ks IH]; [done |]. cbn [fold_left].
  assert (visit maxDist w k = w) as ->.
  { unfold visit.
    destruct (Z.ltb_spec 0
      (WildlifeCorridorNetwork.calculateCorridorCapacity w (fst k) (snd k) maxDist))
      as [Hpos|]; [| done].
    unfold WildlifeCorridorNetwork.set_corridor.
    rewrite map_assign_same; [by destruct w | done |].
    apply Hall; [by left | done]. }
  apply IH. intros k' Hk'. apply Hall. by right.
Qed.

(** X14: [buildCorridorNetwork] run a second time with the same distance
    changes nothing, whatever the map held before the first run. *)
Theorem buildCorridorNetwork_idempotent maxDist w :
  StronglySorted key_lt (map fst (WildlifeCorridorNetwork.corridorCapacity w)) ->
  WildlifeCorridorNetwork.buildCorridorNetwork maxDist
    (WildlifeCorridorNetwork.buildCorridorNetwork maxDist w) =
  WildlifeCorridorNetwork.buildCorridorNetwork maxDist w.
Proof.
  intros Hs.
  destruct (buildCorridorNetwork_frame maxDist w) as (Hn & Hlocs & _).
  rewrite (buildCorridorNetwork_fold maxDist
             (WildlifeCorridorNetwork.buildCorridorNetwork maxDist w)), Hn.
  set (n := WildlifeCorridorNetwork.numHabitats w) in *.
  assert (WildlifeCorridorNetwork.buildCorridorNetwork maxDist w =
          fold_left (visit maxDist) (all_pairs n) w) as Hfold
    by apply buildCorridorNetwork_fold.
  destruct (fold_visit_map maxDist (all_pairs n) w Hs) as [Hs' Hin].
  rewrite <- Hfold in Hs', Hin.
  apply fold_visit_fixed; [done |].
  intros k Hk Hpos.
  rewrite (calculateCorridorCapacity_locations _ _ _ _ _ Hlocs) in *.
  apply Hin. left. done.
Qed.

(** The network of [main], with its map still empty before the first run. *)
Lemma buildCorridorNetwork_idempotent_witness :
  WildlifeCorridorNetwork.buildCorridorNetwork 35
    (WildlifeCorridorNetwork.buildCorridorNetwork 35 main_network) =
  WildlifeCorridorNetwork.buildCorridorNetwork 35 main_network.
Proof.
  apply buildCorridorNetwork_idempotent. vm_compute. constructor.
Defined.

(** The keys of a map that was ordered and held pairs [i < j] of habitats
    before a run are so after it. *)
Lemma corridors_ok_again maxDist w :
  corridors_ok w ->
  corridors_ok (WildlifeCorridorNetwork.buildCorridorNetwork maxDist w).
Proof.
  intros [Hs Hkeys].
  destruct (buildCorridorNetwork_frame maxDist w) as (Hn & _).
  rewrite buildCorridorNetwork_fold in *.
  destruct (fold_visit_map maxDist
              (all_pairs (WildlifeCorridorNetwork.numHabitats w)) w Hs) as [Hs' Hin].
  split; [done |]. intros i j c Hc. rewrite Hn.
  apply Hin in Hc as [(Hk & _)|[Hc _]];
    [by apply in_all_pairs in Hk | by apply (Hkeys i j c)].
Qed.

Lemma length_all_pairs_from n m a :
  (a + m = n)%nat ->
  (2 * length (flat_map (fun i => map (pair i) (seq (S i) (n - S i))) (seq a m)) =
   m * (m - 1))%nat.
Proof.
  revert a. induction m as [|m IH]; intros a Hn; [done |].
  cbn [seq flat_map]. rewrite length_app, length_map, length_seq.
  specialize (IH (S a) ltac:(lia)). nia.
Qed.

(** There are [n (n - 1) / 2] pairs [i < j] below [n]. *)
Lemma length_all_pairs n : (2 * length (all_pairs n) = n * (n - 1))%nat.
Proof. apply length_all_pairs_from. lia. Qed.

(** X15: [getNumCorridors] counts each pair of habitats at most once, so it
    never exceeds [n (n - 1) / 2] for [n] habitats, however often
    [buildCorridorNetwork] has run and with whatever distances. *)
Theorem getNumCorridors_bound maxDist w :
  corridors_ok w ->
  (2 * WildlifeCorridorNetwork.getNumCorridors
         (WildlifeCorridorNetwork.buildCorridorNetwork maxDist w) <=
   WildlifeCorridorNetwork.numHabitats w * (WildlifeCorridorNetwork.numHabitats w - 1))%nat.
Proof.
  intros Hok. apply (corridors_ok_again maxDist) in Hok as [Hs Hkeys].
  destruct (buildCorridorNetwork_frame maxDist w) as (Hn & _).
  rewrite Hn in Hkeys. unfold WildlifeCorridorNetwork.getNumCorridors.
  rewrite <- length_all_pairs.
  rewrite <- (length_map fst).
  apply Nat.mul_le_mono_l.
  apply NoDup_incl_length.
  - apply NoDup_ListNoDup. by apply sorted_NoDup.
  - intros [i j] Hin. apply in_map_iff in Hin as ([k c] & [= ->] & Hin).
    apply in_all_pairs. by apply (Hkeys i j c).
Qed.

(** The network of [main] after runs with 35 and then with 20 km. *)
Lemma getNumCorridors_bound_witness :
  (2 * WildlifeCorridorNetwork.getNumCorridors
         (WildlifeCorridorNetwork.buildCorridorNetwork 20
            (WildlifeCorridorNetwork.buildCorridorNetwork 35 main_network)) <=
   WildlifeCorridorNetwork.numHabitats
     (WildlifeCorridorNetwork.buildCorridorNetwork 35 main_network) *
   (WildlifeCorridorNetwork.numHabitats
     (WildlifeCorridorNetwork.buildCorridorNetwork 35 main_network) - 1))%nat.
Proof.
  apply getNumCorridors_bound.
  split; [vm_compute; repeat constructor |].
  intros i j c Hin.
  assert (WildlifeCorridorNetwork.numHabitats
            (WildlifeCorridorNetwork.buildCorridorNetwork 35 main_network) = 6%nat) as ->
    by (vm_compute; reflexivity).
  vm_compute in Hin.
  repeat (destruct Hin as [[= <- <- <-]|Hin]; [lia |]). destruct Hin.
Defined.

(** X16: on a network as the class builds it, with source and target among
    its habitats, [solve] returns after [buildCorridorNetwork], and leaves
    the network as it was. *)
Theorem build_then_solve maxDist w :
  corridors_ok w ->
  (forall k c, In (k, c) (WildlifeCorridorNetwork.corridorCapacity w) -> 0 <= c) ->
  (WildlifeCorridorNetwork.sourceHabitat w < WildlifeCorridorNetwork.numHabitats w)%nat ->
  (WildlifeCorridorNetwork.targetHabitat w < WildlifeCorridorNetwork.numHabitats w)%nat ->
  exists fuel0 r, forall fuel, (fuel0 <= fuel)%nat ->
    WildlifeCorridorNetwork.solve fuel
      (WildlifeCorridorNetwork.buildCorridorNetwork maxDist w) =
    Some (r, WildlifeCorridorNetwork.buildCorridorNetwork maxDist w).
Proof.
  intros Hok Hnonneg Hs Ht.
  destruct (buildCorridorNetwork_frame maxDist w) as (Hn & _ & Hsrc & Htgt).
  apply solve_returns.
  - by apply corridors_ok_again.
  - destruct Hok as [Hsorted _]. intros [i j] c Hc.
    apply (buildCorridorNetwork_keeps_corridors_aux maxDist w Hsorted) in Hc
      as [(_ & _ & ->)|[Hc _]]; [| by apply (Hnonneg (i, j))].
    unfold WildlifeCorridorNetwork.calculateCorridorCapacity.
    destruct (_ <? _)%float; lia.
  - by rewrite Hn, Hsrc.
  - by rewrite Hn, Htgt.
Qed.

(** The network of [main], its map still empty. *)
Lemma build_then_solve_witness :
  exists fuel0 r, forall fuel, (fuel0 <= fuel)%nat ->
    WildlifeCorridorNetwork.solve fuel
      (WildlifeCorridorNetwork.buildCorridorNetwork 35 main_network) =
    Some (r, WildlifeCorridorNetwork.buildCorridorNetwork 35 main_network).
Proof.
  apply build_then_solve.
  - split; [vm_compute; constructor |]. intros i j c Hin. vm_compute in Hin. done.
  - intros k c Hin. vm_compute in Hin. done.
  - vm_compute. lia.
  - vm_compute. lia.
Defined.

(** ** [generateRandom] *)

(** The loop of [generateRandom] after [m] of its [n] turns. *)
Lemma generateRandom_loop (draw : nat -> float * float) n source target m :
  (m <= n)%nat ->
  let w := fold_left (fun wcn i =>
      WildlifeCorridorNetwork.setHabitatLocation i (fst (draw i)) (snd (draw i)) wcn)
      (seq 0 m) (WildlifeCorridorNetwork.new n source target) in
  WildlifeCorridorNetwork.numHabitats w = n /\
  WildlifeCorridorNetwork.habitatLocations w =
    map draw (seq 0 m) ++ replicate (n - m) (0%float, 0%float) /\
  WildlifeCorridorNetwork.corridorCapacity w = [] /\
  WildlifeCorridorNetwork.sourceHabitat w = source /\
  WildlifeCorridorNetwork.targetHabitat w = target.
Proof.
  induction m as [|m IH]; intros Hm; cbv zeta.
  - simpl. by rewrite Nat.sub_0_r.
  - rewrite seq_S, fold_left_app. cbn [fold_left Nat.add].
    destruct (IH ltac:(lia)) as (Hn & Hlocs & Hmap & Hs & Ht).
    unfold WildlifeCorridorNetwork.setHabitatLocation at 1. simpl.
    rewrite Hlocs. split; [done |]. split; [| done].
    rewrite map_app, <- app_assoc. simpl.
    replace (n - m)%nat with (S (n - S m)) by lia. simpl.
    rewrite insert_app_r_alt by (rewrite length_map, length_seq; lia).
    rewrite length_map, length_seq, Nat.sub_diag. simpl.
    by destruct (draw m).
Qed.

(** X17: whatever numbers the generator draws, [generateRandom] returns a
    network of [numHabitats] habitats with an empty corridor map, source 0
    and target [numHabitats - 1]; the target lies at
    [(regionSize, regionSize)], the source at the origin when there are two
    habitats or more, and every other habitat where it was drawn.  With a
    single habitat the source is the target and lies at
    [(regionSize, regionSize)]. *)
Theorem generateRandom_layout n regionSize draw :
  (0 < n)%nat ->
  let w := WildlifeCorridorNetwork.generateRandom n regionSize draw in
  WildlifeCorridorNetwork.numHabitats w = n /\
  WildlifeCorridorNetwork.sourceHabitat w = 0%nat /\
  WildlifeCorridorNetwork.targetHabitat w = (n - 1)%nat /\
  WildlifeCorridorNetwork.corridorCapacity w = [] /\
  length (WildlifeCorridorNetwork.habitatLocations w) = n /\
  WildlifeCorridorNetwork.habitatLocations w !!! (n - 1)%nat = (regionSize, regionSize) /\
  ((1 < n)%nat ->
   WildlifeCorridorNetwork.habitatLocations w !!! 0%nat = (0%float, 0%float)) /\
  forall i, (0 < i < n - 1)%nat ->
    WildlifeCorridorNetwork.habitatLocations w !!! i = draw i.
Proof.
  intros Hn. cbv zeta. unfold WildlifeCorridorNetwork.generateRandom.
  destruct (generateRandom_loop draw n 0 (n - 1) n ltac:(lia))
    as (Hnum & Hlocs & Hmap & Hs & Ht).
  set (w := fold_left _ _ _) in *.
  unfold WildlifeCorridorNetwork.setHabitatLocation. simpl.
  rewrite Hnum, Hmap, Hs, Ht, Hlocs, Nat.sub_diag. simpl. rewrite app_nil_r.
  assert (length (map draw (seq 0 n)) = n) as Hlen
    by by rewrite length_map, length_seq.
  split; [done |]. split; [done |]. split; [done |]. split; [done |].
  split; [by rewrite !length_insert |].
  split; [| split].
  - apply list_lookup_total_insert_eq. rewrite length_insert. lia.
  - intros Hn1. rewrite list_lookup_total_insert_ne by lia.
    apply list_lookup_total_insert_eq. lia.
  - intros i Hi. rewrite !list_lookup_total_insert_ne by lia.
    apply list_lookup_total_correct.
    change (map draw (seq 0 n)) with (draw <$> seq 0 n).
    rewrite list_lookup_fmap, lookup_seq_lt by lia. done.
Qed.

(** Three habitats in a region of 100 km, the draws all 7. *)
Lemma generateRandom_layout_witness :
  let w := WildlifeCorridorNetwork.generateRandom 3 100 (fun _ => (7%float, 7%float)) in
  WildlifeCorridorNetwork.numHabitats w = 3%nat /\
  WildlifeCorridorNetwork.sourceHabitat w = 0%nat /\
  WildlifeCorridorNetwork.targetHabitat w = (3 - 1)%nat /\
  WildlifeCorridorNetwork.corridorCapacity w = [] /\
  length (WildlifeCorridorNetwork.habitatLocations w) = 3%nat /\
  WildlifeCorridorNetwork.habitatLocations w !!! (3 - 1)%nat = (100%float, 100%float) /\
  ((1 < 3)%nat ->
   WildlifeCorridorNetwork.habitatLocations w !!! 0%nat = (0%float, 0%float)) /\
  forall i, (0 < i < 3 - 1)%nat ->
    WildlifeCorridorNetwork.habitatLocations w !!! i = (7%float, 7%float).
Proof.
  apply (generateRandom_layout 3 100 (fun _ => (7%float, 7%float))). lia.
Defined.

(** ** The direction of the flow *)

(** On a symmetric matrix a cut and its complement have the same
    capacity. *)
Lemma cut_capacity_complement n cap (X : nat -> bool) :
  (forall a b, (a < n)%nat -> (b < n)%nat -> cell cap a b = cell cap b a) ->
  cut_capacity n cap (fun u => negb (X u)) = cut_capacity n cap X.
Proof.
  intros Hsym. unfold cut_capacity.
  rewrite (sumZ_swap (fun u v =>
    if negb (X u) && negb (negb (X v)) then cell cap u v else 0)).
  apply sumZ_ext. intros v Hv. apply sumZ_ext. intros u Hu.
  rewrite (Hsym u v Hu Hv). by destruct (X u), (X v).
Qed.

(** X18: corridors run both ways, so the flow [solve] returns does not
    depend on the direction: with source and target exchanged it is the
    same number. *)
Theorem solve_direction_irrelevant fuel fuel' w r w1 r' w2 :
  corridors_ok w ->
  (forall k c, In (k, c) (WildlifeCorridorNetwork.corridorCapacity w) -> 0 <= c) ->
  (WildlifeCorridorNetwork.sourceHabitat w < WildlifeCorridorNetwork.numHabitats w)%nat ->
  (WildlifeCorridorNetwork.targetHabitat w < WildlifeCorridorNetwork.numHabitats w)%nat ->
  WildlifeCorridorNetwork.solve fuel w = Some (r, w1) ->
  WildlifeCorridorNetwork.solve fuel' (reversed w) = Some (r', w2) ->
  fst r' = fst r.
Proof.
  intros Hok Hnonneg Hs Ht Hsolve Hsolve'.
  pose proof (wf_network w Hok Hnonneg) as Hwf.
  assert (MaxFlow.n (WildlifeCorridorNetwork.network w) =
          WildlifeCorridorNetwork.numHabitats w) as Hn
    by apply n_add_corridors.
  unfold WildlifeCorridorNetwork.solve in Hsolve, Hsolve'.
  change (WildlifeCorridorNetwork.network (reversed w))
    with (WildlifeCorridorNetwork.network w) in Hsolve'.
  cbn [reversed WildlifeCorridorNetwork.sourceHabitat
       WildlifeCorridorNetwork.targetHabitat
       WildlifeCorridorNetwork.numHabitats] in Hsolve'.
  set (s := WildlifeCorridorNetwork.sourceHabitat w) in *.
  set (t := WildlifeCorridorNetwork.targetHabitat w) in *.
  set (net := WildlifeCorridorNetwork.network w) in *.
  destruct (MaxFlow.maxflow fuel s t net) as [[f mf]|] eqn:Hrun; [| done].
  destruct (MaxFlow.maxflow fuel' t s net) as [[f' mf']|] eqn:Hrun'; [| done].
  injection Hsolve as <- _. injection Hsolve' as <- _. simpl.
  destruct (decide (t = s)) as [Heq|Hne].
  - rewrite Heq in *.
    by injection (maxflow_fuel_irrelevant _ _ _ _ _ _ _ Hrun Hrun') as -> _.
  - assert (s < MaxFlow.n net)%nat as Hs' by lia.
    assert (t < MaxFlow.n net)%nat as Ht' by lia.
    destruct (maxflow_min_cut net s t fuel f mf Hwf Hs' Ht' Hne Hrun)
      as [(X & HXs & HXt & HX) Hmin].
    destruct (maxflow_min_cut net t s fuel' f' mf' Hwf Ht' Hs' ltac:(done) Hrun')
      as [(X' & HXt' & HXs' & HX') Hmin'].
    assert (forall a b, (a < MaxFlow.n net)%nat -> (b < MaxFlow.n net)%nat ->
              cell (MaxFlow.capacity net) a b = cell (MaxFlow.capacity net) b a)
      as Hsym.
    { intros a b Ha Hb. apply network_symmetric; (done || lia). }
    assert (f <= cut_capacity (MaxFlow.n net) (MaxFlow.capacity net)
                   (fun u => negb (X' u))) as H1
      by (apply Hmin; cbv beta; [by rewrite HXs' | by rewrite HXt']).
    assert (f' <= cut_capacity (MaxFlow.n net) (MaxFlow.capacity net)
                    (fun u => negb (X u))) as H2
      by (apply Hmin'; cbv beta; [by rewrite HXt | by rewrite HXs]).
    rewrite (cut_capacity_complement _ _ X' Hsym) in H1.
    rewrite (cut_capacity_complement _ _ X Hsym) in H2. lia.
Qed.

(** The two-node network and its reverse: 5 either way. *)
Lemma solve_direction_irrelevant_witness :
  exists r r',
    WildlifeCorridorNetwork.solve 3 two_node_network = Some (r, two_node_network) /\
    WildlifeCorridorNetwork.solve 3 (reversed two_node_network) =
      Some (r', reversed two_node_network) /\
    fst r' = fst r.
Proof.
  eexists _, _. split; [vm_compute; reflexivity |].
  split; [vm_compute; reflexivity |].
  eapply (solve_direction_irrelevant 3 3 two_node_network).
  - split; [vm_compute; repeat constructor |].
    intros i j c Hin. vm_compute in Hin.
    destruct Hin as [[= <- <- <-]|[]].
    assert (WildlifeCorridorNetwork.numHabitats two_node_network = 2%nat) as ->
      by (vm_compute; reflexivity).
    lia.
  - intros k c Hin. vm_compute in Hin. destruct Hin as [[= <- <-]|[]]. lia.
  - vm_compute. lia.
  - vm_compute. lia.
  - vm_compute. reflexivity.
  - vm_compute. reflexivity.
Defined.

(** ** The bottleneck of an augmentation *)

(** The first loop of [maxflow] returns the value it started from or the
    residual capacity of an arc of the path. *)
Lemma path_min_exact fuel cap parent source v l pf0 r :
  chain parent source v l ->
  MaxFlow.path_min fuel cap parent source v pf0 = Some r ->
  r = pf0 \/ exists a, In a (arcs l) /\ cell cap (fst a) (snd a) = r.
Proof.
  intros Hc. revert fuel pf0.
  induction Hc as [|v u l Hv Hp Hc IH]; intros fuel pf0.
  - destruct fuel; simpl; rewrite Nat.eqb_refl; intros [= <-]; by left.
  - destruct (chain_head _ _ _ _ Hc) as [l' ->].
    destruct fuel as [|fuel]; simpl MaxFlow.path_min;
      (destruct (Nat.eqb_spec v source) as [|_]; [done |]); [done |].
    rewrite Hp, Nat2Z.id. intros Hmin.
    destruct (IH _ _ Hmin) as [->|(a & Ha & Hr)].
    + destruct (Z.min_spec pf0 (cell cap u v)) as [[_ ->]|[_ ->]]; [by left |].
      right. exists (u, v). split; [by left | done].
    + right. exists a. split; [by right | done].
Qed.

(** A path that meets no node twice runs over no arc in both directions,
    and the arcs into the first node are not among the later ones. *)
Lemma arcs_fresh v l x y : ~ In v l -> In (x, y) (arcs l) -> x <> v /\ y <> v.
Proof.
  intros Hv Hin. apply arcs_nodes in Hin as [Hx Hy].
  split; intros ->; done.
Qed.

Lemma arcs_one_way l x y :
  NoDup l -> In (x, y) (arcs l) -> ~ In (y, x) (arcs l) /\ x <> y.
Proof.
  induction l as [|v l IH]; [done |]. intros Hnd.
  apply NoDup_cons in Hnd as [Hv Hnd]. rewrite list_elem_of_In in Hv.
  destruct l as [|u l']; [done |]. simpl arcs.
  intros [[= <- <-]|Hin].
  - split; [| intros ->; apply Hv; by left].
    intros [[= Huv _]|Hin]; [apply Hv; left; done |].
    by destruct (arcs_fresh v (u :: l') v u Hv Hin).
  - destruct (IH Hnd Hin) as [Hno Hne]. split; [| done].
    intros [[= -> ->]|Hin']; [| done].
    by destruct (arcs_fresh x (y :: l') x y Hv Hin).
Qed.

(** The second loop of [maxflow] on a path that meets no node twice: what
    it does to every entry of the matrix. *)
Lemma path_update_exact n fuel cap parent source v l pf cap' :
  chain parent source v l -> NoDup l -> Forall (fun x => (x < n)%nat) l ->
  square n cap ->
  MaxFlow.path_update fuel cap parent source v pf = Some cap' ->
  (forall a b, In (a, b) (arcs l) ->
     cell cap' a b = cell cap a b - pf /\ cell cap' b a = cell cap b a + pf) /\
  (forall a b, ~ In (a, b) (arcs l) -> ~ In (b, a) (arcs l) ->
     cell cap' a b = cell cap a b).
Proof.
  intros Hc. revert fuel cap.
  induction Hc as [|v u l Hv Hp Hc IH]; intros fuel cap Hnd Hn Hsq.
  - destruct fuel; simpl; rewrite Nat.eqb_refl; intros [= <-]; done.
  - destruct (chain_head _ _ _ _ Hc) as [l' ->].
    destruct fuel as [|fuel]; simpl MaxFlow.path_update;
      (destruct (Nat.eqb_spec v source) as [|_]; [done |]); [done |].
    rewrite Hp, Nat2Z.id.
    change (set_cell (set_cell cap u v (cell cap u v - pf)) v u
              (cell (set_cell cap u v (cell cap u v - pf)) v u + pf))
      with (push_arc cap u v pf).
    intros Hupd.
    pose proof Hnd as Hnd0.
    apply NoDup_cons in Hnd as [Hvl Hnd]. rewrite list_elem_of_In in Hvl.
    apply Forall_cons in Hn as [Hvn Hn].
    pose proof Hn as Hn0. apply Forall_cons in Hn0 as [Hun _].
    assert (u <> v) as Huv by (intros ->; apply Hvl; by left).
    destruct (IH _ _ Hnd Hn (square_push_arc n cap u v pf Hsq) Hupd)
      as [Hon Hoff].
    assert (forall a b,
      cell (push_arc cap u v pf) a b =
      cell cap a b + (if decide (a = v /\ b = u) then pf else 0)
                   - (if decide (a = u /\ b = v) then pf else 0)) as Hpush.
    { intros a b. rewrite (cell_push_arc n) by done.
      repeat (match goal with |- context [decide ?P] => destruct (decide P) end);
        try lia; exfalso; tauto. }
    simpl arcs. split.
    + intros a b [[= <- <-]|Hin].
      * rewrite (Hoff u v), (Hoff v u), !Hpush.
        -- rewrite (decide_True (P := u = u /\ v = v)) by done.
           rewrite (decide_True (P := v = v /\ u = u)) by done.
           rewrite (decide_False (P := u = v /\ v = u)) by tauto.
           rewrite (decide_False (P := v = u /\ u = v)) by tauto. lia.
        -- intros Hin. by destruct (arcs_fresh v (u :: l') v u Hvl Hin).
        -- intros Hin. by destruct (arcs_fresh v (u :: l') u v Hvl Hin).
        -- intros Hin. by destruct (arcs_fresh v (u :: l') u v Hvl Hin).
        -- intros Hin. by destruct (arcs_fresh v (u :: l') v u Hvl Hin).
      * destruct (arcs_fresh v (u :: l') a b Hvl Hin) as [Ha Hb].
        destruct (Hon a b Hin) as [-> ->]. rewrite !Hpush.
        rewrite (decide_False (P := a = v /\ b = u)) by tauto.
        rewrite (decide_False (P := a = u /\ b = v)) by tauto.
        rewrite (decide_False (P := b = v /\ a = u)) by tauto.
        rewrite (decide_False (P := b = u /\ a = v)) by tauto. lia.
    + intros a b Hab Hba.
      assert (~ (a = u /\ b = v)) as H1 by (intros [-> ->]; apply Hab; by left).
      assert (~ (a = v /\ b = u)) as H2 by (intros [-> ->]; apply Hba; by left).
      rewrite Hoff, Hpush.
      * rewrite (decide_False (P := a = v /\ b = u)) by done.
        rewrite (decide_False (P := a = u /\ b = v)) by done. lia.
      * intros Hin. apply Hab. by right.
      * intros Hin. apply Hba. by right.
Qed.

(** What one turn of the loop of [maxflow] runs: the path [bfs] recorded
    and the two loops over it. *)
Lemma augment_path steps mf source sink parent mf' pf parent' :
  wf_engine mf -> length parent = MaxFlow.n mf ->
  (source < MaxFlow.n mf)%nat -> (sink < MaxFlow.n mf)%nat ->
  MaxFlow.augment steps mf source sink parent = Some (inr (mf', pf, parent')) ->
  exists l, chain parent' source sink l /\ NoDup l /\
    Forall (fun x => (x < MaxFlow.n mf)%nat) l /\
    Forall (fun a => 0 < cell (MaxFlow.capacity mf) (fst a) (snd a)) (arcs l) /\
    sink <> source /\
    MaxFlow.path_min steps (MaxFlow.capacity mf) parent' source sink INT_MAX = Some pf /\
    MaxFlow.path_update steps (MaxFlow.capacity mf) parent' source sink pf =
      Some (MaxFlow.capacity mf').
Proof.
  intros Hwf Hlen Hs Ht. unfold MaxFlow.augment.
  destruct (MaxFlow.bfs _ _ _ _ _) as [[b p1]|] eqn:Hbfs; [| done].
  destruct (bfs_spec _ _ _ _ _ _ _ Hwf Hlen Hs Ht Hbfs) as (Htree & Htrue & _).
  destruct b; [| done].
  destruct (Htrue eq_refl) as [Hpt Hts].
  destruct Htree as (Hlen1 & _ & _ & Hch).
  destruct (Hch sink Ht Hpt) as (l & Hc & Hnd & Hn & Hpos).
  destruct (MaxFlow.path_min _ _ _ _ _ _) as [pf1|] eqn:Hmin; [| done].
  destruct (MaxFlow.path_update _ _ _ _ _ _) as [cap'|] eqn:Hupd; [| done].
  intros [= <- <- <-]. exists l. simpl. done.
Qed.

(** X19: one augmentation pushes the bottleneck of the path [bfs] found:
    every arc of the path loses [path_flow], which is positive and at most
    its residual capacity, the reverse arc gains it, no other entry of the
    matrix changes, and some arc of the path had exactly [path_flow] left
    and is left with 0.  Capacities are those of [int]: the two directions
    of a pair sum to at most [INT_MAX]. *)
Theorem augmentation_pushes_bottleneck n calls source sink k steps mf parent flow
    mf' pf parent' :
  Forall (valid_call n) calls -> (source < n)%nat -> (sink < n)%nat ->
  (forall u v, (u < n)%nat -> (v < n)%nat ->
     cell (MaxFlow.capacity (add_edges calls (MaxFlow.new n))) u v +
     cell (MaxFlow.capacity (add_edges calls (MaxFlow.new n))) v u <= INT_MAX) ->
  maxflow_turns k steps source sink (add_edges calls (MaxFlow.new n)) =
    Some (mf, parent, flow) ->
  MaxFlow.augment steps mf source sink parent = Some (inr (mf', pf, parent')) ->
  exists l, chain parent' source sink l /\ NoDup l /\
    (forall u v, In (u, v) (arcs l) ->
       0 < pf <= cell (MaxFlow.capacity mf) u v /\
       cell (MaxFlow.capacity mf') u v = cell (MaxFlow.capacity mf) u v - pf /\
       cell (MaxFlow.capacity mf') v u = cell (MaxFlow.capacity mf) v u + pf) /\
    (forall u v, ~ In (u, v) (arcs l) -> ~ In (v, u) (arcs l) ->
       cell (MaxFlow.capacity mf') u v = cell (MaxFlow.capacity mf) u v) /\
    (exists u v, In (u, v) (arcs l) /\
       cell (MaxFlow.capacity mf) u v = pf /\ cell (MaxFlow.capacity mf') u v = 0).
Proof.
  intros Hcalls Hs Ht Hint Hturns Haug.
  destruct (run_bounded n calls source sink k steps mf parent flow Hcalls Hs Ht Hturns)
    as [Hbound _].
  pose proof (wf_add_edges n calls Hcalls) as Hwf0.
  set (mf0 := add_edges calls (MaxFlow.new n)) in *.
  assert (MaxFlow.n mf0 = n) as Hn by apply n_add_edges.
  unfold maxflow_turns in Hturns.
  destruct (after_turns_inv _ _ mf0 _ _ _ _ _ _ _ _
              (flow_inv_start mf0 source sink Hwf0)
              (length_replicate _ _) ltac:(lia) ltac:(lia) Hturns)
    as [(Hwf & Hn' & _) Hlen].
  assert (MaxFlow.n mf = n) as Hnm by lia.
  assert (length parent = MaxFlow.n mf) as Hlen' by lia.
  assert (source < MaxFlow.n mf)%nat as Hs' by lia.
  assert (sink < MaxFlow.n mf)%nat as Ht' by lia.
  destruct (augment_path steps mf source sink parent mf' pf parent'
              Hwf Hlen' Hs' Ht' Haug)
    as (l & Hc & Hnd & Hln & Hpos & Hne & Hmin & Hupd).
  rewrite Hnm in Hln.
  destruct (augment_spec steps mf source sink parent mf' pf parent'
              Hwf Hlen' Hs' Ht' Haug) as (_ & _ & _ & _ & Hpf & _).
  pose proof (wf_shaped _ Hwf) as [Hsq _]. rewrite Hnm in Hsq.
  destruct (path_update_exact n steps _ _ _ _ l pf _ Hc Hnd Hln Hsq Hupd)
    as [Hon Hoff].
  assert (Forall (fun a => pf <= cell (MaxFlow.capacity mf) (fst a) (snd a)) (arcs l))
    as Hle.
  { destruct (path_min_chain (length l) (MaxFlow.capacity mf) _ _ _ _ INT_MAX Hc)
      as (r & Hr & _ & Hle & _); [lia |].
    assert (r = pf) as ->; [| done].
    destruct (Nat.le_ge_cases (length l) steps) as [H|H].
    - apply (path_min_fuel _ _ _ _ _ _ _ _ H) in Hr. congruence.
    - apply (path_min_fuel _ _ _ _ _ _ _ _ H) in Hmin. congruence. }
  rewrite List.Forall_forall in Hle.
  exists l. split; [done |]. split; [done |]. split; [| split; [done |]].
  - intros u v Hin. specialize (Hle _ Hin). simpl in Hle.
    destruct (Hon u v Hin) as [H1 H2]. lia.
  - destruct (path_min_exact _ _ _ _ _ _ _ _ Hc Hmin) as [->|([u v] & Hin & Hr)].
    + (* no arc was below [INT_MAX]: the last arc of the path holds it *)
      clearbody mf0.
      inversion Hc as [|v0 u0 l0 Hv0 Hp0 Hc0]; subst; [done |].
      destruct (chain_head _ _ _ _ Hc0) as [l' ->].
      apply Forall_cons in Hln as [Hv Hln]. apply Forall_cons in Hln as [Hu _].
      assert (In (u0, sink) (arcs (sink :: u0 :: l'))) as Hin by by left.
      specialize (Hle _ Hin). simpl in Hle.
      destruct (Hbound u0 sink Hu Hv) as [_ Hb].
      specialize (Hint u0 sink Hu Hv).
      destruct (Hon u0 sink Hin) as [H1 _].
      exists u0, sink. split; [done |]. lia.
    + exists u, v. simpl in Hr. split; [done |]. split; [done |].
      destruct (Hon u v Hin) as [H1 _]. lia.
Qed.

(** The first augmentation on the diamond. *)
Lemma augmentation_pushes_bottleneck_witness :
  exists mf' pf parent',
    MaxFlow.augment 6 (add_edges diamond_calls (MaxFlow.new 4)) 0 3 (replicate 4 0) =
      Some (inr (mf', pf, parent')) /\
    exists l, chain parent' 0 3 l /\ NoDup l /\
      (forall u v, In (u, v) (arcs l) ->
         0 < pf <= cell (MaxFlow.capacity (add_edges diamond_calls (MaxFlow.new 4))) u v /\
         cell (MaxFlow.capacity mf') u v =
           cell (MaxFlow.capacity (add_edges diamond_calls (MaxFlow.new 4))) u v - pf /\
         cell (MaxFlow.capacity mf') v u =
           cell (MaxFlow.capacity (add_edges diamond_calls (MaxFlow.new 4))) v u + pf) /\
      (forall u v, ~ In (u, v) (arcs l) -> ~ In (v, u) (arcs l) ->
         cell (MaxFlow.capacity mf') u v =
           cell (MaxFlow.capacity (add_edges diamond_calls (MaxFlow.new 4))) u v) /\
      (exists u v, In (u, v) (arcs l) /\
         cell (MaxFlow.capacity (add_edges diamond_calls (MaxFlow.new 4))) u v = pf /\
         cell (MaxFlow.capacity mf') u v = 0).
Proof.
  eexists _, _, _. split; [vm_compute; reflexivity |].
  eapply (augmentation_pushes_bottleneck 4 diamond_calls 0 3 0 6).
  - repeat constructor; simpl; lia.
  - lia.
  - lia.
  - intros u v Hu Hv.
    destruct u as [|[|[|[|u]]]]; [| | | | lia];
      (destruct v as [|[|[|[|v]]]]; [| | | | lia]); by vm_compute.
  - reflexivity.
  - vm_compute. reflexivity.
Defined.

(** ** Shortest augmenting paths *)

Lemma chain_source_only parent source l :
  chain parent source source l -> l = [source].
Proof. inversion 1; [done | congruence]. Qed.

(** Discovering [v] from [u] puts it one level below [u]. *)
Lemma discover_measured n source parent depth u v :
  length parent = n -> parent !!! source = Z.of_nat source ->
  (u < n)%nat -> parent !!! u <> -1 -> (v < n)%nat -> parent !!! v = -1 ->
  measured n source parent depth ->
  measured n source (<[v := Z.of_nat u]> parent)
    (fun x => if decide (x = v) then S (depth u) else depth x).
Proof.
  intros Hlen Hps Hu Hpu Hv Hpv Hm x Hx Hpx. cbv beta.
  assert (v <> source) as Hvs by (intros ->; lia).
  assert (forall y l, chain parent source y l -> ~ In v l) as Hfresh.
  { intros y l Hc Hin. by apply (chain_discovered _ _ _ _ _ Hps Hc Hin). }
  destruct (decide (x = v)) as [->|Hne].
  - destruct (Hm u Hu Hpu) as (l & Hc & Hl).
    exists (v :: l). split; [| simpl; lia].
    apply (chain_step _ _ v u); [done | |].
    + apply list_lookup_total_insert_eq. lia.
    + apply chain_insert; [done | by apply (Hfresh u)].
  - rewrite list_lookup_total_insert_ne in Hpx by done.
    destruct (Hm x Hx Hpx) as (l & Hc & Hl).
    exists l. split; [| done]. apply chain_insert; [done | by apply (Hfresh x)].
Qed.

Lemma discover_expanded n cap parent depth seen u v :
  parent !!! v = -1 ->
  expanded n cap parent depth seen ->
  expanded n cap (<[v := Z.of_nat u]> parent)
    (fun x => if decide (x = v) then S (depth u) else depth x) seen.
Proof.
  intros Hpv He x Hx. destruct (He x Hx) as (Hxn & Hpx & Harcs).
  assert (x <> v) as Hxv by (intros ->; done).
  split; [done |]. split; [by rewrite list_lookup_total_insert_ne |].
  intros y Hy Hpos. destruct (Harcs y Hy Hpos) as [Hpy Hd].
  assert (y <> v) as Hyv by (intros ->; done).
  split; [by rewrite list_lookup_total_insert_ne |].
  rewrite !decide_False by done. done.
Qed.

(** Once the sink is discovered, one level below a node that no discovered
    node still to expand is nearer than, its chain is a shortest path. *)
Lemma levels_shortest n cap source sink parent depth seen :
  (source < n)%nat -> (sink < n)%nat ->
  parent !!! source <> -1 -> parent !!! sink <> -1 ->
  measured n source parent depth ->
  expanded n cap parent depth seen ->
  (forall x, (x < n)%nat -> parent !!! x <> -1 ->
     seen x \/ x = sink \/ (depth sink <= depth x + 1)%nat) ->
  shortest n cap source sink parent.
Proof.
  intros Hs Ht Hps Hpt Hm He Hrest.
  assert (forall x z k, residual_walk n cap x z k -> z = sink ->
            (x < n)%nat -> parent !!! x <> -1 ->
            (depth sink <= depth x + k)%nat) as Hwalk.
  { induction 1 as [x|x y z k Hx Hy Hpos Hw IH]; intros -> Hxn Hpx; [lia |].
    destruct (Hrest x Hxn Hpx) as [Hseen|[->|Hnear]]; [| lia | lia].
    destruct (He x Hseen) as (_ & _ & Harcs).
    destruct (Harcs y Hy Hpos) as [Hpy Hd].
    specialize (IH eq_refl Hy Hpy). lia. }
  destruct (Hm source Hs Hps) as (l0 & Hc0 & Hl0).
  apply chain_source_only in Hc0 as ->. simpl in Hl0.
  destruct (Hm sink Ht Hpt) as (l & Hc & Hl).
  exists l. split; [done |]. intros k Hk.
  specialize (Hwalk source sink k Hk eq_refl Hs Hps). lia.
Qed.

(** The inner loop of [bfs] keeps the levels, and leaves with a shortest
    path when it meets the sink. *)
Lemma bfs_for_levels mf source sink u flow vs :
  forall parent q b parent' q',
  Forall (fun v => (v < MaxFlow.n mf)%nat) vs ->
  (sink < MaxFlow.n mf)%nat ->
  level_inv mf source u parent q ->
  MaxFlow.bfs_for mf sink u flow vs parent q = (b, parent', q') ->
  (b = true -> shortest (MaxFlow.n mf) (MaxFlow.capacity mf) source sink parent') /\
  (b = false -> level_inv mf source u parent' q').
Proof.
  induction vs as [|v vs IH]; intros parent q b parent' q' Hvs Ht Hinv; simpl.
  - intros [= <- <- <-]. split; [done | by intros _].
  - apply Forall_cons in Hvs as [Hv Hvs].
    destruct (Z.eqb_spec (parent !!! v) (-1)) as [Hpv|_]; simpl; [| by apply IH].
    destruct (Z.ltb_spec 0 (cell (MaxFlow.capacity mf) u v)) as [Hpos|_];
      [| by apply IH].
    destruct Hinv as (depth & seen & Hlen & Hs & Hps & Hu & Hpu & Hm & He
                      & Hcov & Hq & Hsorted & Hnear).
    pose proof (discover_measured _ _ _ _ u v Hlen Hps Hu Hpu Hv Hpv Hm) as Hm'.
    pose proof (discover_expanded _ _ _ _ _ u v Hpv He) as He'.
    set (depth' := fun x => if decide (x = v) then S (depth u) else depth x) in *.
    assert (u <> v) as Huv by (intros ->; done).
    assert (v <> source) as Hvs' by (intros ->; lia).
    assert (forall x, parent !!! x <> -1 -> depth' x = depth x) as Hold.
    { intros x Hx. unfold depth'. rewrite decide_False; [done |]. by intros ->. }
    assert (depth' v = S (depth u)) as Hnew
      by (unfold depth'; by rewrite decide_True).
    assert (forall x, (x < MaxFlow.n mf)%nat ->
              <[v := Z.of_nat u]> parent !!! x <> -1 ->
              x = v \/ parent !!! x <> -1) as Hdisc.
    { intros x Hx Hpx. destruct (decide (x = v)) as [|Hne]; [by left |].
      right. by rewrite list_lookup_total_insert_ne in Hpx. }
    destruct (Nat.eqb_spec v sink) as [->|Hvk].
    + intros [= <- <- <-]. split; [| done]. intros _.
      apply (levels_shortest _ _ _ _ _ depth' seen); try done.
      * rewrite list_lookup_total_insert_ne by done. lia.
      * rewrite list_lookup_total_insert_eq by lia. lia.
      * intros x Hx Hpx. destruct (Hdisc x Hx Hpx) as [->|Hpx0]; [right; by left |].
        rewrite Hnew, (Hold x Hpx0).
        destruct (Hcov x Hx Hpx0) as [Hseen|[->|Hin]]; [by left | right; right; lia |].
        right. right. apply in_map_iff in Hin as (e & <- & He0).
        destruct (Hq e He0) as (_ & _ & Hd). lia.
    + intros Hfor. apply IH in Hfor; [done | done | done |].
      exists depth', seen.
      split; [by rewrite length_insert |]. split; [done |].
      split; [by rewrite list_lookup_total_insert_ne |].
      split; [done |].
      split; [by rewrite list_lookup_total_insert_ne |].
      split; [done |]. split; [done |].
      split; [| split; [| split]].
      * intros x Hx Hpx. rewrite map_app, in_app_iff. simpl.
        destruct (Hdisc x Hx Hpx) as [->|Hpx0]; [right; right; right; by left |].
        destruct (Hcov x Hx Hpx0) as [Hseen|[->|Hin]]; tauto.
      * intros e He0. apply in_app_or in He0 as [He0|[<-|[]]].
        -- destruct (Hq e He0) as (He1 & He2 & He3).
           assert (fst e <> v) as Hev by (intros Heq; rewrite Heq in He2; done).
           split; [done |]. split; [by rewrite list_lookup_total_insert_ne |].
           rewrite (Hold u Hpu), (Hold (fst e) He2). done.
        -- simpl. split; [done |].
           split; [rewrite list_lookup_total_insert_eq by lia; lia |].
           rewrite Hnew, (Hold u Hpu). lia.
      * assert (forall l : list (nat * Z),
                  StronglySorted (fun e e' => (depth (fst e) <= depth (fst e'))%nat) l ->
                  (forall e, In e l -> parent !!! (fst e) <> -1 /\
                                       (depth (fst e) <= S (depth u))%nat) ->
                  StronglySorted (fun e e' => (depth' (fst e) <= depth' (fst e'))%nat)
                    (l ++ [(v, Z.min flow (cell (MaxFlow.capacity mf) u v))])) as Hsnoc.
        { induction 1 as [|e l Hl IHl Hall]; intros Hin; simpl.
          - repeat constructor.
          - constructor; [apply IHl; intros e' He'0; apply Hin; by right |].
            apply Forall_app. split.
            + rewrite List.Forall_forall in *. intros e' He'0.
              destruct (Hin e ltac:(by left)) as [Hpe _].
              destruct (Hin e' ltac:(by right)) as [Hpe' _].
              rewrite (Hold _ Hpe), (Hold _ Hpe'). by apply Hall.
            + constructor; [| constructor]. simpl.
              destruct (Hin e ltac:(by left)) as [Hpe Hde].
              rewrite (Hold _ Hpe), Hnew. done. }
        apply Hsnoc; [done |]. intros e He0.
        destruct (Hq e He0) as (He1 & He2 & _). split; [done |].
        specialize (Hnear (fst e) He1 He2). lia.
      * intros x Hx Hpx. rewrite (Hold u Hpu).
        destruct (Hdisc x Hx Hpx) as [->|Hpx0]; [rewrite Hnew; lia |].
        rewrite (Hold x Hpx0). by apply Hnear.
Qed.

(** The outer loop of [bfs] leaves with a shortest path when it returns
    true. *)
Lemma bfs_while_levels mf source sink parent' :
  wf_engine mf -> (sink < MaxFlow.n mf)%nat ->
  forall fuel parent u flow q,
  tree (MaxFlow.n mf) (MaxFlow.capacity mf) source parent ->
  (sink <> source -> parent !!! sink = -1) ->
  level_inv mf source u parent q ->
  MaxFlow.bfs_while fuel mf sink parent ((u, flow) :: q) = Some (true, parent') ->
  shortest (MaxFlow.n mf) (MaxFlow.capacity mf) source sink parent'.
Proof.
  intros Hwf Ht.
  induction fuel as [|fuel IH]; intros parent u flow q Htree Hsink Hinv; [done |].
  simpl.
  destruct (MaxFlow.bfs_for _ _ _ _ _ _ _) as [[b p1] q1] eqn:Hfor.
  assert (Forall (fun v => (v < MaxFlow.n mf)%nat) (MaxFlow.adj mf !!! u)) as Hadj.
  { apply List.Forall_forall. intros v Hv. by apply (wf_adj _ Hwf u). }
  destruct (bfs_for_levels _ _ _ _ _ _ _ _ _ _ _ Hadj Ht Hinv Hfor) as [Htrue Hfalse].
  assert ((u < MaxFlow.n mf)%nat /\ parent !!! u <> -1) as [Hu Hpu].
  { by destruct Hinv as (depth & seen & _ & _ & _ & Hu & Hpu & _). }
  apply (bfs_for_spec _ source) in Hfor as (Htree1 & _ & _ & Hfalse'); try done.
  destruct b; [intros [= <-]; by apply Htrue |].
  destruct (Hfalse' eq_refl) as (Hsk & new & _ & _ & _ & Hclosed).
  destruct (Hfalse eq_refl) as (depth & seen & Hlen & Hs & Hps & _ & Hpu1 & Hm & He
                                & Hcov & Hq & Hsorted & Hnear).
  destruct q1 as [|[u' flow'] q2].
  { intros H. destruct fuel; simpl in H; done. }
  apply IH; [done | done |].
  destruct (Hq (u', flow') ltac:(by left)) as (Hu' & Hpu' & Hdu'). simpl in *.
  apply StronglySorted_inv in Hsorted as [Hsorted Hhead].
  exists depth, (fun x => seen x \/ x = u).
  split; [done |]. split; [done |]. split; [done |]. split; [done |].
  split; [done |]. split; [done |].
  split; [| split; [| split; [| split]]].
  - intros x [Hx| ->]; [by apply He |].
    split; [done |]. split; [done |]. intros y Hy Hpos.
    assert (p1 !!! y <> -1) as Hpy.
    { apply Hclosed; [| done]. by apply (wf_covers _ Hwf). }
    split; [done |]. by apply Hnear.
  - intros x Hx Hpx. destruct (Hcov x Hx Hpx) as [Hseen|[->|[<-|Hin]]]; tauto.
  - intros e He0. destruct (Hq e ltac:(by right)) as (He1 & He2 & _).
    split; [done |]. split; [done |].
    rewrite List.Forall_forall in Hhead. by apply (Hhead e).
  - done.
  - intros x Hx Hpx. specialize (Hnear x Hx Hpx). lia.
Qed.

(** [bfs] returns true with a shortest path in [parent]. *)
Lemma bfs_shortest fuel mf source sink parent parent' :
  wf_engine mf -> length parent = MaxFlow.n mf ->
  (source < MaxFlow.n mf)%nat -> (sink < MaxFlow.n mf)%nat ->
  MaxFlow.bfs fuel mf source sink parent = Some (true, parent') ->
  shortest (MaxFlow.n mf) (MaxFlow.capacity mf) source sink parent'.
Proof.
  intros Hwf Hlen Hs Ht Hbfs. unfold MaxFlow.bfs in Hbfs.
  set (p0 := <[source := Z.of_nat source]> (replicate (length parent) (-1))) in *.
  assert (length p0 = MaxFlow.n mf) as Hlen0
    by (unfold p0; by rewrite length_insert, length_replicate).
  assert (p0 !!! source = Z.of_nat source) as Hp0s.
  { unfold p0. apply list_lookup_total_insert_eq. rewrite length_replicate. lia. }
  assert (forall x, (x < MaxFlow.n mf)%nat -> x <> source -> p0 !!! x = -1) as Hother.
  { intros x Hx Hne. unfold p0. rewrite list_lookup_total_insert_ne by done.
    apply lookup_total_replicate_2. lia. }
  apply (bfs_while_levels mf source sink parent' Hwf Ht _ _ _ _ _) in Hbfs; [done | | |].
  - split; [done |]. split; [done |]. split; [done |].
    intros v Hv Hpv. destruct (decide (v = source)) as [->|Hne].
    + exists [source]. split; [constructor |]. split; [apply NoDup_singleton |].
      split; [by constructor | constructor].
    + by rewrite Hother in Hpv.
  - intros Hne. by apply Hother.
  - exists (fun _ => O), (fun _ => False).
    split; [done |]. split; [done |]. split; [done |]. split; [done |].
    split; [lia |].
    split; [| split; [| split; [| split; [| split]]]].
    + intros v Hv Hpv. destruct (decide (v = source)) as [->|Hne].
      * exists [source]. split; [constructor | done].
      * by rewrite Hother in Hpv.
    + intros x [].
    + intros x Hx Hpx. destruct (decide (x = source)) as [->|Hne]; [right; by left |].
      by rewrite Hother in Hpx.
    + intros e [].
    + constructor.
    + intros x _ _. lia.
Qed.

(** X20: [bfs] finds a shortest augmenting path (the rule of Edmonds and
    Karp): in every state of a run, when it returns true the path [parent]
    records from the sink back to the source has no more arcs than any
    walk over arcs with residual capacity from the source to the sink. *)
Theorem bfs_shortest_path n calls source sink k steps mf parent flow fuel parent' :
  Forall (valid_call n) calls -> (source < n)%nat -> (sink < n)%nat ->
  maxflow_turns k steps source sink (add_edges calls (MaxFlow.new n)) =
    Some (mf, parent, flow) ->
  MaxFlow.bfs fuel mf source sink parent = Some (true, parent') ->
  exists l, chain parent' source sink l /\
    forall m, residual_walk n (MaxFlow.capacity mf) source sink m ->
      (length l <= S m)%nat.
Proof.
  intros Hcalls Hs Ht Hturns Hbfs.
  pose proof (wf_add_edges n calls Hcalls) as Hwf0.
  set (mf0 := add_edges calls (MaxFlow.new n)) in *.
  assert (MaxFlow.n mf0 = n) as Hn by apply n_add_edges.
  unfold maxflow_turns in Hturns.
  destruct (after_turns_inv _ _ mf0 _ _ _ _ _ _ _ _
              (flow_inv_start mf0 source sink Hwf0)
              (length_replicate _ _) ltac:(lia) ltac:(lia) Hturns)
    as [(Hwf & Hn' & _) Hlen].
  assert (MaxFlow.n mf = n) as Hnm by lia.
  assert (length parent = MaxFlow.n mf) as Hlen' by lia.
  assert (source < MaxFlow.n mf)%nat as Hs' by lia.
  assert (sink < MaxFlow.n mf)%nat as Ht' by lia.
  pose proof (bfs_shortest fuel mf source sink parent parent' Hwf Hlen' Hs' Ht' Hbfs)
    as Hshort.
  by rewrite Hnm in Hshort.
Qed.

(** The first [bfs] on the diamond. *)
Lemma bfs_shortest_path_witness :
  exists parent',
    MaxFlow.bfs 6 (add_edges diamond_calls (MaxFlow.new 4)) 0 3 (replicate 4 0) =
      Some (true, parent') /\
    exists l, chain parent' 0 3 l /\
      forall m,
        residual_walk 4 (MaxFlow.capacity (add_edges diamond_calls (MaxFlow.new 4))) 0 3 m ->
        (length l <= S m)%nat.
Proof.
  eexists. split; [vm_compute; reflexivity |].
  eapply (bfs_shortest_path 4 diamond_calls 0 3 0 6 _ _ _ 6).
  - repeat constructor; simpl; lia.
  - lia.
  - lia.
  - reflexivity.
  - vm_compute. reflexivity.
Defined.

(** ** The range of [int] *)

(** One more turn of the loop of [maxflow]. *)
Lemma after_turns_snoc k : forall steps mf source sink parent flow mf1 parent1 flow1
    mf2 pf parent2,
  after_turns k steps mf source sink parent flow = Some (mf1, parent1, flow1) ->
  MaxFlow.augment steps mf1 source sink parent1 = Some (inr (mf2, pf, parent2)) ->
  after_turns (S k) steps mf source sink parent flow = Some (mf2, parent2, flow1 + pf).
Proof.
  induction k as [|k IH]; intros steps mf source sink parent flow mf1 parent1 flow1
    mf2 pf parent2 Hrun Haug.
  - simpl in Hrun. injection Hrun as -> -> ->. simpl. by rewrite Haug.
  - simpl in Hrun.
    destruct (MaxFlow.augment steps mf source sink parent)
      as [[p|[[mf' pf'] p']]|] eqn:Hfirst; try done.
    change (after_turns (S (S k)) steps mf source sink parent flow)
      with (match MaxFlow.augment steps mf source sink parent with
            | Some (inr (mf', path_flow, parent')) =>
                after_turns (S k) steps mf' source sink parent' (flow + path_flow)
            | _ => None
            end).
    rewrite Hfirst. by apply (IH _ _ _ _ _ _ mf1 parent1).
Qed.

(** X21: [maxflow] stays within the range of [int].  When the capacities
    given to the two directions of any pair sum to at most [INT_MAX], and
    so do those given to the arcs that leave the source, then in every
    state of a run the entries of the matrix and the flow lie between 0
    and [INT_MAX], and so do the bottleneck, the entries and the flow that
    the next augmentation computes. *)
Theorem maxflow_within_int n calls source sink k steps mf parent flow :
  Forall (valid_call n) calls -> (source < n)%nat -> (sink < n)%nat ->
  (forall u v, (u < n)%nat -> (v < n)%nat ->
     cell (MaxFlow.capacity (add_edges calls (MaxFlow.new n))) u v +
     cell (MaxFlow.capacity (add_edges calls (MaxFlow.new n))) v u <= INT_MAX) ->
  rowsum n (MaxFlow.capacity (add_edges calls (MaxFlow.new n))) source <= INT_MAX ->
  maxflow_turns k steps source sink (add_edges calls (MaxFlow.new n)) =
    Some (mf, parent, flow) ->
  (forall u v, (u < n)%nat -> (v < n)%nat ->
     0 <= cell (MaxFlow.capacity mf) u v <= INT_MAX) /\
  0 <= flow <= INT_MAX /\
  (forall mf' path_flow parent',
     MaxFlow.augment steps mf source sink parent = Some (inr (mf', path_flow, parent')) ->
     0 < path_flow <= INT_MAX /\
     0 <= flow + path_flow <= INT_MAX /\
     forall u v, (u < n)%nat -> (v < n)%nat ->
       0 <= cell (MaxFlow.capacity mf') u v <= INT_MAX).
Proof.
  intros Hcalls Hs Ht Hpairs Hrow Hturns.
  destruct (run_bounded n calls source sink k steps mf parent flow Hcalls Hs Ht Hturns)
    as [Hcells Hflow].
  split; [| split; [lia |]].
  - intros u v Hu Hv. specialize (Hcells u v Hu Hv). specialize (Hpairs u v Hu Hv). lia.
  - intros mf' pf parent' Haug.
    pose proof (after_turns_snoc _ _ _ _ _ _ _ _ _ _ _ _ _ Hturns Haug) as Hnext.
    destruct (run_bounded n calls source sink (S k) steps mf' parent' (flow + pf)
                Hcalls Hs Ht Hnext) as [Hcells' Hflow'].
    assert (0 < pf) as Hpf.
    { pose proof (wf_add_edges n calls Hcalls) as Hwf0.
      pose proof (n_add_edges calls (MaxFlow.new n)) as Hn. simpl in Hn.
      unfold maxflow_turns in Hturns.
      destruct (after_turns_inv _ _ _ _ _ _ _ _ _ _ _
                  (flow_inv_start _ source sink Hwf0)
                  (length_replicate _ _) ltac:(lia) ltac:(lia) Hturns)
        as [(Hwf & Hn' & _) Hlen].
      assert (length parent = MaxFlow.n mf) as Hlen' by lia.
      assert (source < MaxFlow.n mf)%nat as Hs' by lia.
      assert (sink < MaxFlow.n mf)%nat as Ht' by lia.
      by destruct (augment_spec steps mf source sink parent mf' pf parent'
                     Hwf Hlen' Hs' Ht' Haug) as (_ & _ & _ & _ & Hpf & _). }
    split; [| split; [lia |]].
    + lia.
    + intros u v Hu Hv. specialize (Hcells' u v Hu Hv).
      specialize (Hpairs u v Hu Hv). lia.
Qed.

(** The diamond, in its first state. *)
Lemma maxflow_within_int_witness :
  (forall u v, (u < 4)%nat -> (v < 4)%nat ->
     0 <= cell (MaxFlow.capacity (add_edges diamond_calls (MaxFlow.new 4))) u v
       <= INT_MAX) /\
  0 <= 0 <= INT_MAX /\
  (forall mf' path_flow parent',
     MaxFlow.augment 6 (add_edges diamond_calls (MaxFlow.new 4)) 0 3 (replicate 4 0) =
       Some (inr (mf', path_flow, parent')) ->
     0 < path_flow <= INT_MAX /\
     0 <= 0 + path_flow <= INT_MAX /\
     forall u v, (u < 4)%nat -> (v < 4)%nat ->
       0 <= cell (MaxFlow.capacity mf') u v <= INT_MAX).
Proof.
  apply (maxflow_within_int 4 diamond_calls 0 3 0 6).
  - repeat constructor; simpl; lia.
  - lia.
  - lia.
  - intros u v Hu Hv.
    destruct u as [|[|[|[|u]]]]; [| | | | lia];
      (destruct v as [|[|[|[|v]]]]; [| | | | lia]); by vm_compute.
  - by vm_compute.
  - reflexivity.
Defined.

(** * The program on the machine's integers *)

Lemma int_wrap_range x : INT_MIN <= int_wrap x <= INT_MAX.
Proof.
  unfold int_wrap, INT_MIN, INT_MAX.
  pose proof (Z.mod_pos_bound (x - -2147483648) 4294967296 ltac:(lia)). lia.
Qed.

Lemma int_wrap_id x : INT_MIN <= x <= INT_MAX -> int_wrap x = x.
Proof.
  unfold int_wrap, INT_MIN, INT_MAX. intros H.
  rewrite Z.mod_small by lia. lia.
Qed.

(** ** What [bfs] sees *)

Lemma cell_clamp cap u v :
  cell (map (map (Z.max 0)) cap) u v = Z.max 0 (cell cap u v).
Proof.
  unfold cell. rewrite !list_lookup_total_alt.
  change (map (map (Z.max 0)) cap) with (map (Z.max 0) <$> cap).
  rewrite list_lookup_fmap. destruct (cap !! u) as [row|]; simpl; [| done].
  change (map (Z.max 0) row) with (Z.max 0 <$> row).
  rewrite list_lookup_fmap. by destruct (row !! v).
Qed.

Lemma bfs_for_clamp mf sink u flow vs : forall parent q,
  MaxFlow.bfs_for (clamp mf) sink u flow vs parent q =
  MaxFlow.bfs_for mf sink u flow vs parent q.
Proof.
  induction vs as [|v vs IH]; intros parent q; [done |].
  cbn [MaxFlow.bfs_for]. simpl MaxFlow.capacity. rewrite cell_clamp.
  destruct (parent !!! v =? -1); simpl; [| apply IH].
  destruct (Z_lt_dec 0 (cell (MaxFlow.capacity mf) u v)) as [Hpos|Hneg].
  - rewrite Z.max_r by lia.
    destruct (0 <? _); [| apply IH]. destruct (Nat.eqb v sink); [done | apply IH].
  - rewrite Z.max_l by lia.
    rewrite (proj2 (Z.ltb_ge 0 (cell (MaxFlow.capacity mf) u v))) by lia.
    simpl. apply IH.
Qed.

Lemma bfs_while_clamp fuel mf sink : forall parent q,
  MaxFlow.bfs_while fuel (clamp mf) sink parent q =
  MaxFlow.bfs_while fuel mf sink parent q.
Proof.
  induction fuel as [|fuel IH]; intros parent q; [done |].
  simpl. destruct q as [|[u flow] q]; [done |].
  rewrite bfs_for_clamp.
  destruct (MaxFlow.bfs_for _ _ _ _ _ _ _) as [[[] p1] q1]; [done | apply IH].
Qed.

Lemma bfs_clamp fuel mf source sink parent :
  MaxFlow.bfs fuel (clamp mf) source sink parent =
  MaxFlow.bfs fuel mf source sink parent.
Proof. unfold MaxFlow.bfs. apply bfs_while_clamp. Qed.

Lemma wf_clamp mf : wf_int mf -> wf_engine (clamp mf).
Proof.
  intros [[[Hlen Hrows] Hadjl] Hadj Hcov Hsym Hrange].
  constructor; unfold shaped, square, clamp; cbn [MaxFlow.capacity MaxFlow.n MaxFlow.adj].
  - split; [| done]. split; [by rewrite length_map |].
    intros w Hw. change (map (map (Z.max 0)) (MaxFlow.capacity mf))
      with (map (Z.max 0) <$> MaxFlow.capacity mf).
    rewrite !list_lookup_total_alt, list_lookup_fmap.
    destruct (lookup_lt_is_Some_2 (MaxFlow.capacity mf) w ltac:(lia)) as [row Hrow].
    specialize (Hrows w Hw). rewrite list_lookup_total_alt, Hrow in Hrows.
    rewrite Hrow. simpl in *. by rewrite length_map.
  - done.
  - intros u v _ _. rewrite cell_clamp. lia.
  - intros u v Hu Hv. rewrite cell_clamp. intros Hpos. apply Hcov; [done | done | lia].
  - done.
Qed.

Lemma residual_path_clamp mf x y :
  residual_path (MaxFlow.n mf) (MaxFlow.capacity mf) x y ->
  residual_path (MaxFlow.n mf) (MaxFlow.capacity (clamp mf)) x y.
Proof.
  induction 1 as [|a b c Ha Hb Hpos _ IH]; [constructor |].
  apply (residual_path_arc _ _ a b c); try done.
  simpl. rewrite cell_clamp. lia.
Qed.

(** ** Engines built by [addEdge] on the machine *)

Lemma add_edges_int_snoc calls call mf :
  add_edges_int (calls ++ [call]) mf =
    MaxFlowInt.addEdge (fst (fst call)) (snd (fst call)) (snd call)
      (add_edges_int calls mf).
Proof. unfold add_edges_int. by rewrite fold_left_app. Qed.

Lemma n_add_edges_int calls mf : MaxFlow.n (add_edges_int calls mf) = MaxFlow.n mf.
Proof.
  induction calls as [|call calls IH] using rev_ind; [done |].
  by rewrite add_edges_int_snoc.
Qed.

Lemma wf_int_new n : wf_int (MaxFlow.new n).
Proof.
  assert (forall u, MaxFlow.adj (MaxFlow.new n) !!! u = []) as Hadj.
  { intros u. simpl. destruct (decide (u < n)%nat).
    - by apply lookup_total_replicate_2.
    - rewrite list_lookup_total_alt, (lookup_ge_None_2 _ u); [done |].
      rewrite length_replicate. lia. }
  constructor.
  - apply shaped_new.
  - intros u v. by rewrite Hadj.
  - intros u v Hu Hv. simpl in *. by rewrite cell_new.
  - intros u v _ _. by rewrite Hadj.
  - intros u v Hu Hv. simpl in *. rewrite cell_new by done.
    unfold INT_MIN, INT_MAX. lia.
Qed.

Lemma wf_int_addEdge u v cap mf :
  wf_int mf -> (u < MaxFlow.n mf)%nat -> (v < MaxFlow.n mf)%nat ->
  wf_int (MaxFlowInt.addEdge u v cap mf).
Proof.
  intros Hwf Hu Hv. pose proof Hwf as [Hsh Hadj Hcov Hsym Hrange].
  pose proof Hsh as [Hsq Hlen].
  assert (forall a b, In b (MaxFlow.adj mf !!! a) ->
            In b (MaxFlow.adj (MaxFlowInt.addEdge u v cap mf) !!! a)) as Hkeep.
  { intros a b Hab. simpl. destruct (_ && _); [| done].
    rewrite !in_push_adj. by do 2 left. }
  assert (forall a b,
            cell (MaxFlow.capacity (MaxFlowInt.addEdge u v cap mf)) a b =
            if decide (a = u /\ b = v)
            then int_wrap (cell (MaxFlow.capacity mf) u v + cap)
            else cell (MaxFlow.capacity mf) a b) as Hcell.
  { intros a b. simpl. by apply (cell_set_cell_sq (MaxFlow.n mf)). }
  constructor.
  - split; simpl.
    + by apply square_set_cell.
    + destruct (_ && _); [| done]. by rewrite !length_push_adj.
  - intros a b. simpl. destruct (_ && _); [| apply Hadj].
    rewrite !in_push_adj.
    intros [[H|(-> & -> & _)]|(-> & -> & _)]; [by apply (Hadj a) | done | done].
  - intros a b Ha Hb. rewrite Hcell.
    destruct (decide (a = u /\ b = v)) as [[-> ->]|_];
      [| intros H; by apply Hkeep, Hcov].
    intros _. simpl.
    destruct (Z.eqb_spec (cell (MaxFlow.capacity mf) u v) 0) as [E1|E1]; simpl.
    + destruct (Z.eqb_spec (cell (MaxFlow.capacity mf) v u) 0) as [E2|E2].
      * rewrite !in_push_adj, length_push_adj. left. right. repeat split; lia.
      * apply Hsym; [done | done |]. by apply Hcov.
    + by apply Hcov.
  - intros a b Ha Hb. simpl. destruct (_ && _); [| by apply Hsym].
    rewrite !in_push_adj, !length_push_adj.
    intros [[H|(-> & -> & _)]|(-> & -> & _)].
    + left. left. by apply Hsym.
    + right. repeat split; lia.
    + left. right. repeat split; lia.
  - intros a b Ha Hb. rewrite Hcell.
    destruct (decide _); [apply int_wrap_range | by apply Hrange].
Qed.

Lemma wf_int_add_edges n calls :
  Forall (call_in_range n) calls -> wf_int (add_edges_int calls (MaxFlow.new n)).
Proof.
  induction calls as [|[[u v] cap] calls IH] using rev_ind; intros Hall.
  - apply wf_int_new.
  - apply Forall_app in Hall as [Hall Hlast].
    apply Forall_cons in Hlast as [[Hu Hv] _]. simpl in *.
    rewrite add_edges_int_snoc. simpl.
    apply wf_int_addEdge; [by apply IH | |]; by rewrite n_add_edges_int.
Qed.

(** ** One augmentation on the machine *)

Lemma arc_in_dec (a : nat * nat) (l : list (nat * nat)) : {In a l} + {~ In a l}.
Proof. apply in_dec. intros x y. apply (decide (x = y)). Qed.

(** What the second loop of [maxflow] leaves on the machine when it walks a
    chain that meets no node twice: each arc of the chain loses
    [path_flow], its reverse gains it, both as the machine adds, and
    nothing else changes. *)
Lemma path_update_int_exact n fuel cap parent source v l pf :
  chain parent source v l -> NoDup l -> Forall (fun x => (x < n)%nat) l ->
  square n cap -> (length l <= S fuel)%nat ->
  exists cap',
    MaxFlowInt.path_update fuel cap parent source v pf = Some cap' /\
    square n cap' /\
    (forall a b, In (a, b) (arcs l) ->
       cell cap' a b = int_wrap (cell cap a b - pf) /\
       cell cap' b a = int_wrap (cell cap b a + pf)) /\
    (forall a b, ~ In (a, b) (arcs l) -> ~ In (b, a) (arcs l) ->
       cell cap' a b = cell cap a b).
Proof.
  intros Hc. revert fuel cap.
  induction Hc as [|v u l Hv Hp Hc IH]; intros fuel cap Hnd Hn Hsq Hlen.
  - exists cap. split; [destruct fuel; simpl; by rewrite Nat.eqb_refl |].
    split; [done |]. split; [intros a b [] | done].
  - destruct (chain_head _ _ _ _ Hc) as [l' ->].
    destruct fuel as [|fuel]; [simpl in Hlen; lia |].
    cbn [MaxFlowInt.path_update].
    destruct (Nat.eqb_spec v source) as [|_]; [done |].
    rewrite Hp, Nat2Z.id.
    apply NoDup_cons in Hnd as [Hfresh Hnd]. rewrite list_elem_of_In in Hfresh.
    apply Forall_cons in Hn as [Hvn Hn].
    pose proof Hn as Hn'. apply Forall_cons in Hn' as [Hun _].
    assert (u <> v) as Huv by (intros ->; apply Hfresh; by left).
    set (cap1 := set_cell cap u v (int_wrap (cell cap u v - pf))).
    set (cap2 := set_cell cap1 v u (int_wrap (cell cap1 v u + pf))).
    assert (square n cap1) as Hsq1 by (by apply square_set_cell).
    assert (square n cap2) as Hsq2 by (by apply square_set_cell).
    assert (forall a b, cell cap2 a b =
              if decide (a = v /\ b = u) then int_wrap (cell cap v u + pf)
              else if decide (a = u /\ b = v) then int_wrap (cell cap u v - pf)
              else cell cap a b) as Hcell.
    { intros a b. unfold cap2.
      rewrite (cell_set_cell_sq n) by done.
      assert (cell cap1 v u = cell cap v u) as ->.
      { unfold cap1. rewrite (cell_set_cell_sq n) by done.
        destruct (decide (v = u /\ u = v)) as [[E _]|_]; [congruence | done]. }
      destruct (decide (a = v /\ b = u)); [done |].
      unfold cap1. by rewrite (cell_set_cell_sq n) by done. }
    destruct (IH fuel cap2 Hnd Hn Hsq2) as (cap' & Hupd & Hsq' & Hon & Hoff);
      [simpl in *; lia |].
    exists cap'. split; [done |]. split; [done |].
    change (arcs (v :: u :: l')) with ((u, v) :: arcs (u :: l')).
    split.
    + intros a b [[= <- <-]|Hin].
      * assert (~ In (u, v) (arcs (u :: l'))) as H1
          by (intros H; by destruct (arcs_fresh v _ _ _ Hfresh H)).
        assert (~ In (v, u) (arcs (u :: l'))) as H2
          by (intros H; by destruct (arcs_fresh v _ _ _ Hfresh H)).
        rewrite (Hoff u v H1 H2), (Hoff v u H2 H1), !Hcell.
        destruct (decide (u = v /\ v = u)) as [[E _]|_]; [congruence |].
        destruct (decide (u = u /\ v = v)) as [_|E]; [| by destruct E].
        destruct (decide (v = v /\ u = u)) as [_|E]; [| by destruct E].
        done.
      * destruct (arcs_fresh v _ _ _ Hfresh Hin) as [Hav Hbv].
        destruct (Hon a b Hin) as [-> ->]. rewrite !Hcell.
        destruct (decide (a = v /\ b = u)) as [[E _]|_]; [congruence |].
        destruct (decide (a = u /\ b = v)) as [[_ E]|_]; [congruence |].
        destruct (decide (b = v /\ a = u)) as [[E _]|_]; [congruence |].
        destruct (decide (b = u /\ a = v)) as [[_ E]|_]; [congruence |].
        done.
    + intros a b Hab Hba.
      rewrite Hoff;
        [| intros H; apply Hab; by right | intros H; apply Hba; by right].
      rewrite Hcell.
      destruct (decide (a = v /\ b = u)) as [[-> ->]|_];
        [destruct Hba; by left |].
      destruct (decide (a = u /\ b = v)) as [[-> ->]|_];
        [destruct Hab; by left | done].
Qed.

(** Of the arcs of a chain from a node other than the source, exactly one
    leaves the source and none enters it. *)
Lemma chain_arcs_source parent source v l :
  chain parent source v l -> v <> source ->
  (exists x, In (source, x) (arcs l) /\
     forall b, In (source, b) (arcs l) -> b = x) /\
  forall a, ~ In (a, source) (arcs l).
Proof.
  induction 1 as [|v u l Hv Hp Hc IH]; intros Hne; [done |].
  destruct (chain_head _ _ _ _ Hc) as [l' ->].
  change (arcs (v :: u :: l')) with ((u, v) :: arcs (u :: l')).
  destruct (decide (u = source)) as [->|Hu].
  - apply chain_source_only in Hc as [= ->]. simpl. split.
    + exists v. split; [by left |]. intros b [[= <-]|[]]. done.
    + intros a [[= _ E]|[]]. congruence.
  - destruct (IH Hu) as [(x & Hx & Huniq) Hnone]. split.
    + exists x. split; [by right |].
      intros b [[= E _]|Hin]; [congruence | by apply Huniq].
    + intros a [[= _ E]|Hin]; [congruence | by apply (Hnone a)].
Qed.

(** One turn of the loop of [maxflow] on the machine: the engine stays well
    formed, whatever overflowed, and the residual capacity that leaves the
    source went down by the bottleneck, which is positive. *)
Lemma augment_int_spec steps mf source sink parent mf' pf parent' :
  wf_int mf -> length parent = MaxFlow.n mf ->
  (source < MaxFlow.n mf)%nat -> (sink < MaxFlow.n mf)%nat ->
  MaxFlowInt.augment steps mf source sink parent = Some (inr (mf', pf, parent')) ->
  wf_int mf' /\ MaxFlow.n mf' = MaxFlow.n mf /\ length parent' = MaxFlow.n mf /\
  0 < pf <= INT_MAX /\ sink <> source /\
  slack mf' source = slack mf source - pf.
Proof.
  intros Hwf Hlen Hs Ht. unfold MaxFlowInt.augment.
  destruct (MaxFlow.bfs _ _ _ _ _) as [[b p1]|] eqn:Hbfs; [| done].
  rewrite <- bfs_clamp in Hbfs.
  destruct (bfs_spec _ _ _ _ _ _ _ (wf_clamp _ Hwf) Hlen Hs Ht Hbfs)
    as (Htree & Htrue & _).
  destruct b; [| done].
  destruct (Htrue eq_refl) as [Hpt Hts].
  destruct Htree as (Hlen1 & _ & _ & Hch).
  destruct (Hch sink Ht Hpt) as (l & Hc & Hnd & Hn & Hpos).
  change (MaxFlow.n (clamp mf)) with (MaxFlow.n mf) in *.
  assert (Forall (fun a => 0 < cell (MaxFlow.capacity mf) (fst a) (snd a)) (arcs l))
    as Hpos'.
  { eapply Forall_impl; [exact Hpos |]. intros a. simpl. rewrite cell_clamp. lia. }
  destruct (MaxFlow.path_min _ _ _ _ _ _) as [pf1|] eqn:Hmin; [| done].
  destruct (MaxFlowInt.path_update _ _ _ _ _ _) as [cap'|] eqn:Hupd; [| done].
  intros [= <- <- <-].
  pose proof (NoDup_bounded_length _ _ Hnd Hn) as Hl.
  (* the bottleneck *)
  destruct (path_min_chain (length l) (MaxFlow.capacity mf) _ _ _ _ INT_MAX Hc)
    as (r & Hr & Hmax & Hle & Hrpos); [lia |].
  assert (r = pf1) as ->.
  { destruct (Nat.le_ge_cases (length l) steps) as [H|H].
    - apply (path_min_fuel _ _ _ _ _ _ _ _ H) in Hr. congruence.
    - apply (path_min_fuel _ _ _ _ _ _ _ _ H) in Hmin. congruence. }
  assert (0 < pf1) as Hpf by (apply Hrpos; [done | done]).
  (* the update *)
  pose proof Hwf as [[Hsq Hadjl] Hadj Hcov Hsym Hrange].
  destruct (path_update_int_exact (MaxFlow.n mf) (length l) (MaxFlow.capacity mf)
              _ _ _ _ pf1 Hc Hnd Hn Hsq) as (cap2 & Hupd2 & Hsq' & Hon & Hoff); [lia |].
  assert (cap2 = cap') as ->.
  { destruct (Nat.le_ge_cases (length l) steps) as [H|H].
    - apply (path_update_int_fuel _ _ _ _ _ _ _ _ H) in Hupd2. congruence.
    - apply (path_update_int_fuel _ _ _ _ _ _ _ _ H) in Hupd. congruence. }
  assert (forall a b, In (a, b) (arcs l) ->
            (a < MaxFlow.n mf)%nat /\ (b < MaxFlow.n mf)%nat /\
            pf1 <= cell (MaxFlow.capacity mf) a b) as Harc.
  { intros a b Hin. destruct (arcs_nodes _ _ _ Hin) as [Ha Hb].
    rewrite List.Forall_forall in Hn, Hle.
    split; [by apply Hn |]. split; [by apply Hn |]. apply (Hle (a, b) Hin). }
  split; [| split; [done |]; split; [done |]; split; [done |]; split; [done |]].
  - constructor; simpl; try done.
    + intros u v Hu Hv Hne.
      destruct (arc_in_dec (u, v) (arcs l)) as [Huv|Huv].
      { destruct (Harc u v Huv) as (_ & _ & H). apply Hcov; [done | done | lia]. }
      destruct (arc_in_dec (v, u) (arcs l)) as [Hvu|Hvu].
      { destruct (Harc v u Hvu) as (_ & _ & H).
        apply Hsym; [done | done |]. apply Hcov; [done | done | lia]. }
      rewrite (Hoff u v Huv Hvu) in Hne. by apply Hcov.
    + intros u v Hu Hv.
      destruct (arc_in_dec (u, v) (arcs l)) as [Huv|Huv].
      { destruct (Hon u v Huv) as [-> _]. apply int_wrap_range. }
      destruct (arc_in_dec (v, u) (arcs l)) as [Hvu|Hvu].
      { destruct (Hon v u Hvu) as [_ ->]. apply int_wrap_range. }
      rewrite (Hoff u v Huv Hvu). by apply Hrange.
  - (* the source row *)
    destruct (chain_arcs_source _ _ _ _ Hc Hts) as [(x & Hx & Huniq) Hnone].
    destruct (Harc source x Hx) as (_ & Hxn & Hpfx).
    pose proof (Hrange source x Hs Hxn) as Hxr.
    unfold slack. simpl.
    set (f := fun v => Z.max 0 (cell (MaxFlow.capacity mf) source v)).
    set (f' := fun v => Z.max 0 (cell cap' source v)).
    assert (sumZ (fun v => f v - f' v) (MaxFlow.n mf) = pf1) as Hdiff.
    { rewrite (sumZ_single _ x); [| done |].
      2: { intros i Hi Hix. unfold f, f'.
           rewrite Hoff; [lia | intros H; by apply Hix, Huniq | apply Hnone]. }
      unfold f, f'. destruct (Hon source x Hx) as [-> _].
      rewrite int_wrap_id by (unfold INT_MIN in *; lia). lia. }
    rewrite sumZ_sub in Hdiff. lia.
Qed.

Lemma augment_int_returns steps mf source sink parent :
  wf_int mf -> length parent = MaxFlow.n mf ->
  (source < MaxFlow.n mf)%nat -> (sink < MaxFlow.n mf)%nat ->
  (MaxFlow.n mf + 2 <= steps)%nat ->
  exists r, MaxFlowInt.augment steps mf source sink parent = Some r.
Proof.
  intros Hwf Hlen Hs Ht Hsteps. unfold MaxFlowInt.augment.
  destruct (bfs_returns steps (clamp mf) source sink parent (wf_clamp _ Hwf) Hlen Hsteps)
    as [[b parent'] Hbfs].
  pose proof Hbfs as Hbfs'. rewrite bfs_clamp in Hbfs'. rewrite Hbfs'.
  destruct (bfs_spec _ _ _ _ _ _ _ (wf_clamp _ Hwf) Hlen Hs Ht Hbfs)
    as (Htree & Htrue & _).
  destruct b; [| eauto].
  destruct (Htrue eq_refl) as [Hpt _].
  destruct Htree as (_ & _ & _ & Hch).
  destruct (Hch sink Ht Hpt) as (l & Hc & Hnd & Hn & Hpos).
  change (MaxFlow.n (clamp mf)) with (MaxFlow.n mf) in *.
  pose proof (NoDup_bounded_length _ _ Hnd Hn) as Hl.
  destruct (path_min_chain steps (MaxFlow.capacity mf) _ _ _ _ INT_MAX Hc)
    as (pf & -> & _); [lia |].
  destruct (path_update_int_exact (MaxFlow.n mf) steps (MaxFlow.capacity mf)
              _ _ _ _ pf Hc Hnd Hn) as (cap' & -> & _); [apply Hwf | lia |].
  eauto.
Qed.

(** When the search of a turn fails on the machine, no path of arcs with
    residual capacity leads from the source to the sink. *)
Lemma augment_int_final steps mf source sink parent parent' :
  wf_int mf -> length parent = MaxFlow.n mf ->
  (source < MaxFlow.n mf)%nat -> (sink < MaxFlow.n mf)%nat ->
  MaxFlowInt.augment steps mf source sink parent = Some (inl parent') ->
  sink <> source ->
  ~ residual_path (MaxFlow.n mf) (MaxFlow.capacity mf) source sink.
Proof.
  intros Hwf Hlen Hs Ht Haug Hne Hpath.
  apply residual_path_clamp in Hpath. revert Hpath.
  apply (no_residual_path steps (clamp mf) source sink parent parent');
    try done; [apply (wf_clamp _ Hwf) |].
  unfold MaxFlow.augment. rewrite bfs_clamp.
  unfold MaxFlowInt.augment in Haug.
  destruct (MaxFlow.bfs _ _ _ _ _) as [[[] p1]|]; [| done | done].
  destruct (MaxFlow.path_min _ _ _ _ _ _); [| done].
  destruct (MaxFlowInt.path_update _ _ _ _ _ _); done.
Qed.

Lemma slack_nonneg mf source : 0 <= slack mf source.
Proof. apply sumZ_nonneg. intros i _. lia. Qed.

(** ** The loop of [maxflow] on the machine *)

Lemma maxflow_while_int_returns fuel steps n source sink :
  (source < n)%nat -> (sink < n)%nat -> (n + 2 <= steps)%nat ->
  forall mf parent flow,
  wf_int mf -> MaxFlow.n mf = n -> length parent = n ->
  INT_MIN <= flow <= INT_MAX ->
  slack mf source < Z.of_nat fuel ->
  exists flow' mf',
    MaxFlowInt.maxflow_while fuel steps mf source sink parent flow = Some (flow', mf') /\
    wf_int mf' /\ MaxFlow.n mf' = n /\ INT_MIN <= flow' <= INT_MAX /\
    (sink <> source -> ~ residual_path n (MaxFlow.capacity mf') source sink).
Proof.
  intros Hs Ht Hsteps.
  induction fuel as [|fuel IH]; intros mf parent flow Hwf Hn Hlen Hflow Hfuel.
  - pose proof (slack_nonneg mf source). lia.
  - subst n. simpl.
    destruct (augment_int_returns steps mf source sink parent) as [r Hr]; try done.
    rewrite Hr. destruct r as [p1|[[mf1 pf] p1]].
    + exists flow, mf. split; [done |]. split; [done |]. split; [done |].
      split; [done |]. by apply (augment_int_final steps mf source sink parent p1).
    + apply augment_int_spec in Hr as (Hwf1 & Hn1 & Hlen1 & Hpf & _ & Hslack);
        try done.
      destruct (IH mf1 p1 (int_wrap (flow + pf))) as (flow' & mf' & Hret & Hrest);
        try done; [apply int_wrap_range | lia |].
      exists flow', mf'. split; [done |]. exact Hrest.
Qed.

Lemma maxflow_while_int_turns fuel steps mf source sink parent flow flow' mf' :
  MaxFlowInt.maxflow_while fuel steps mf source sink parent flow = Some (flow', mf') ->
  exists k parent',
    (k < fuel)%nat /\
    after_turns_int k steps mf source sink parent flow = Some (mf', parent', flow').
Proof.
  revert mf parent flow. induction fuel as [|fuel IH]; intros mf parent flow; [done |].
  simpl.
  destruct (MaxFlowInt.augment _ _ _ _ _) as [[p1|[[mf1 pf] p1]]|] eqn:Haug; [| | done].
  - intros [= <- <-]. exists O, parent. split; [lia | done].
  - intros H. apply IH in H as (k & p' & Hk & Hturns).
    exists (S k), p'. split; [lia |]. simpl. by rewrite Haug.
Qed.

(** C6: on an engine built from non-negative capacities between valid
    nodes, with a valid source and sink, [maxflow] returns, also where its
    additions overflow: some amount of fuel is enough, any larger amount
    gives the same flow and the same final engine, which the loop reaches
    after finitely many augmentations and where no path of arcs with
    residual capacity leads from the source to the sink.  Each augmentation
    takes at least one unit from the residual capacity that leaves the
    source, which no addition of the machine touches otherwise. *)
Theorem maxflow_terminates n calls source sink :
  Forall (valid_call n) calls -> (source < n)%nat -> (sink < n)%nat ->
  exists fuel0 flow mf,
    (forall fuel, (fuel0 <= fuel)%nat ->
       MaxFlowInt.maxflow fuel source sink (add_edges_int calls (MaxFlow.new n)) =
         Some (flow, mf)) /\
    (exists k parent,
       maxflow_turns_int k fuel0 source sink (add_edges_int calls (MaxFlow.new n)) =
         Some (mf, parent, flow)) /\
    INT_MIN <= flow <= INT_MAX /\
    (sink <> source -> ~ residual_path n (MaxFlow.capacity mf) source sink).
Proof.
  intros Hcalls Hs Ht.
  assert (wf_int (add_edges_int calls (MaxFlow.new n))) as Hwf.
  { apply wf_int_add_edges. eapply Forall_impl; [exact Hcalls |].
    intros call (_ & Hu & Hv). by split. }
  set (mf0 := add_edges_int calls (MaxFlow.new n)) in *.
  assert (MaxFlow.n mf0 = n) as Hn by apply n_add_edges_int.
  set (fuel0 := Nat.max (n + 2) (Z.to_nat (slack mf0 source) + 1)).
  destruct (maxflow_while_int_returns fuel0 fuel0 n source sink Hs Ht ltac:(lia)
              mf0 (replicate n 0) 0 Hwf Hn)
    as (flow & mf & Hret & _ & _ & Hflow & Hno).
  { apply length_replicate. }
  { unfold INT_MIN, INT_MAX. lia. }
  { pose proof (slack_nonneg mf0 source). lia. }
  exists fuel0, flow, mf. split; [| split; [| done]].
  - intros fuel Hle. apply (maxflow_int_fuel fuel0); [done |].
    unfold MaxFlowInt.maxflow. by rewrite Hn.
  - apply maxflow_while_int_turns in Hret as (k & parent & _ & Hturns).
    exists k, parent. unfold maxflow_turns_int. by rewrite Hn.
Qed.

(** The run on four arcs of [INT_MAX] from the source to the sink. *)
Lemma maxflow_terminates_witness :
  exists fuel0 flow mf,
    (forall fuel, (fuel0 <= fuel)%nat ->
       MaxFlowInt.maxflow fuel 0 3 (add_edges_int overflow_diamond_calls (MaxFlow.new 4)) =
         Some (flow, mf)) /\
    (exists k parent,
       maxflow_turns_int k fuel0 0 3 (add_edges_int overflow_diamond_calls (MaxFlow.new 4)) =
         Some (mf, parent, flow)) /\
    INT_MIN <= flow <= INT_MAX /\
    (3%nat <> 0%nat -> ~ residual_path 4 (MaxFlow.capacity mf) 0 3).
Proof.
  apply (maxflow_terminates 4 overflow_diamond_calls 0 3).
  - unfold overflow_diamond_calls, valid_call, INT_MAX.
    repeat (apply List.Forall_cons; [simpl; lia |]). apply List.Forall_nil.
  - lia.
  - lia.
Defined.

Example overflow_diamond_flow :
  option_map fst
    (MaxFlowInt.maxflow 6 0 3 (add_edges_int overflow_diamond_calls (MaxFlow.new 4)))
  = Some (-2).
Proof. vm_compute. reflexivity. Qed.

(** ** The machine and the model *)

(** Where no sum leaves [int], the second loop of [maxflow] does on the
    machine what it does in [Z]. *)
Lemma path_update_int_agrees n parent source v l pf :
  chain parent source v l -> NoDup l -> Forall (fun x => (x < n)%nat) l ->
  forall fuel cap, square n cap ->
  (forall a b, In (a, b) (arcs l) ->
     INT_MIN <= cell cap a b - pf <= INT_MAX /\
     INT_MIN <= cell cap b a + pf <= INT_MAX) ->
  MaxFlowInt.path_update fuel cap parent source v pf =
  MaxFlow.path_update fuel cap parent source v pf.
Proof.
  induction 1 as [|v u l Hv Hp Hc IH]; intros Hnd Hn fuel cap Hsq Hfit.
  - destruct fuel; simpl; by rewrite Nat.eqb_refl.
  - destruct (chain_head _ _ _ _ Hc) as [l' ->].
    destruct fuel as [|fuel];
      [simpl; by destruct (Nat.eqb v source) |].
    cbn [MaxFlowInt.path_update MaxFlow.path_update].
    destruct (Nat.eqb_spec v source) as [|_]; [done |].
    rewrite Hp, Nat2Z.id.
    apply NoDup_cons in Hnd as [Hfresh Hnd]. rewrite list_elem_of_In in Hfresh.
    apply Forall_cons in Hn as [Hvn Hn].
    pose proof Hn as Hn'. apply Forall_cons in Hn' as [Hun _].
    assert (u <> v) as Huv by (intros ->; apply Hfresh; by left).
    destruct (Hfit u v) as [Hf1 Hf2];
      [change (arcs (v :: u :: l')) with ((u, v) :: arcs (u :: l')); by left |].
    rewrite (int_wrap_id _ Hf1).
    set (cap1 := set_cell cap u v (cell cap u v - pf)).
    assert (square n cap1) as Hsq1 by (by apply square_set_cell).
    assert (cell cap1 v u = cell cap v u) as Hvu.
    { unfold cap1. rewrite (cell_set_cell_sq n) by done.
      destruct (decide (v = u /\ u = v)) as [[E _]|_]; [congruence | done]. }
    rewrite int_wrap_id by (by rewrite Hvu).
    set (cap2 := set_cell cap1 v u (cell cap1 v u + pf)).
    apply IH; try done; [by apply square_set_cell |].
    intros a b Hin.
    destruct (arcs_fresh v _ _ _ Hfresh Hin) as [Hav Hbv].
    assert (forall x y, x <> v -> y <> v -> cell cap2 x y = cell cap x y) as Hsame.
    { intros x y Hx Hy. unfold cap2. rewrite (cell_set_cell_sq n) by done.
      destruct (decide (x = v /\ y = u)) as [[E _]|_]; [congruence |].
      unfold cap1. rewrite (cell_set_cell_sq n) by done.
      destruct (decide (x = u /\ y = v)) as [[_ E]|_]; [congruence | done]. }
    rewrite !Hsame by done. apply Hfit.
    change (arcs (v :: u :: l')) with ((u, v) :: arcs (u :: l')). by right.
Qed.

(** One turn on the machine is the turn in [Z] while the two entries of
    every pair sum to at most [INT_MAX]. *)
Lemma augment_int_agrees steps mf source sink parent :
  wf_engine mf -> length parent = MaxFlow.n mf ->
  (source < MaxFlow.n mf)%nat -> (sink < MaxFlow.n mf)%nat ->
  (forall u v, (u < MaxFlow.n mf)%nat -> (v < MaxFlow.n mf)%nat ->
     cell (MaxFlow.capacity mf) u v + cell (MaxFlow.capacity mf) v u <= INT_MAX) ->
  MaxFlowInt.augment steps mf source sink parent =
  MaxFlow.augment steps mf source sink parent.
Proof.
  intros Hwf Hlen Hs Ht Hsum. unfold MaxFlowInt.augment, MaxFlow.augment.
  destruct (MaxFlow.bfs _ _ _ _ _) as [[b p1]|] eqn:Hbfs; [| done].
  destruct (bfs_spec _ _ _ _ _ _ _ Hwf Hlen Hs Ht Hbfs) as (Htree & Htrue & _).
  destruct b; [| done].
  destruct (Htrue eq_refl) as [Hpt Hts].
  destruct Htree as (Hlen1 & _ & _ & Hch).
  destruct (Hch sink Ht Hpt) as (l & Hc & Hnd & Hn & Hpos).
  destruct (MaxFlow.path_min _ _ _ _ _ _) as [pf1|] eqn:Hmin; [| done].
  pose proof (NoDup_bounded_length _ _ Hnd Hn) as Hl.
  destruct (path_min_chain (length l) (MaxFlow.capacity mf) _ _ _ _ INT_MAX Hc)
    as (r & Hr & Hmax & Hle & Hrpos); [lia |].
  assert (r = pf1) as ->.
  { destruct (Nat.le_ge_cases (length l) steps) as [H|H].
    - apply (path_min_fuel _ _ _ _ _ _ _ _ H) in Hr. congruence.
    - apply (path_min_fuel _ _ _ _ _ _ _ _ H) in Hmin. congruence. }
  assert (0 < pf1) as Hpf by (apply Hrpos; [done | done]).
  rewrite (path_update_int_agrees (MaxFlow.n mf) p1 source sink l pf1 Hc Hnd Hn);
    [done | apply Hwf |].
  intros a b Hin. destruct (arcs_nodes _ _ _ Hin) as [Ha Hb].
  rewrite List.Forall_forall in Hn, Hle.
  pose proof (Hn a Ha) as Han. pose proof (Hn b Hb) as Hbn.
  pose proof (Hle (a, b) Hin) as Hple. simpl in Hple.
  pose proof (wf_nonneg _ Hwf a b Han Hbn).
  pose proof (wf_nonneg _ Hwf b a Hbn Han).
  pose proof (Hsum a b Han Hbn). unfold INT_MIN. lia.
Qed.

(** The loop on the machine is the loop in [Z] on an engine whose pairs
    started with at most [INT_MAX] and whose source started with at most
    [INT_MAX] on the arcs that leave it. *)
Lemma maxflow_while_int_agrees mf0 source sink steps :
  (source < MaxFlow.n mf0)%nat -> (sink < MaxFlow.n mf0)%nat ->
  (forall u v, (u < MaxFlow.n mf0)%nat -> (v < MaxFlow.n mf0)%nat ->
     cell (MaxFlow.capacity mf0) u v + cell (MaxFlow.capacity mf0) v u <= INT_MAX) ->
  rowsum (MaxFlow.n mf0) (MaxFlow.capacity mf0) source <= INT_MAX ->
  forall fuel mf parent flow,
  flow_inv mf0 source sink mf flow -> length parent = MaxFlow.n mf0 ->
  MaxFlowInt.maxflow_while fuel steps mf source sink parent flow =
  MaxFlow.maxflow_while fuel steps mf source sink parent flow.
Proof.
  intros Hs Ht Hsum Hrow.
  induction fuel as [|fuel IH]; intros mf parent flow Hinv Hlen; [done |].
  pose proof Hinv as (Hwf & Hn & _ & Hflow & Hpair & _).
  simpl. rewrite augment_int_agrees; try (rewrite Hn; done); [| done |].
  2: { intros u v Hu Hv. rewrite Hpair. rewrite Hn in Hu, Hv. by apply Hsum. }
  destruct (MaxFlow.augment _ _ _ _ _) as [[p1|[[mf1 pf] p1]]|] eqn:Haug; [done | | done].
  destruct (flow_inv_augment _ _ _ _ _ _ _ _ _ _ Hinv Hlen Hs Ht Haug)
    as (Hinv1 & Hlen1 & Hpf & Hts).
  pose proof Hinv1 as (Hwf1 & Hn1 & _ & Hflow1 & _ & Hrow1).
  assert (flow + pf <= INT_MAX) as Hfit.
  { specialize (Hrow1 source).
    destruct (decide (source = sink)) as [|_]; [congruence |].
    destruct (decide (source = source)) as [_|]; [| done].
    assert (0 <= rowsum (MaxFlow.n mf0) (MaxFlow.capacity mf1) source); [| lia].
    apply sumZ_nonneg. intros i Hi. apply (wf_nonneg _ Hwf1); lia. }
  rewrite int_wrap_id by (unfold INT_MIN; lia).
  by apply IH.
Qed.

(** While the calls give non-negative capacities and no entry more than
    [INT_MAX], the machine builds the engine the model builds. *)
Lemma add_edges_int_agrees n calls :
  Forall (valid_call n) calls ->
  (forall u v, (u < n)%nat -> (v < n)%nat ->
     cell (MaxFlow.capacity (add_edges calls (MaxFlow.new n))) u v <= INT_MAX) ->
  add_edges_int calls (MaxFlow.new n) = add_edges calls (MaxFlow.new n).
Proof.
  induction calls as [|[[u v] cap] calls IH] using rev_ind; intros Hall Hfit; [done |].
  apply Forall_app in Hall as [Hall Hlast].
  apply Forall_cons in Hlast as [(Hcap & Hu & Hv) _]. simpl in *.
  pose proof (wf_add_edges n calls Hall) as Hwf.
  assert (forall a b, (a < n)%nat -> (b < n)%nat ->
            cell (MaxFlow.capacity (add_edges (calls ++ [(u, v, cap)]) (MaxFlow.new n))) a b =
            if decide (a = u /\ b = v)
            then cell (MaxFlow.capacity (add_edges calls (MaxFlow.new n))) u v + cap
            else cell (MaxFlow.capacity (add_edges calls (MaxFlow.new n))) a b) as Hcell.
  { intros a b Ha Hb. rewrite add_edges_snoc. cbn [fst snd].
    apply cell_addEdge; [apply Hwf | |]; by rewrite n_add_edges. }
  rewrite add_edges_int_snoc, add_edges_snoc. cbn [fst snd].
  rewrite IH; [| done |].
  - unfold MaxFlowInt.addEdge, MaxFlow.addEdge.
    rewrite int_wrap_id; [done |].
    pose proof (Hfit u v Hu Hv) as H. rewrite Hcell in H by done.
    destruct (decide (u = u /\ v = v)) as [_|E]; [| by destruct E].
    pose proof (wf_nonneg _ Hwf u v) as H0. rewrite n_add_edges in H0.
    specialize (H0 Hu Hv). unfold INT_MIN. lia.
  - intros a b Ha Hb. pose proof (Hfit a b Ha Hb) as H.
    rewrite Hcell in H by done. destruct (decide _); [| done].
    destruct a0 as [-> ->]. lia.
Qed.

Lemma after_turns_int_agrees mf0 source sink steps :
  (source < MaxFlow.n mf0)%nat -> (sink < MaxFlow.n mf0)%nat ->
  (forall u v, (u < MaxFlow.n mf0)%nat -> (v < MaxFlow.n mf0)%nat ->
     cell (MaxFlow.capacity mf0) u v + cell (MaxFlow.capacity mf0) v u <= INT_MAX) ->
  rowsum (MaxFlow.n mf0) (MaxFlow.capacity mf0) source <= INT_MAX ->
  forall k mf parent flow,
  flow_inv mf0 source sink mf flow -> length parent = MaxFlow.n mf0 ->
  after_turns_int k steps mf source sink parent flow =
  after_turns k steps mf source sink parent flow.
Proof.
  intros Hs Ht Hsum Hrow.
  induction k as [|k IH]; intros mf parent flow Hinv Hlen; [done |].
  pose proof Hinv as (Hwf & Hn & _ & Hflow & Hpair & _).
  simpl. rewrite augment_int_agrees; try (rewrite Hn; done); [| done |].
  2: { intros u v Hu Hv. rewrite Hpair. rewrite Hn in Hu, Hv. by apply Hsum. }
  destruct (MaxFlow.augment _ _ _ _ _) as [[p1|[[mf1 pf] p1]]|] eqn:Haug; [done | | done].
  destruct (flow_inv_augment _ _ _ _ _ _ _ _ _ _ Hinv Hlen Hs Ht Haug)
    as (Hinv1 & Hlen1 & Hpf & Hts).
  pose proof Hinv1 as (Hwf1 & Hn1 & _ & Hflow1 & _ & Hrow1).
  assert (flow + pf <= INT_MAX) as Hfit.
  { specialize (Hrow1 source).
    destruct (decide (source = sink)) as [|_]; [congruence |].
    destruct (decide (source = source)) as [_|]; [| done].
    assert (0 <= rowsum (MaxFlow.n mf0) (MaxFlow.capacity mf1) source); [| lia].
    apply sumZ_nonneg. intros i Hi. apply (wf_nonneg _ Hwf1); lia. }
  rewrite int_wrap_id by (unfold INT_MIN; lia).
  by apply IH.
Qed.

(** X22: while the capacities fit [int] (non-negative, the two directions
    of a pair given at most [INT_MAX] in all, and so the arcs that leave
    the source), the machine does what the model in [Z] does: the calls
    build the same engine, every turn of the loop of [maxflow] leaves the
    same state, and [maxflow] returns the same, whatever the fuel. *)
Theorem maxflow_int_agrees n calls source sink :
  Forall (valid_call n) calls -> (source < n)%nat -> (sink < n)%nat ->
  (forall u v, (u < n)%nat -> (v < n)%nat ->
     cell (MaxFlow.capacity (add_edges calls (MaxFlow.new n))) u v +
     cell (MaxFlow.capacity (add_edges calls (MaxFlow.new n))) v u <= INT_MAX) ->
  rowsum n (MaxFlow.capacity (add_edges calls (MaxFlow.new n))) source <= INT_MAX ->
  add_edges_int calls (MaxFlow.new n) = add_edges calls (MaxFlow.new n) /\
  (forall k steps,
     maxflow_turns_int k steps source sink (add_edges_int calls (MaxFlow.new n)) =
     maxflow_turns k steps source sink (add_edges calls (MaxFlow.new n))) /\
  (forall fuel,
     MaxFlowInt.maxflow fuel source sink (add_edges_int calls (MaxFlow.new n)) =
     MaxFlow.maxflow fuel source sink (add_edges calls (MaxFlow.new n))).
Proof.
  intros Hcalls Hs Ht Hsum Hrow.
  pose proof (wf_add_edges n calls Hcalls) as Hwf.
  assert (add_edges_int calls (MaxFlow.new n) = add_edges calls (MaxFlow.new n)) as Heq.
  { apply add_edges_int_agrees; [done |]. intros u v Hu Hv.
    pose proof (Hsum u v Hu Hv).
    pose proof (wf_nonneg _ Hwf v u) as H0. rewrite n_add_edges in H0.
    specialize (H0 Hv Hu). lia. }
  rewrite Heq.
  set (mf0 := add_edges calls (MaxFlow.new n)) in *.
  assert (MaxFlow.n mf0 = n) as Hn by apply n_add_edges.
  split; [done |]. split.
  - intros k steps. unfold maxflow_turns_int, maxflow_turns.
    apply (after_turns_int_agrees mf0); rewrite ?Hn; try done.
    + by apply flow_inv_start.
    + by rewrite length_replicate.
  - intros fuel. unfold MaxFlowInt.maxflow, MaxFlow.maxflow.
    apply (maxflow_while_int_agrees mf0); rewrite ?Hn; try done.
    + by apply flow_inv_start.
    + by rewrite length_replicate.
Qed.

(** On the diamond. *)
Lemma maxflow_int_agrees_witness :
  add_edges_int diamond_calls (MaxFlow.new 4) = add_edges diamond_calls (MaxFlow.new 4) /\
  (forall k steps,
     maxflow_turns_int k steps 0 3 (add_edges_int diamond_calls (MaxFlow.new 4)) =
     maxflow_turns k steps 0 3 (add_edges diamond_calls (MaxFlow.new 4))) /\
  (forall fuel,
     MaxFlowInt.maxflow fuel 0 3 (add_edges_int diamond_calls (MaxFlow.new 4)) =
     MaxFlow.maxflow fuel 0 3 (add_edges diamond_calls (MaxFlow.new 4))).
Proof.
  apply (maxflow_int_agrees 4 diamond_calls 0 3).
  - repeat constructor; simpl; lia.
  - lia.
  - lia.
  - intros u v Hu Hv.
    destruct u as [|[|[|[|u]]]]; [| | | | lia];
      (destruct v as [|[|[|[|v]]]]; [| | | | lia]); by vm_compute.
  - by vm_compute.
Defined.
